(** * minio/ming: the gateway bootstrap and the gateway-level object walk

    A shallow embedding of the Go sources under [cmd/] and the properties the
    specification states about them, and further properties of the code:

    - [cmd/gateway-common.go]: [parseGatewaySSE] and [gatewayHandleEnvVars];
    - [cmd/gateway-main.go]: [ParseGatewayEndpoint], [GatewayLocker.Walk]
      with its paginated fallback producer, [StartGateway],
      [RegisterGatewayCommand], [ValidateGatewayArguments] and the startup
      message;
    - [cmd/main.go]: [GlobalFlags], [findClosestCommands] and the
      command-not-found handler.

    Go's standard library ([strings], [sort], [net/url]) and the packages of
    github.com/minio/minio are not part of this repository.  The pieces of
    [strings] and [sort] the code calls are written out after their Go
    sources; [net/url], the trie, the edit distance, the object layer and
    the other calls into github.com/minio/minio are parameters of the
    definitions that use them.

    Part I holds the embedding, one module per source unit; Part II holds
    the properties, one module of facts per module of Part I. *)

From Stdlib Require Import String Ascii List Bool Arith ZArith Lia Sorted.
Import ListNotations.
Local Open Scope list_scope.
Local Open Scope string_scope.

(* ===================================================================== *)
(** * Part I: the embedding *)
(* ===================================================================== *)

(* ===================================================================== *)
(** ** Go values shared by the whole development *)
(* ===================================================================== *)

(** A Go [error] value, by its dynamic type.  [nil] is [None] in an
    [option error]. *)
Inductive error : Type :=
| NotImplemented                          (* minio.NotImplemented{} *)
| ErrInvalidGWSSEValue (msg : string)     (* config.ErrInvalidGWSSEValue(nil).Msg(...) *)
| Errorf (msg : string)                   (* fmt.Errorf(...) *)
| url_Error (op url msg : string)         (* *url.Error *)
| ErrOther (msg : string).                (* any other dynamic type *)

(** The type assertion [_, ok := err.(minio.NotImplemented)]. *)
Definition is_NotImplemented (err : error) : bool :=
  match err with
  | NotImplemented => true
  | _ => false
  end.

(* ===================================================================== *)
(** ** The functions of Go's [strings] package that the code calls *)
(* ===================================================================== *)

Module GoStrings.

(** [s[n:]] *)
Fixpoint slice_from (n : nat) (s : string) : string :=
  match n, s with
  | 0, _ => s
  | S _, EmptyString => EmptyString
  | S n', String _ s' => slice_from n' s'
  end.

(** [s[:n]] *)
Fixpoint slice_to (n : nat) (s : string) : string :=
  match n, s with
  | 0, _ => EmptyString
  | S _, EmptyString => EmptyString
  | S n', String c s' => String c (slice_to n' s')
  end.

(** [strings.Index(s, substr)]; [None] stands for Go's [-1]. *)
Definition Index (s substr : string) : option nat := index 0 substr s.

(** The loop of [strings.Count] for a non-empty [substr]:
    [for { i := Index(s, substr); if i == -1 { return n }; n++;
           s = s[i+len(substr):] }].
    Every round drops at least one byte of [s], so [length s] rounds are
    enough; [fuel] bounds the rounds. *)
Fixpoint Count_loop (fuel : nat) (s substr : string) : nat :=
  match fuel with
  | 0 => 0
  | S fuel' =>
      match Index s substr with
      | None => 0
      | Some i => S (Count_loop fuel' (slice_from (i + String.length substr) s) substr)
      end
  end.

(** [strings.Count(s, substr)] for a non-empty [substr]: the number of
    non-overlapping instances.  (For a one-byte [substr] Go counts the
    byte, which is the number this loop gives.) *)
Definition Count (s substr : string) : nat := Count_loop (String.length s) s substr.

(** The loop of [genSplit(s, sep, 0, n)], [n] being the rounds left
    ([i < n]):
    [m := Index(s, sep); if m < 0 { break }; a[i] = s[:m];
     s = s[m+len(sep):]; i++], then [a[i] = s]. *)
Fixpoint genSplit_loop (n : nat) (s sep : string) : list string :=
  match n with
  | 0 => [s]
  | S n' =>
      match Index s sep with
      | None => [s]
      | Some m => slice_to m s :: genSplit_loop n' (slice_from (m + String.length sep) s) sep
      end
  end.

(** [strings.Split(s, sep)] = [genSplit(s, sep, 0, -1)] for a non-empty
    [sep]: [n = Count(s, sep) + 1], capped at [len(s) + 1], and the loop
    runs while [i < n - 1]. *)
Definition Split (s sep : string) : list string :=
  let n := Nat.min (Count s sep + 1) (String.length s + 1) in
  genSplit_loop (n - 1) s sep.

(** [strings.Join(elems, sep)] *)
Fixpoint Join (elems : list string) (sep : string) : string :=
  match elems with
  | [] => EmptyString
  | [e] => e
  | e :: rest => e ++ sep ++ Join rest sep
  end.

(** The bytes of [strings.ToUpper]'s fast path. *)
Definition is_ascii_byte (c : ascii) : bool := (nat_of_ascii c <? 128)%nat.
Definition is_lower_byte (c : ascii) : bool :=
  ((97 <=? nat_of_ascii c) && (nat_of_ascii c <=? 122))%nat.
Definition upper_byte (c : ascii) : ascii :=
  if is_lower_byte c then ascii_of_nat (nat_of_ascii c - 32) else c.

Fixpoint all_bytes (p : ascii -> bool) (s : string) : bool :=
  match s with
  | EmptyString => true
  | String c s' => p c && all_bytes p s'
  end.

Fixpoint any_byte (p : ascii -> bool) (s : string) : bool :=
  match s with
  | EmptyString => false
  | String c s' => p c || any_byte p s'
  end.

Fixpoint map_bytes (f : ascii -> ascii) (s : string) : string :=
  match s with
  | EmptyString => EmptyString
  | String c s' => String (f c) (map_bytes f s')
  end.

Section ToUpper.
(** [strings.Map(unicode.ToUpper, s)], the path of [strings.ToUpper] for
    a string with a byte of [0x80] or above; it depends on Unicode's case
    tables. *)
Variable Map_unicode_ToUpper : string -> string.

(** [strings.ToUpper(s)]: an ASCII-only string is mapped byte by byte
    (and returned as it is when it has no lower-case letter). *)
Definition ToUpper (s : string) : string :=
  if all_bytes is_ascii_byte s then
    if any_byte is_lower_byte s then map_bytes upper_byte s else s
  else Map_unicode_ToUpper s.
End ToUpper.

(** "[s] contains [sub]", as a proposition. *)
Definition Contains (s sub : string) : Prop :=
  exists a b, s = a ++ sub ++ b.

(** A text that does not hold the byte [c]. *)
Definition lacks (c : ascii) (t : string) : bool := negb (any_byte (Ascii.eqb c) t).

End GoStrings.

(* ===================================================================== *)
(** ** [cmd/gateway-common.go]: [parseGatewaySSE] *)
(* ===================================================================== *)

Module GatewaySSE.
Import GoStrings.

(** A Go slice of strings, its [nil] value kept apart from a slice that
    holds elements. *)
Inductive GatewaySSE : Type :=
| nil_slice
| slice_of (elems : list string).

(** [append(gwSlice, v)] *)
Definition append (gwSlice : GatewaySSE) (v : string) : GatewaySSE :=
  match gwSlice with
  | nil_slice => slice_of [v]
  | slice_of elems => slice_of (elems ++ [v])
  end.

(** Modelled from the spec: the constants [minio.GatewaySSES3] and
    [minio.GatewaySSEC] are declared in github.com/minio/minio/cmd, which
    is not under [src/]; the specification names the closed set of tokens
    as S3 and SSE-C. *)
Definition GatewaySSES3 : string := "S3".
Definition GatewaySSEC : string := "SSE-C".

Section Parse.
Variable Map_unicode_ToUpper : string -> string.
(** The two tokens of the [switch]. *)
Variables (sses3 ssec : string).

(** The message of [config.ErrInvalidGWSSEValue(nil).Msg("gateway SSE
    cannot be (%s) ", v)]. *)
Definition invalid_value (v : string) : error :=
  ErrInvalidGWSSEValue ("gateway SSE cannot be (" ++ v ++ ") ").

(** The body of [for _, val := range l], with the [switch] on [v]:
    [case ""] continues, the two tokens append and continue, anything
    else returns [nil] and the error. *)
Fixpoint parseGatewaySSE_range (l : list string) (gwSlice : GatewaySSE)
  : GatewaySSE * option error :=
  match l with
  | [] => (gwSlice, None)
  | val :: l' =>
      let v := ToUpper Map_unicode_ToUpper val in
      if (v =? "")%string then parseGatewaySSE_range l' gwSlice
      else if (v =? sses3)%string || (v =? ssec)%string
      then parseGatewaySSE_range l' (append gwSlice v)
      else (nil_slice, Some (invalid_value v))
  end.

Definition parseGatewaySSE_with (s : string) : GatewaySSE * option error :=
  let l := Split s ";" in
  parseGatewaySSE_range l nil_slice.

(** An upper-cased token the [switch] lets pass: empty, or one of the two. *)
Definition passes (v : string) : bool :=
  (v =? "")%string || (v =? sses3)%string || (v =? ssec)%string.
End Parse.

(** [parseGatewaySSE(s)] *)
Definition parseGatewaySSE (Map_unicode_ToUpper : string -> string) (s : string)
  : GatewaySSE * option error :=
  parseGatewaySSE_with Map_unicode_ToUpper GatewaySSES3 GatewaySSEC s.

(** A token that is not empty. *)
Definition nonempty (v : string) : bool := negb (v =? "")%string.

(** The slice a run of [append]s from [nil] builds. *)
Definition of_list (l : list string) : GatewaySSE :=
  match l with
  | [] => nil_slice
  | _ => slice_of l
  end.

(** A token of the closed set. *)
Definition in_set (v : string) : bool :=
  (v =? GatewaySSES3)%string || (v =? GatewaySSEC)%string.

(** The elements of a slice; [nil] has none. *)
Definition elements (g : GatewaySSE) : list string :=
  match g with
  | nil_slice => []
  | slice_of l => l
  end.

End GatewaySSE.

(* ===================================================================== *)
(** ** [cmd/gateway-main.go]: [ParseGatewayEndpoint] *)
(* ===================================================================== *)

Module Endpoint.
Import GoStrings.

(** The fields of [url.URL] that [net/url]'s parser fills. *)
Record URL : Type := mkURL {
  Scheme : string;
  Opaque : string;
  User : option string;
  Host : string;
  Path : string;
  RawQuery : string;
  Fragment : string
}.

Section ParseGatewayEndpoint.
(** [url.Parse] of Go's [net/url]: a [*URL], or the parse error. *)
Variable url_Parse : string -> URL + error.

(** [schemeSpecified := len(strings.Split(arg, "://")) > 1] *)
Definition schemeSpecified (arg : string) : bool :=
  (1 <? List.length (Split arg "://"))%nat.

(** The text handed to [url.Parse]: [arg], behind the https prefix when
    no scheme is specified. *)
Definition parsed_text (arg : string) : string :=
  if schemeSpecified arg then arg else "https://" ++ arg.

(** [ParseGatewayEndpoint(arg)], returning [(endPoint, secure, err)]. *)
Definition ParseGatewayEndpoint (arg : string) : string * bool * option error :=
  let arg := if negb (schemeSpecified arg) then "https://" ++ arg else arg in
  match url_Parse arg with
  | inr err => ("", false, Some err)
  | inl u =>
      if (Scheme u =? "http")%string then (Host u, false, None)
      else if (Scheme u =? "https")%string then (Host u, true, None)
      else ("", false, Some (Errorf ("Unrecognized scheme " ++ Scheme u)))
  end.
End ParseGatewayEndpoint.

(** *** A reference instance of [url.Parse]

    It follows [net/url]'s [Parse], [parse] and [getScheme] in how a raw
    URL is cut into fragment, scheme, query, opaque part, authority and
    path.  The checks [net/url] runs on the pieces (percent-escapes, ports,
    bracketed IPv6 hosts, userinfo characters) are left out: this instance
    accepts the piece as it is written.  It gives the development a parser
    to evaluate [ParseGatewayEndpoint] with. *)
Module NetURL.

Definition byte_in (lo hi : nat) (c : ascii) : bool :=
  ((lo <=? nat_of_ascii c) && (nat_of_ascii c <=? hi))%nat.
Definition is_letter (c : ascii) : bool := byte_in 97 122 c || byte_in 65 90 c.
Definition is_scheme_extra (c : ascii) : bool :=
  byte_in 48 57 c || (c =? "+")%char || (c =? "-")%char || (c =? ".")%char.
(** [stringContainsCTLByte]: a byte below [0x20], or [0x7f]. *)
Definition is_ctl (c : ascii) : bool :=
  (nat_of_ascii c <? 32)%nat || (nat_of_ascii c =? 127)%nat.
Definition lower_byte (c : ascii) : ascii :=
  if byte_in 65 90 c then ascii_of_nat (nat_of_ascii c + 32) else c.

(** [getScheme(rawURL)]: [i] is the index of the byte under the loop,
    [s] the bytes from [i] on. *)
Fixpoint getScheme_scan (rawURL : string) (i : nat) (s : string)
  : (string * string) + error :=
  match s with
  | EmptyString => inl ("", rawURL)
  | String c s' =>
      if is_letter c then getScheme_scan rawURL (S i) s'
      else if is_scheme_extra c then
        if (i =? 0)%nat then inl ("", rawURL) else getScheme_scan rawURL (S i) s'
      else if (c =? ":")%char then
        if (i =? 0)%nat then inr (ErrOther "missing protocol scheme")
        else inl (slice_to i rawURL, s')
      else inl ("", rawURL)
  end.

Definition getScheme (rawURL : string) : (string * string) + error :=
  getScheme_scan rawURL 0 rawURL.

(** [strings.Cut(s, sep)] for a one-byte [sep]: the text before the first
    [sep] and the text after it ([None] when [sep] does not occur). *)
Fixpoint cut_byte (sep : ascii) (s : string) : string * option string :=
  match s with
  | EmptyString => (EmptyString, None)
  | String c s' =>
      if (c =? sep)%char then (EmptyString, Some s')
      else let (before, after) := cut_byte sep s' in (String c before, after)
  end.

(** [strings.LastIndex(s, "@")]-style cut at the last [sep]. *)
Fixpoint cut_last_byte (sep : ascii) (s : string) : option (string * string) :=
  match s with
  | EmptyString => None
  | String c s' =>
      match cut_last_byte sep s' with
      | Some (before, after) => Some (String c before, after)
      | None => if (c =? sep)%char then Some (EmptyString, s') else None
      end
  end.

(** [parse(rawURL, false)] *)
Definition parse (rawURL : string) : URL + error :=
  if any_byte is_ctl rawURL then
    inr (ErrOther "net/url: invalid control character in URL")
  else if (rawURL =? "*")%string then inl (mkURL "" "" None "" "*" "" "")
  else
    match getScheme rawURL with
    | inr err => inr err
    | inl (scheme, rest) =>
        let scheme := map_bytes lower_byte scheme in
        let (rest, query) := cut_byte "?" rest in
        let rawquery := match query with Some q => q | None => EmptyString end in
        if negb (prefix "/" rest) && negb (scheme =? "")%string then
          inl (mkURL scheme rest None "" "" rawquery "")
        else if negb (prefix "/" rest)
                && (let (segment, _) := cut_byte "/" rest in any_byte (Ascii.eqb ":") segment)
        then inr (ErrOther "first path segment in URL cannot contain colon")
        else if prefix "//" rest
                && (negb (scheme =? "")%string || negb (prefix "///" rest)) then
          let authority := slice_from 2 rest in
          let (authority, path) :=
            match Index authority "/" with
            | Some i => (slice_to i authority, slice_from i authority)
            | None => (authority, EmptyString)
            end in
          match cut_last_byte "@" authority with
          | Some (userinfo, host) =>
              inl (mkURL scheme "" (Some userinfo) host path rawquery "")
          | None => inl (mkURL scheme "" None authority path rawquery "")
          end
        else inl (mkURL scheme "" None "" rest rawquery "")
    end.

(** [url.Parse(rawURL)]: cut off the fragment, parse the rest, wrap an
    error into [*url.Error]. *)
Definition Parse (rawURL : string) : URL + error :=
  let (u, frag) := cut_byte "#" rawURL in
  match parse u with
  | inr err =>
      inr (url_Error "parse" u
             match err with ErrOther msg => msg | _ => EmptyString end)
  | inl url =>
      match frag with
      | None => inl url
      | Some f =>
          inl (mkURL (Scheme url) (Opaque url) (User url) (Host url)
                     (Path url) (RawQuery url) f)
      end
  end.

End NetURL.

(** The URL that [net/url] returns for the bare https prefix. *)
Definition https_empty : URL := mkURL "https" "" None "" "" "" "".

End Endpoint.

(* ===================================================================== *)
(** ** [cmd/gateway-main.go]: [GatewayLocker.Walk] *)
(* ===================================================================== *)

Module WalkEngine.
Local Open Scope list_scope.

(** A [context.Context], as the producer's [select] sees it:
    [Done_fires ctx k] says that the [select] the producer runs after it
    has sent [k] objects receives from [ctx.Done()].  When it does not,
    the send [results <- obj] is the case that proceeds (the consumer is
    taken to receive; a producer blocked for ever has no exit).  A context
    that is never cancelled fires at no [k]. *)
Record Context : Type := mkContext {
  Done_fires : nat -> bool
}.

(** The arguments of one [ListObjects] call. *)
Record ListCall : Type := mkListCall {
  call_bucket : string;
  call_prefix : string;
  call_marker : string;
  call_delimiter : string;
  call_maxKeys : Z
}.

(** What a [go] statement starts. *)
Inductive Goroutine : Type :=
| WalkProducer (ctx : Context) (bucket prefix : string).

(** How the producer leaves its loop. *)
Inductive exit_path : Type :=
| LoopBreak                   (* [break], on a page that is not truncated *)
| ListError (err : error)     (* [return], after [logger.LogIf(ctx, err)] *)
| CtxDone.                    (* [return], in the case [<-ctx.Done()] *)

Section Types.
(** [minio.ObjectInfo], declared in github.com/minio/minio/cmd. *)
Variable ObjectInfo : Type.
(** The state of the inner object layer, [l.ObjectLayer]. *)
Variable Backend : Type.

(** [minio.ListObjectsInfo] *)
Record ListObjectsInfo : Type := mkListObjectsInfo {
  IsTruncated : bool;
  NextMarker : string;
  Objects : list ObjectInfo;
  Prefixes : list string
}.

(** The channel [results chan<- minio.ObjectInfo]: what has been sent on
    it, in order, and how many times [close] ran on it. *)
Record Chan : Type := mkChan {
  sent : list ObjectInfo;
  closes : nat
}.

(** The state the walk acts on.  [results] is the channel handed to
    [Walk]; the native walk of the inner layer and the paginated producer
    both act on it. *)
Record World : Type := mkWorld {
  backend : Backend;
  results : Chan;
  logged : list error;         (* the errors handed to [logger.LogIf] *)
  listed : list ListCall;      (* the [ListObjects] calls made, in order *)
  goroutines : list Goroutine  (* the goroutines started, in order *)
}.
End Types.

Arguments mkListObjectsInfo {ObjectInfo}.
Arguments IsTruncated {ObjectInfo}.
Arguments NextMarker {ObjectInfo}.
Arguments Objects {ObjectInfo}.
Arguments Prefixes {ObjectInfo}.
Arguments mkChan {ObjectInfo}.
Arguments sent {ObjectInfo}.
Arguments closes {ObjectInfo}.
Arguments mkWorld {ObjectInfo Backend}.
Arguments backend {ObjectInfo Backend}.
Arguments results {ObjectInfo Backend}.
Arguments logged {ObjectInfo Backend}.
Arguments listed {ObjectInfo Backend}.
Arguments goroutines {ObjectInfo Backend}.

(** The two methods of the interface [minio.ObjectLayer] that the walk
    calls on the inner layer.
    - [l.ObjectLayer.ListObjects(ctx, bucket, prefix, marker, delimiter,
      maxKeys)] returns Go's pair [(loi, err)], and the next state of the
      layer.
    - [l.ObjectLayer.Walk(ctx, bucket, prefix, results, opts)], the native
      walk, may act on the whole state. *)
Class ObjectLayer (ObjectInfo ObjectOptions Backend : Type) : Type := {
  ObjectLayer_ListObjects :
    Backend -> Context -> string -> string -> string -> string -> Z ->
    Backend * (ListObjectsInfo ObjectInfo * option error);
  ObjectLayer_Walk :
    Context -> string -> string -> ObjectOptions ->
    World ObjectInfo Backend -> World ObjectInfo Backend * option error
}.

Section Walk.
Context {ObjectInfo ObjectOptions Backend : Type}.
Context {inner : ObjectLayer ObjectInfo ObjectOptions Backend}.

#[local] Abbreviation World' := (World ObjectInfo Backend).
#[local] Abbreviation Chan' := (Chan ObjectInfo).
#[local] Abbreviation Page := (ListObjectsInfo ObjectInfo).

Definition set_backend (b : Backend) (w : World') : World' :=
  mkWorld b (results w) (logged w) (listed w) (goroutines w).
Definition set_results (ch : Chan') (w : World') : World' :=
  mkWorld (backend w) ch (logged w) (listed w) (goroutines w).
Definition record_call (c : ListCall) (w : World') : World' :=
  mkWorld (backend w) (results w) (logged w) (listed w ++ [c]) (goroutines w).
(** [logger.LogIf(ctx, err)] with a non-nil [err]. *)
Definition LogIf (err : error) (w : World') : World' :=
  mkWorld (backend w) (results w) (logged w ++ [err]) (listed w) (goroutines w).
(** [go func() { ... }()] *)
Definition spawn (g : Goroutine) (w : World') : World' :=
  mkWorld (backend w) (results w) (logged w) (listed w) (goroutines w ++ [g]).

(** [results <- obj] *)
Definition send (ch : Chan') (obj : ObjectInfo) : Chan' :=
  mkChan (sent ch ++ [obj]) (closes ch).
(** [close(results)] *)
Definition close (ch : Chan') : Chan' :=
  mkChan (sent ch) (S (closes ch)).

(** [for _, obj := range loi.Objects { select { case results <- obj:
    case <-ctx.Done(): return } }], the producer having sent [k] objects
    so far.  The result is the channel, the number of objects sent, and
    whether the [return] was taken. *)
Fixpoint push_objects (ctx : Context) (objs : list ObjectInfo) (k : nat) (ch : Chan')
  : Chan' * nat * bool :=
  match objs with
  | [] => (ch, k, false)
  | obj :: rest =>
      if Done_fires ctx k then (ch, k, true)
      else push_objects ctx rest (S k) (send ch obj)
  end.

(** The [for] loop of the producer; [fuel] bounds its rounds (a backend
    that answers with truncated pages for ever keeps the loop running). *)
Fixpoint walk_loop (fuel : nat) (ctx : Context) (bucket prefix marker : string)
  (k : nat) (w : World') : option (exit_path * World') :=
  match fuel with
  | 0 => None
  | S fuel' =>
      (* set maxKeys to '0' to list maximum possible objects in single call. *)
      let '(b, (loi, err)) :=
        ObjectLayer_ListObjects (backend w) ctx bucket prefix marker "" 0 in
      let w := record_call (mkListCall bucket prefix marker "" 0) (set_backend b w) in
      match err with
      | Some e => Some (ListError e, LogIf e w)
      | None =>
          let marker := NextMarker loi in
          let '(ch, k, cancelled) := push_objects ctx (Objects loi) k (results w) in
          let w := set_results ch w in
          if cancelled then Some (CtxDone, w)
          else if negb (IsTruncated loi) then Some (LoopBreak, w)
          else walk_loop fuel' ctx bucket prefix marker k w
      end
  end.

(** The goroutine that [walk] starts:
    [defer close(results); var marker string; for { ... }]. *)
Definition walk_goroutine (fuel : nat) (ctx : Context) (bucket prefix : string)
  (w : World') : option (exit_path * World') :=
  match walk_loop fuel ctx bucket prefix "" 0 w with
  | Some (x, w') => Some (x, set_results (close (results w')) w')
  | None => None
  end.

(** The closure [walk]: start the goroutine, [return nil]. *)
Definition walk (ctx : Context) (bucket prefix : string) (w : World')
  : World' * option error :=
  (spawn (WalkProducer ctx bucket prefix) w, None).

(** [func (l *GatewayLocker) Walk(ctx, bucket, prefix, results, opts) error] *)
Definition Walk (ctx : Context) (bucket prefix : string) (opts : ObjectOptions)
  (w : World') : World' * option error :=
  let (w1, err) := ObjectLayer_Walk ctx bucket prefix opts w in
  match err with
  | Some e =>
      if is_NotImplemented e then walk ctx bucket prefix w1
      else (w1, Some e)
  | None => (w1, None)
  end.

(** Running a goroutine that was started. *)
Definition run_goroutine (fuel : nat) (g : Goroutine) (w : World')
  : option (exit_path * World') :=
  match g with
  | WalkProducer ctx bucket prefix => walk_goroutine fuel ctx bucket prefix w
  end.

(** *** What the backend serves

    [serves b ctx bucket prefix marker pages final]: asked from [marker]
    on, as the producer asks (empty delimiter, [maxKeys] 0, each call at
    the marker the page before it gave), the backend in state [b] answers
    with the truncated pages [pages], without error, and then with
    [final]. *)
Fixpoint serves (b : Backend) (ctx : Context) (bucket prefix marker : string)
  (pages : list Page) (final : Page * option error) : Prop :=
  match pages with
  | [] => snd (ObjectLayer_ListObjects b ctx bucket prefix marker "" 0) = final
  | p :: rest =>
      let '(b', r) := ObjectLayer_ListObjects b ctx bucket prefix marker "" 0 in
      r = (p, None) /\ IsTruncated p = true /\
      serves b' ctx bucket prefix (NextMarker p) rest final
  end.

(** The objects of the pages, in page order and then in the order within
    the page. *)
Definition all_objects (pages : list Page) : list ObjectInfo :=
  concat (map Objects pages).

(** The marker the call after [pages] is made at. *)
Fixpoint marker_after (marker : string) (pages : list Page) : string :=
  match pages with
  | [] => marker
  | p :: rest => marker_after (NextMarker p) rest
  end.

(** The calls that fetch [pages] from [marker] on: one per page, each at
    the marker the page before it gave. *)
Fixpoint calls_for (bucket prefix marker : string) (pages : list Page)
  : list ListCall :=
  match pages with
  | [] => []
  | p :: rest =>
      mkListCall bucket prefix marker "" 0 :: calls_for bucket prefix (NextMarker p) rest
  end.

(** The state of the backend after it has served [pages]. *)
Fixpoint backend_through (b : Backend) (ctx : Context) (bucket prefix marker : string)
  (pages : list Page) : Backend :=
  match pages with
  | [] => b
  | p :: rest =>
      backend_through (fst (ObjectLayer_ListObjects b ctx bucket prefix marker "" 0))
        ctx bucket prefix (NextMarker p) rest
  end.

(** [ctx.Done()] fires at none of the [select]s [k], ..., [k + n - 1]. *)
Definition quiet (ctx : Context) (k n : nat) : Prop :=
  forall j, k <= j < k + n -> Done_fires ctx j = false.

(** The channel after [objs] have been sent on it. *)
Definition sends (ch : Chan') (objs : list ObjectInfo) : Chan' :=
  mkChan (sent ch ++ objs) (closes ch).

(** The state after the producer has fetched and sent the truncated
    pages [pages]. *)
Definition through_pages (ctx : Context) (bucket prefix marker : string)
  (pages : list Page) (w : World') : World' :=
  mkWorld (backend_through (backend w) ctx bucket prefix marker pages)
          (sends (results w) (all_objects pages))
          (logged w)
          (listed w ++ calls_for bucket prefix marker pages)
          (goroutines w).

End Walk.

(** *** A backend to run the walk on

    Objects are known by their names.  The backend is a table from a
    marker to the answer [ListObjects] gives at that marker; a marker the
    table does not hold gets an error.  Its native walk returns what
    [native] says, and does nothing else. *)
Module Paged.

Definition ObjectInfo : Type := string.
Definition Page : Type := ListObjectsInfo ObjectInfo.
Definition Backend : Type := list (string * (Page * option error)).

Definition no_page : Page := mkListObjectsInfo false "" [] [].

Fixpoint lookup (marker : string) (b : Backend) : Page * option error :=
  match b with
  | [] => (no_page, Some (ErrOther "unknown marker"))
  | (m, answer) :: b' => if (m =? marker)%string then answer else lookup marker b'
  end.

Definition ListObjects (b : Backend) (_ : Context) (_ _ marker _ : string) (_ : Z)
  : Backend * (Page * option error) :=
  (b, lookup marker b).

Definition layer (native : option error) : ObjectLayer ObjectInfo unit Backend :=
  {| ObjectLayer_ListObjects := ListObjects;
     ObjectLayer_Walk := fun _ _ _ _ w => (w, native) |}.

Definition page1 : Page := mkListObjectsInfo true "b" ["a"; "b"] [].
Definition page2 : Page := mkListObjectsInfo true "c" ["c"] [].
Definition page3 : Page := mkListObjectsInfo false "" ["d"; "e"] [].

(** Three pages, the last one not truncated. *)
Definition three_pages : Backend :=
  [("", (page1, None)); ("b", (page2, None)); ("c", (page3, None))].

(** Two pages, then a failure. *)
Definition two_pages_then_error : Backend :=
  [("", (page1, None)); ("b", (page2, None));
   ("c", (no_page, Some (ErrOther "connection reset")))].

(** A page that is truncated and gives its own marker again. *)
Definition endless : Backend :=
  [("", (mkListObjectsInfo true "" [] [], None))].

(** A context that is never cancelled, and one that fires at the
    [select] after [K] sends. *)
Definition background : Context := mkContext (fun _ => false).
Definition cancelled_after (K : nat) : Context := mkContext (fun k => (K <=? k)%nat).

Definition start (b : Backend) : World ObjectInfo Backend :=
  mkWorld b (mkChan [] 0) [] [] [].

(** Two pages that hold no object, the second one not truncated. *)
Definition empty_pages : Backend :=
  [("", (mkListObjectsInfo true "m" [] [], None));
   ("m", (mkListObjectsInfo false "" [] [], None))].

End Paged.

End WalkEngine.

(* ===================================================================== *)
(** ** [cmd/main.go]: [findClosestCommands] and [app.CommandNotFound] *)
(* ===================================================================== *)

Module Suggest.
Local Open Scope list_scope.

(** *** Go's [sort.Strings] and [sort.SearchStrings] *)

Fixpoint insert_sorted (x : string) (l : list string) : list string :=
  match l with
  | [] => [x]
  | y :: l' => if (x <=? y)%string then x :: l else y :: insert_sorted x l'
  end.

(** [sort.Strings(a)]: the strings of [a] in increasing order.  Equal
    strings cannot be told apart, so the result does not depend on the
    sorting algorithm. *)
Definition sort_Strings (a : list string) : list string :=
  fold_right insert_sorted [] a.

(** The loop of [sort.Search(n, f)]:
    [for i < j { h := int(uint(i+j) >> 1); if !f(h) { i = h + 1 } else
    { j = h } }; return i].  [j - i] shrinks in every round, so [fuel] at
    least [j - i] is enough. *)
Fixpoint Search_loop (fuel : nat) (f : nat -> bool) (i j : nat) : nat :=
  match fuel with
  | 0 => i
  | S fuel' =>
      if (i <? j)%nat then
        let h := (i + j) / 2 in
        if negb (f h) then Search_loop fuel' f (h + 1) j
        else Search_loop fuel' f i h
      else i
  end.

Definition sort_Search (n : nat) (f : nat -> bool) : nat := Search_loop n f 0 n.

(** [sort.SearchStrings(a, x)] =
    [sort.Search(len(a), func(i int) bool { return a[i] >= x })] *)
Definition SearchStrings (a : list string) (x : string) : nat :=
  sort_Search (length a) (fun i => (x <=? nth i a EmptyString)%string).

(** *** [findClosestCommands] *)

Section FindClosest.
(** [commandsTree.PrefixMatch(command)] and
    [commandsTree.Walk(commandsTree.Root())], of
    github.com/minio/minio/pkg/trie.  The trie walks the children of a
    node in the iteration order of a Go map, so the order of both results
    is not fixed. *)
Variable PrefixMatch : string -> list string.
Variable Walk_Root : list string.
(** [words.DamerauLevenshteinDistance], of github.com/minio/minio/pkg/words. *)
Variable DamerauLevenshteinDistance : string -> string -> Z.

(** [for _, value := range commandsTree.Walk(commandsTree.Root()) { ... }] *)
Fixpoint closest_range (command : string) (values closestCommands : list string)
  : list string :=
  match values with
  | [] => closestCommands
  | value :: rest =>
      if (SearchStrings closestCommands value <? length closestCommands)%nat
      then closest_range command rest closestCommands
      else
        (* 2 is arbitrary and represents the max allowed number of typed errors *)
        if (DamerauLevenshteinDistance command value <? 2)%Z
        then closest_range command rest (closestCommands ++ [value])
        else closest_range command rest closestCommands
  end.

Definition findClosestCommands (command : string) : list string :=
  let closestCommands := [] ++ PrefixMatch command in
  let closestCommands := sort_Strings closestCommands in
  (* Suggest other close commands - allow missed, wrongly added and
     even transposed characters *)
  closest_range command Walk_Root closestCommands.

(** What the handler prints. *)
Inductive Output : Type :=
| NotASubCommand (command : string)   (* ... is not a minio sub-command. ... *)
| BlankLine
| DidYouMean                          (* Did you mean one of these? *)
| Suggestion (cmd : string).

(** [app.CommandNotFound]: the lines printed, and the status of
    [os.Exit(1)]. *)
Definition CommandNotFound (command : string) : list Output * Z :=
  let closestCommands := findClosestCommands command in
  let printed :=
    NotASubCommand command ::
    (if (0 <? length closestCommands)%nat
     then BlankLine :: DidYouMean :: map Suggestion closestCommands
     else []) in
  (printed, 1%Z).

End FindClosest.

(** *** Reference instances of the trie and of the distance *)

(** The trie, as the list of the keys inserted, in insertion order. *)
Module KeyList.
Definition Trie : Type := list string.
Definition NewTrie : Trie := [].
Definition Insert (t : Trie) (key : string) : Trie :=
  if existsb (String.eqb key) t then t else t ++ [key].
Definition Walk_Root (t : Trie) : list string := t.
Definition PrefixMatch (t : Trie) (key : string) : list string :=
  filter (prefix key) t.
End KeyList.

(** The distance of pkg/words: insertions, deletions, substitutions and
    transpositions of two adjacent bytes, by the table [d] with
    [d[i][j]] the distance of [a[:i]] and [b[:j]]. *)
Module Words.
Definition byte_at (s : string) (i : nat) : ascii :=
  match String.get i s with
  | Some c => c
  | None => zero
  end.

(** [minimum(integers)], starting from [math.MaxInt32]. *)
Definition minimum (integers : list Z) : Z :=
  fold_left (fun minVal v => if (v <? minVal)%Z then v else minVal) integers 2147483647%Z.

Definition cell (d : list (list Z)) (i j : nat) : Z := nth j (nth i d []) 0%Z.

(** Row [i] from column [j] on, [row] holding the columns before [j]. *)
Fixpoint fill_row (a b : string) (d : list (list Z)) (i : nat) (row : list Z)
  (j n : nat) : list Z :=
  match n with
  | 0 => row
  | S n' =>
      let cost := if (byte_at a (i - 1) =? byte_at b (j - 1))%char then 0%Z else 1%Z in
      let v := minimum [cell d (i - 1) j + 1; nth (j - 1) row 0 + 1;
                        cell d (i - 1) (j - 1) + cost]%Z in
      let v :=
        if (1 <? i)%nat && (1 <? j)%nat
           && (byte_at a (i - 1) =? byte_at b (j - 2))%char
           && (byte_at a (i - 2) =? byte_at b (j - 1))%char
        then minimum [v; cell d (i - 2) (j - 2) + cost]%Z (* transposition *)
        else v in
      fill_row a b d i (row ++ [v]) (S j) n'
  end.

(** Rows [i], [i + 1], ... of the table, [d] holding the rows before. *)
Fixpoint fill_rows (a b : string) (d : list (list Z)) (i n : nat) : list (list Z) :=
  match n with
  | 0 => d
  | S n' =>
      let row := fill_row a b d i [Z.of_nat i] 1 (String.length b) in
      fill_rows a b (d ++ [row]) (S i) n'
  end.

Definition DamerauLevenshteinDistance (a b : string) : Z :=
  let row0 := map Z.of_nat (seq 0 (String.length b + 1)) in
  let d := fill_rows a b [row0] 1 (String.length a) in
  cell d (String.length a) (String.length b).
End Words.

(** The commands of two gateways, registered by [RegisterGatewayCommand]
    and inserted by [newApp]. *)
Definition gateways : KeyList.Trie :=
  fold_left KeyList.Insert ["nas"; "s3"]%string KeyList.NewTrie.

(** Two commands that differ in their first byte and in their length. *)
Definition near_names : KeyList.Trie :=
  fold_left KeyList.Insert ["ma"; "nas"]%string KeyList.NewTrie.

End Suggest.

(* ===================================================================== *)
(** ** [cmd/gateway-main.go]: [StartGateway] *)
(* ===================================================================== *)

Module Bootstrap.
Local Open Scope list_scope.

(** The object layer handles of the bootstrap: what the backend's
    constructor returns, and that handle behind the [GatewayLocker] of
    [NewGatewayLayerWithLocker]. *)
Inductive ObjectLayer : Type :=
| BackendLayer (name : string)
| GatewayLocker (inner : ObjectLayer).

(** [NewGatewayLayerWithLocker(gwLayer)] *)
Definition NewGatewayLayerWithLocker (gwLayer : ObjectLayer) : ObjectLayer :=
  GatewayLocker gwLayer.

(** The [Gateway] interface value handed to [StartGateway]. *)
Record Gateway : Type := mkGateway {
  Name : string;
  Production : bool;
  NewGatewayLayer : ObjectLayer + error
}.

(** What the calls into github.com/minio/minio, the environment and the
    command line give in one run of the process. *)
Record Env : Type := mkEnv {
  args_first : string;                   (* ctx.Args().First() *)
  GetTLSConfig : option error;
  GetRootCAs : option error;
  CheckPortAvailability : option error;
  credentials_valid : bool;              (* minio.GlobalActiveCred.IsValid() *)
  MINIO_GATEWAY_SSE : string;            (* env.Get("MINIO_GATEWAY_SSE", "") *)
  etcd_enabled : bool;                   (* minio.GlobalEtcdClient != nil after
                                            minio.LookupConfigs(srvCfg, nil) *)
  GlobalBrowserEnabled : bool;
  RegisterWebRouter : option error;
  ListBuckets_for_notification : option error;  (* newObject.ListBuckets, line 310 *)
  NotificationSys_Init : option error;
  MigrateIAMConfigsEtcdToEncrypted : option error;
  GlobalCacheConfig_Enabled : bool;
  NewServerCacheObjects : option error;
  GlobalDNSConfig_set : bool;            (* minio.GlobalDNSConfig != nil *)
  ListBuckets_for_federation : option error;    (* newObject.ListBuckets, line 345 *)
  Quiet : bool                           (* minio.GlobalCLIContext.Quiet *)
}.

(** The calls and assignments of a run that the properties speak of, in
    program order. *)
Inductive Event : Type :=
| CallSetDeploymentID
| CallShowCommandHelpAndExit
| CallHandleCommonCmdArgs
| CallGetTLSConfig
| CallGetRootCAs
| CallInitHelp
| CallCheckPortAvailability
| CallHandleCommonEnvVars
| SetGlobalGatewaySSE
| CallSetMaxResources
| CallLookupConfigs
| CallRegisterSTSRouter
| CallRegisterAdminRouter (enableConfigOps enableIAMOps : bool)
| CallRegisterHealthCheckRouter
| CallRegisterMetricsRouter
| CallRegisterWebRouter
| CallRegisterAPIRouter
| GoHTTPServerStart                      (* go func() { ... httpServer.Start() }() *)
| SetGlobalHTTPServer
| CallSignalNotify
| CallNewGatewayLayer
| CallHTTPServerShutdown
| CallNewAllSubsystems
| SetGlobalObjectAPI (layer : ObjectLayer)
| CallListBuckets
| CallNotificationSysInit
| CallMigrateIAMConfigsEtcdToEncrypted
| CallIAMSysInitStore
| GoIAMSysInit                           (* go minio.GlobalIAMSys.Init(...) *)
| CallNewServerCacheObjects
| SetGlobalCacheObjectAPI
| CallInitFederatorBackend
| CallVerifyObjectLayerFeatures
| CallCheckUpdate
| LogNotReadyForProduction
| CallPrintGatewayStartupMessage
| CallHandleSignals
| LogFatal (err : error) (msg : string). (* logger.Fatal / a failing FatalIf *)

(** The process: the globals the code assigns or reads, and the events so
    far.  [GlobalEtcdClient] is read three times by [StartGateway] (lines
    246, 251 and 317); it is taken to keep the value it has after
    [LookupConfigs]. *)
Record Process : Type := mkProcess {
  GlobalEtcdClient : bool;               (* minio.GlobalEtcdClient != nil *)
  GlobalIsGateway : bool;
  GlobalHTTPServer : bool;               (* minio.GlobalHTTPServer != nil *)
  GlobalObjectAPI : option ObjectLayer;
  GlobalCacheObjectAPI : bool;           (* minio.GlobalCacheObjectAPI != nil *)
  GlobalGatewaySSE : GatewaySSE.GatewaySSE;
  trace : list Event
}.

(** A computation of the process: the new state and either a value or,
    when the process has exited, its exit status. *)
Definition M (A : Type) : Type := Process -> Process * (A + Z).

Definition ret {A : Type} (a : A) : M A := fun p => (p, inl a).
Definition bind {A B : Type} (m : M A) (f : A -> M B) : M B :=
  fun p =>
    match m p with
    | (p', inl a) => f a p'
    | (p', inr code) => (p', inr code)
    end.
(** [os.Exit(code)] *)
Definition exit {A : Type} (code : Z) : M A := fun p => (p, inr code).

Notation "x <- m ;; k" := (bind m (fun x => k))
  (at level 61, m at next level, right associativity).
Notation "m ;; k" := (bind m (fun _ => k))
  (at level 61, right associativity).

Definition emit (e : Event) : M unit :=
  fun p => (mkProcess (GlobalEtcdClient p) (GlobalIsGateway p) (GlobalHTTPServer p)
              (GlobalObjectAPI p) (GlobalCacheObjectAPI p) (GlobalGatewaySSE p)
              (trace p ++ [e]), inl tt).
Definition get {A : Type} (field : Process -> A) : M A := fun p => (p, inl (field p)).
Definition when (c : bool) (m : M unit) : M unit := if c then m else ret tt.

Definition set_GlobalEtcdClient (v : bool) : M unit :=
  fun p => (mkProcess v (GlobalIsGateway p) (GlobalHTTPServer p)
              (GlobalObjectAPI p) (GlobalCacheObjectAPI p) (GlobalGatewaySSE p)
              (trace p), inl tt).
Definition set_GlobalIsGateway (v : bool) : M unit :=
  fun p => (mkProcess (GlobalEtcdClient p) v (GlobalHTTPServer p)
              (GlobalObjectAPI p) (GlobalCacheObjectAPI p) (GlobalGatewaySSE p)
              (trace p), inl tt).
Definition set_GlobalHTTPServer : M unit :=
  fun p => (mkProcess (GlobalEtcdClient p) (GlobalIsGateway p) true
              (GlobalObjectAPI p) (GlobalCacheObjectAPI p) (GlobalGatewaySSE p)
              (trace p ++ [SetGlobalHTTPServer]), inl tt).
Definition set_GlobalObjectAPI (layer : ObjectLayer) : M unit :=
  fun p => (mkProcess (GlobalEtcdClient p) (GlobalIsGateway p) (GlobalHTTPServer p)
              (Some layer) (GlobalCacheObjectAPI p) (GlobalGatewaySSE p)
              (trace p ++ [SetGlobalObjectAPI layer]), inl tt).
Definition set_GlobalCacheObjectAPI : M unit :=
  fun p => (mkProcess (GlobalEtcdClient p) (GlobalIsGateway p) (GlobalHTTPServer p)
              (GlobalObjectAPI p) true (GlobalGatewaySSE p)
              (trace p ++ [SetGlobalCacheObjectAPI]), inl tt).
Definition set_GlobalGatewaySSE (v : GatewaySSE.GatewaySSE) : M unit :=
  fun p => (mkProcess (GlobalEtcdClient p) (GlobalIsGateway p) (GlobalHTTPServer p)
              (GlobalObjectAPI p) (GlobalCacheObjectAPI p) v
              (trace p ++ [SetGlobalGatewaySSE]), inl tt).

(** [logger.Fatal(err, msg)]: log, then [os.Exit(1)]. *)
Definition Fatal (err : error) (msg : string) : M unit :=
  emit (LogFatal err msg) ;; exit 1.
(** [logger.FatalIf(err, msg)]: nothing for a nil [err]. *)
Definition FatalIf (err : option error) (msg : string) : M unit :=
  match err with
  | None => ret tt
  | Some e => Fatal e msg
  end.

(** The process before [StartGateway]: no global assigned, nothing done. *)
Definition fresh : Process :=
  mkProcess false false false None false GatewaySSE.nil_slice [].

Section StartGateway.
(** [strings.Map(unicode.ToUpper, _)], for [parseGatewaySSE]. *)
Variable Map_unicode_ToUpper : string -> string.
(** The constant [NASBackendGateway] of the package. *)
Variable NASBackendGateway : string.
Variable env : Env.

(** [gatewayHandleEnvVars()], of [cmd/gateway-common.go]. *)
Definition gatewayHandleEnvVars : M unit :=
  (* Handle common env vars. *)
  emit CallHandleCommonEnvVars ;;
  when (negb (credentials_valid env))
    (Fatal (ErrOther "ErrInvalidCredentials")
       "Unable to validate credentials inherited from the shell environment") ;;
  let gwsseVal := MINIO_GATEWAY_SSE env in
  when (negb (gwsseVal =? "")%string)
    (let parsed := GatewaySSE.parseGatewaySSE Map_unicode_ToUpper gwsseVal in
     set_GlobalGatewaySSE (fst parsed) ;;
     match snd parsed with
     | Some e => Fatal e "Unable to parse MINIO_GATEWAY_SSE value"
     | None => ret tt
     end).

(** [StartGateway], up to the server configuration (lines 153 to 239). *)
Definition configure (gw : option Gateway) : M Gateway :=
  emit CallSetDeploymentID ;;
  match gw with
  | None =>
      Fatal (ErrOther "ErrUnexpected") "Gateway implementation not initialized" ;;
      exit 1
  | Some gw =>
      (* Validate if we have access, secret set through environment. *)
      let gatewayName := Name gw in
      when (args_first env =? "help")%string
        (emit CallShowCommandHelpAndExit ;; exit 1) ;;
      (* Handle common command args. *)
      emit CallHandleCommonCmdArgs ;;
      (* Check and load TLS certificates. *)
      emit CallGetTLSConfig ;;
      FatalIf (GetTLSConfig env) "Invalid TLS certificate file" ;;
      (* Check and load Root CAs. *)
      emit CallGetRootCAs ;;
      FatalIf (GetRootCAs env) "Failed to read root CAs" ;;
      (* Initialize all help *)
      emit CallInitHelp ;;
      emit CallCheckPortAvailability ;;
      FatalIf (CheckPortAvailability env) "Unable to start the gateway" ;;
      (* Handle gateway specific env *)
      gatewayHandleEnvVars ;;
      (* Set system resources to maximum. *)
      emit CallSetMaxResources ;;
      (* Set when gateway is enabled *)
      set_GlobalIsGateway true ;;
      (* Override any values from ENVs. *)
      emit CallLookupConfigs ;;
      when (etcd_enabled env) (set_GlobalEtcdClient true) ;;
      ret gw
  end.

(** The router and the listener (lines 244 to 292); the result is
    [enableIAMOps]. *)
Definition route_and_listen : M bool :=
  let enableConfigOps := false in
  etcd <- get GlobalEtcdClient ;;
  (* Enable STS router if etcd is enabled. *)
  when etcd (emit CallRegisterSTSRouter) ;;
  etcd <- get GlobalEtcdClient ;;
  let enableIAMOps := etcd in
  emit (CallRegisterAdminRouter enableConfigOps enableIAMOps) ;;
  emit CallRegisterHealthCheckRouter ;;
  emit CallRegisterMetricsRouter ;;
  (* Register web router when its enabled. *)
  when (GlobalBrowserEnabled env)
    (emit CallRegisterWebRouter ;;
     FatalIf (RegisterWebRouter env) "Unable to configure web browser") ;;
  (* Add API router. *)
  emit CallRegisterAPIRouter ;;
  emit GoHTTPServerStart ;;
  set_GlobalHTTPServer ;;
  emit CallSignalNotify ;;
  ret enableIAMOps.

(** The backend layer, its decoration and its installation (lines 294 to
    307). *)
Definition construct_layer (gw : Gateway) : M ObjectLayer :=
  emit CallNewGatewayLayer ;;
  newObject <-
    match NewGatewayLayer gw with
    | inr err =>
        emit CallHTTPServerShutdown ;;
        Fatal err "Unable to initialize gateway backend" ;;
        exit 1
    | inl newObject => ret newObject
    end ;;
  let newObject := NewGatewayLayerWithLocker newObject in
  (* Calls all New() for all sub-systems. *)
  emit CallNewAllSubsystems ;;
  (* Once endpoints are finalized, initialize the new object api in safe mode. *)
  set_GlobalObjectAPI newObject ;;
  ret newObject.

(** [buckets, err := newObject.ListBuckets(minio.GlobalContext)] with its
    [logger.Fatal(err, "Unable to list buckets")]. *)
Definition list_buckets_or_die (err : option error) : M unit :=
  emit CallListBuckets ;;
  match err with
  | Some err => Fatal err "Unable to list buckets"
  | None => ret tt
  end.

(** The subsystems that depend on the layer (lines 309 to 350). *)
Definition init_subsystems (gatewayName : string) (enableIAMOps : bool) : M unit :=
  when (gatewayName =? NASBackendGateway)%string
    (list_buckets_or_die (ListBuckets_for_notification env) ;;
     emit CallNotificationSysInit ;;
     FatalIf (NotificationSys_Init env) "Unable to initialize notification system") ;;
  etcd <- get GlobalEtcdClient ;;
  when etcd
    ((* Migrating to encrypted backend on etcd should happen before
        initialization of IAM sub-systems *)
     emit CallMigrateIAMConfigsEtcdToEncrypted ;;
     FatalIf (MigrateIAMConfigsEtcdToEncrypted env)
       "Unable to handle encrypted backend for iam and policies") ;;
  when enableIAMOps
    ((* Initialize users credentials and policies in background. *)
     emit CallIAMSysInitStore ;;
     emit GoIAMSysInit) ;;
  when (GlobalCacheConfig_Enabled env)
    ((* initialize the new disk cache objects. *)
     emit CallNewServerCacheObjects ;;
     FatalIf (NewServerCacheObjects env) "Unable to initialize disk caching" ;;
     set_GlobalCacheObjectAPI) ;;
  (* Populate existing buckets to the etcd backend *)
  when (GlobalDNSConfig_set env)
    (list_buckets_or_die (ListBuckets_for_federation env) ;;
     emit CallInitFederatorBackend).

(** The startup message and the wait for a signal (lines 355 to 372). *)
Definition announce (gw : Gateway) : M unit :=
  emit CallVerifyObjectLayerFeatures ;;
  when (negb (Quiet env))
    (emit CallCheckUpdate ;;
     when (negb (Production gw)) (emit LogNotReadyForProduction) ;;
     emit CallPrintGatewayStartupMessage) ;;
  emit CallHandleSignals.

(** [StartGateway(ctx, gw)] *)
Definition StartGateway (gw : option Gateway) : M unit :=
  gw <- configure gw ;;
  enableIAMOps <- route_and_listen ;;
  _ <- construct_layer gw ;;
  init_subsystems (Name gw) enableIAMOps ;;
  announce gw.

(** The run of [StartGateway] in a fresh process. *)
Definition run (gw : option Gateway) : Process * (unit + Z) :=
  StartGateway gw fresh.

End StartGateway.

(** *** The order of the events of a run *)

(** The events of [configure] and [route_and_listen]: what happens before
    the backend's constructor is called. *)
Definition is_setup (ev : Event) : bool :=
  match ev with
  | CallSetDeploymentID | CallShowCommandHelpAndExit | CallHandleCommonCmdArgs
  | CallGetTLSConfig | CallGetRootCAs | CallInitHelp | CallCheckPortAvailability
  | CallHandleCommonEnvVars | SetGlobalGatewaySSE | CallSetMaxResources
  | CallLookupConfigs | CallRegisterSTSRouter | CallRegisterAdminRouter _ _
  | CallRegisterHealthCheckRouter | CallRegisterMetricsRouter | CallRegisterWebRouter
  | CallRegisterAPIRouter | GoHTTPServerStart | SetGlobalHTTPServer | CallSignalNotify
  | LogFatal _ _ => true
  | _ => false
  end.

(** The initialization of the subsystems that depend on the object layer,
    and the installation of the layer itself. *)
Definition is_dependent_init (ev : Event) : bool :=
  match ev with
  | CallNewAllSubsystems | SetGlobalObjectAPI _ | CallListBuckets
  | CallNotificationSysInit | CallMigrateIAMConfigsEtcdToEncrypted
  | CallIAMSysInitStore | GoIAMSysInit | CallNewServerCacheObjects
  | SetGlobalCacheObjectAPI | CallInitFederatorBackend => true
  | _ => false
  end.

(** The two IAM steps: the store, and the asynchronous [Init]. *)
Definition is_iam_init (ev : Event) : bool :=
  match ev with
  | CallIAMSysInitStore | GoIAMSysInit => true
  | _ => false
  end.

(** The migration of the IAM configuration on etcd to the encrypted
    backend. *)
Definition is_migration (ev : Event) : bool :=
  match ev with
  | CallMigrateIAMConfigsEtcdToEncrypted => true
  | _ => false
  end.

(** An event that is neither an IAM step nor the migration. *)
Definition is_neutral (ev : Event) : bool := negb (is_iam_init ev || is_migration ev).

(** In [evs], no IAM step comes before a migration step. *)
Fixpoint migration_first (migrated : bool) (evs : list Event) : bool :=
  match evs with
  | [] => true
  | ev :: rest =>
      (negb (is_iam_init ev) || migrated) &&
      migration_first (migrated || is_migration ev) rest
  end.

(** How far a run gets, and what its trace is made of. *)
Inductive reached (env : Env) (gw : option Gateway) : Process * (unit + Z) -> Prop :=
| exit_in_setup (p : Process) :
    forallb is_setup (trace p) = true ->
    GlobalObjectAPI p = None ->
    reached env gw (p, inr 1%Z)
| exit_in_constructor (p : Process) (g : Gateway) (e : error) (setup : list Event) :
    gw = Some g -> NewGatewayLayer g = inr e ->
    forallb is_setup setup = true -> In GoHTTPServerStart setup ->
    trace p = setup ++ [CallNewGatewayLayer; CallHTTPServerShutdown;
                        LogFatal e "Unable to initialize gateway backend"] ->
    GlobalObjectAPI p = None ->
    reached env gw (p, inr 1%Z)
| past_constructor (p : Process) (r : unit + Z) (g : Gateway) (layer : ObjectLayer)
    (setup subsystems rest : list Event) :
    gw = Some g -> NewGatewayLayer g = inl layer ->
    forallb is_setup setup = true ->
    trace p = setup ++ [CallNewGatewayLayer; CallNewAllSubsystems;
                        SetGlobalObjectAPI (NewGatewayLayerWithLocker layer)]
                    ++ subsystems ++ rest ->
    migration_first false subsystems = true ->
    (existsb is_iam_init subsystems = true ->
     MigrateIAMConfigsEtcdToEncrypted env = None) ->
    (r = inl tt -> etcd_enabled env = true ->
     exists pre post,
       subsystems = pre ++ [CallMigrateIAMConfigsEtcdToEncrypted; CallIAMSysInitStore;
                            GoIAMSysInit] ++ post) ->
    forallb is_neutral rest = true ->
    GlobalObjectAPI p = Some (NewGatewayLayerWithLocker layer) ->
    (r = inl tt \/ r = inr 1%Z) ->
    reached env gw (p, r).

(** A gateway whose constructor fails, one whose constructor succeeds,
    and an environment with etcd configured. *)
Definition failing_gateway : Gateway :=
  mkGateway "s3" true (inr (ErrOther "connection refused")).
Definition s3_gateway : Gateway :=
  mkGateway "s3" true (inl (BackendLayer "s3")).
Definition etcd_env : Env :=
  mkEnv "" None None None true "S3" true false None None None None false None false None
    true.

(** *** The stages of a run *)

Definition is_None {A : Type} (o : option A) : bool :=
  match o with
  | None => true
  | Some _ => false
  end.

(** What a run that exits ends with: a fatal log, or the help. *)
Definition is_exit_notice (ev : Event) : bool :=
  match ev with
  | LogFatal _ _ | CallShowCommandHelpAndExit => true
  | _ => false
  end.

(** The events of [configure], of [route_and_listen], of
    [construct_layer], of [init_subsystems] and of [announce]. *)
Definition is_configure_step (ev : Event) : bool :=
  match ev with
  | CallSetDeploymentID | CallShowCommandHelpAndExit | CallHandleCommonCmdArgs
  | CallGetTLSConfig | CallGetRootCAs | CallInitHelp | CallCheckPortAvailability
  | CallHandleCommonEnvVars | SetGlobalGatewaySSE | CallSetMaxResources
  | CallLookupConfigs | LogFatal _ _ => true
  | _ => false
  end.

Definition is_route_step (ev : Event) : bool :=
  match ev with
  | CallRegisterSTSRouter | CallRegisterAdminRouter _ _
  | CallRegisterHealthCheckRouter | CallRegisterMetricsRouter | CallRegisterWebRouter
  | CallRegisterAPIRouter | GoHTTPServerStart | SetGlobalHTTPServer | CallSignalNotify
  | LogFatal _ _ => true
  | _ => false
  end.

Definition is_constructor_step (ev : Event) : bool :=
  match ev with
  | CallNewGatewayLayer | CallHTTPServerShutdown | CallNewAllSubsystems
  | SetGlobalObjectAPI _ | LogFatal _ _ => true
  | _ => false
  end.

Definition is_subsystem_step (ev : Event) : bool :=
  match ev with
  | CallListBuckets | CallNotificationSysInit | CallMigrateIAMConfigsEtcdToEncrypted
  | CallIAMSysInitStore | GoIAMSysInit | CallNewServerCacheObjects
  | SetGlobalCacheObjectAPI | CallInitFederatorBackend | LogFatal _ _ => true
  | _ => false
  end.

Definition is_announce_step (ev : Event) : bool :=
  match ev with
  | CallVerifyObjectLayerFeatures | CallCheckUpdate | LogNotReadyForProduction
  | CallPrintGatewayStartupMessage | CallHandleSignals => true
  | _ => false
  end.

Section ComesUp.
Variable Map_unicode_ToUpper : string -> string.
Variable NASBackendGateway : string.
Variable env : Env.

(** What [configure] needs to return: no request for help, the
    certificates, the root CAs and the port in order, valid credentials, and a
    [MINIO_GATEWAY_SSE] that is unset or parses. *)
Definition configure_ok : bool :=
  negb (args_first env =? "help")%string
  && is_None (GetTLSConfig env)
  && is_None (GetRootCAs env)
  && is_None (CheckPortAvailability env)
  && credentials_valid env
  && ((MINIO_GATEWAY_SSE env =? "")%string
      || is_None (snd (GatewaySSE.parseGatewaySSE Map_unicode_ToUpper
                         (MINIO_GATEWAY_SSE env)))).

(** What [route_and_listen] needs: the web router, when the browser is
    enabled. *)
Definition route_ok : bool :=
  negb (GlobalBrowserEnabled env) || is_None (RegisterWebRouter env).

(** What [init_subsystems] needs, [etcd] saying whether there is an etcd
    client. *)
Definition subsystems_ok (gatewayName : string) (etcd : bool) : bool :=
  (negb (gatewayName =? NASBackendGateway)%string
   || (is_None (ListBuckets_for_notification env) && is_None (NotificationSys_Init env)))
  && (negb etcd || is_None (MigrateIAMConfigsEtcdToEncrypted env))
  && (negb (GlobalCacheConfig_Enabled env) || is_None (NewServerCacheObjects env))
  && (negb (GlobalDNSConfig_set env) || is_None (ListBuckets_for_federation env)).

(** What a gateway needs to come up. *)
Definition comes_up (gw : option Gateway) : bool :=
  match gw with
  | None => false
  | Some g =>
      configure_ok && route_ok
      && match NewGatewayLayer g with inl _ => true | inr _ => false end
      && subsystems_ok (Name g) (etcd_enabled env)
  end.

(** The banner of [announce]. *)
Definition banner (g : Gateway) : list Event :=
  if Quiet env then []
  else CallCheckUpdate ::
       (if Production g then [] else [LogNotReadyForProduction]) ++
       [CallPrintGatewayStartupMessage].

(** What [configure] does, from [p] to [p'], with the events [evs] and
    the result [r]. *)
Definition configured (gw : option Gateway) (p p' : Process) (r : Gateway + Z)
  (evs : list Event) : Prop :=
  trace p' = trace p ++ evs /\
  forallb is_configure_step evs = true /\
  r = match gw with
      | Some g => if configure_ok then inl g else inr 1%Z
      | None => inr 1%Z
      end /\
  (forall c, r = inr c -> is_exit_notice (last evs CallHandleSignals) = true) /\
  GlobalObjectAPI p' = GlobalObjectAPI p /\
  GlobalHTTPServer p' = GlobalHTTPServer p /\
  GlobalCacheObjectAPI p' = GlobalCacheObjectAPI p /\
  (GlobalGatewaySSE p' = GlobalGatewaySSE p \/
   GlobalGatewaySSE p' =
     fst (GatewaySSE.parseGatewaySSE Map_unicode_ToUpper (MINIO_GATEWAY_SSE env))) /\
  (In CallSetMaxResources evs ->
   ((MINIO_GATEWAY_SSE env =? "")%string = true \/
    snd (GatewaySSE.parseGatewaySSE Map_unicode_ToUpper (MINIO_GATEWAY_SSE env)) = None) /\
   GlobalGatewaySSE p' =
     (if (MINIO_GATEWAY_SSE env =? "")%string then GlobalGatewaySSE p
      else fst (GatewaySSE.parseGatewaySSE Map_unicode_ToUpper (MINIO_GATEWAY_SSE env)))) /\
  (forall g, r = inl g ->
     In CallSetMaxResources evs /\
     GlobalIsGateway p' = true /\
     GlobalEtcdClient p' = (etcd_enabled env || GlobalEtcdClient p)%bool).

(** What [route_and_listen] does. *)
Definition routed (p p' : Process) (r : bool + Z) (evs : list Event) : Prop :=
  trace p' = trace p ++ evs /\
  forallb is_route_step evs = true /\
  r = (if route_ok then inl (GlobalEtcdClient p) else inr 1%Z) /\
  (forall c, r = inr c -> is_exit_notice (last evs CallHandleSignals) = true) /\
  GlobalObjectAPI p' = GlobalObjectAPI p /\
  GlobalCacheObjectAPI p' = GlobalCacheObjectAPI p /\
  GlobalGatewaySSE p' = GlobalGatewaySSE p /\
  GlobalEtcdClient p' = GlobalEtcdClient p /\
  GlobalIsGateway p' = GlobalIsGateway p /\
  (forall c i, In (CallRegisterAdminRouter c i) evs -> c = false /\ i = GlobalEtcdClient p) /\
  (In CallRegisterSTSRouter evs -> GlobalEtcdClient p = true) /\
  (In CallRegisterWebRouter evs -> GlobalBrowserEnabled env = true) /\
  (In GoHTTPServerStart evs -> exists b, r = inl b) /\
  (forall c, r = inr c -> GlobalHTTPServer p' = GlobalHTTPServer p) /\
  (forall b, r = inl b ->
     In GoHTTPServerStart evs /\ GlobalHTTPServer p' = true /\
     (GlobalEtcdClient p = true -> In CallRegisterSTSRouter evs) /\
     In (CallRegisterAdminRouter false (GlobalEtcdClient p)) evs).

(** What [construct_layer] does. *)
Definition constructed (g : Gateway) (p p' : Process) (r : ObjectLayer + Z)
  (evs : list Event) : Prop :=
  trace p' = trace p ++ evs /\
  forallb is_constructor_step evs = true /\
  GlobalHTTPServer p' = GlobalHTTPServer p /\
  GlobalCacheObjectAPI p' = GlobalCacheObjectAPI p /\
  GlobalGatewaySSE p' = GlobalGatewaySSE p /\
  GlobalEtcdClient p' = GlobalEtcdClient p /\
  GlobalIsGateway p' = GlobalIsGateway p /\
  match NewGatewayLayer g with
  | inr e =>
      r = inr 1%Z /\
      evs = [CallNewGatewayLayer; CallHTTPServerShutdown;
             LogFatal e "Unable to initialize gateway backend"] /\
      GlobalObjectAPI p' = GlobalObjectAPI p
  | inl layer =>
      r = inl (NewGatewayLayerWithLocker layer) /\
      evs = [CallNewGatewayLayer; CallNewAllSubsystems;
             SetGlobalObjectAPI (NewGatewayLayerWithLocker layer)] /\
      GlobalObjectAPI p' = Some (NewGatewayLayerWithLocker layer)
  end.

(** What [init_subsystems] does, entered with [enableIAMOps] equal to the
    presence of the etcd client. *)
Definition initialized (gatewayName : string) (p p' : Process) (r : unit + Z)
  (evs : list Event) : Prop :=
  trace p' = trace p ++ evs /\
  forallb is_subsystem_step evs = true /\
  r = (if subsystems_ok gatewayName (GlobalEtcdClient p) then inl tt else inr 1%Z) /\
  (forall c, r = inr c -> is_exit_notice (last evs CallHandleSignals) = true) /\
  GlobalObjectAPI p' = GlobalObjectAPI p /\
  GlobalHTTPServer p' = GlobalHTTPServer p /\
  GlobalGatewaySSE p' = GlobalGatewaySSE p /\
  GlobalEtcdClient p' = GlobalEtcdClient p /\
  GlobalIsGateway p' = GlobalIsGateway p /\
  (In CallNotificationSysInit evs ->
   (gatewayName =? NASBackendGateway)%string = true /\
   ListBuckets_for_notification env = None) /\
  (In CallInitFederatorBackend evs ->
   GlobalDNSConfig_set env = true /\ ListBuckets_for_federation env = None) /\
  (In CallMigrateIAMConfigsEtcdToEncrypted evs -> GlobalEtcdClient p = true) /\
  (In GoIAMSysInit evs -> GlobalEtcdClient p = true) /\
  (In CallIAMSysInitStore evs -> GlobalEtcdClient p = true) /\
  (In SetGlobalCacheObjectAPI evs ->
   GlobalCacheConfig_Enabled env = true /\ NewServerCacheObjects env = None) /\
  (GlobalCacheObjectAPI p' = true ->
   GlobalCacheObjectAPI p = true \/ In SetGlobalCacheObjectAPI evs) /\
  (r = inl tt ->
   ((gatewayName =? NASBackendGateway)%string = true -> In CallNotificationSysInit evs) /\
   (GlobalDNSConfig_set env = true -> In CallInitFederatorBackend evs) /\
   (GlobalCacheConfig_Enabled env = true ->
    In SetGlobalCacheObjectAPI evs /\ GlobalCacheObjectAPI p' = true) /\
   (GlobalCacheConfig_Enabled env = false ->
    GlobalCacheObjectAPI p' = GlobalCacheObjectAPI p)).

(** What [announce] does. *)
Definition announced (g : Gateway) (p p' : Process) (r : unit + Z)
  (evs : list Event) : Prop :=
  trace p' = trace p ++ evs /\
  forallb is_announce_step evs = true /\
  evs = CallVerifyObjectLayerFeatures :: banner g ++ [CallHandleSignals] /\
  r = inl tt /\
  GlobalObjectAPI p' = GlobalObjectAPI p /\
  GlobalHTTPServer p' = GlobalHTTPServer p /\
  GlobalCacheObjectAPI p' = GlobalCacheObjectAPI p /\
  GlobalGatewaySSE p' = GlobalGatewaySSE p /\
  GlobalEtcdClient p' = GlobalEtcdClient p /\
  GlobalIsGateway p' = GlobalIsGateway p.

(** The stages a run went through, [p'] being its last state and [r] its
    result. *)
Inductive staged (gw : option Gateway) : Process * (unit + Z) -> Prop :=
| stop_in_configure (p1 : Process) (c : Z) (e1 : list Event) :
    configured gw fresh p1 (inr c) e1 ->
    staged gw (p1, inr c)
| stop_in_route (g : Gateway) (p1 p2 : Process) (c : Z) (e1 e2 : list Event) :
    configured gw fresh p1 (inl g) e1 ->
    routed p1 p2 (inr c) e2 ->
    staged gw (p2, inr c)
| stop_in_constructor (g : Gateway) (p1 p2 p3 : Process) (b : bool) (c : Z)
    (e1 e2 e3 : list Event) :
    configured gw fresh p1 (inl g) e1 ->
    routed p1 p2 (inl b) e2 ->
    constructed g p2 p3 (inr c) e3 ->
    staged gw (p3, inr c)
| stop_in_subsystems (g : Gateway) (p1 p2 p3 p4 : Process) (b : bool)
    (layer : ObjectLayer) (c : Z) (e1 e2 e3 e4 : list Event) :
    configured gw fresh p1 (inl g) e1 ->
    routed p1 p2 (inl b) e2 ->
    constructed g p2 p3 (inl layer) e3 ->
    initialized (Name g) p3 p4 (inr c) e4 ->
    staged gw (p4, inr c)
| serving (g : Gateway) (p1 p2 p3 p4 p5 : Process) (b : bool)
    (layer : ObjectLayer) (r : unit + Z) (e1 e2 e3 e4 e5 : list Event) :
    configured gw fresh p1 (inl g) e1 ->
    routed p1 p2 (inl b) e2 ->
    constructed g p2 p3 (inl layer) e3 ->
    initialized (Name g) p3 p4 (inl tt) e4 ->
    announced g p4 p5 r e5 ->
    staged gw (p5, r).

End ComesUp.

End Bootstrap.

(* ===================================================================== *)
(** ** [cmd/gateway-main.go]: [RegisterGatewayCommand] and
       [ValidateGatewayArguments]; [cmd/main.go]: [GlobalFlags] *)
(* ===================================================================== *)

Module Registry.
Local Open Scope list_scope.

(** A [cli.Flag]: the two kinds the package declares. *)
Inductive Flag : Type :=
| StringFlag (Name Value Usage : string)
| BoolFlag (Name Usage : string).

Definition flag_Name (f : Flag) : string :=
  match f with
  | StringFlag n _ _ => n
  | BoolFlag n _ => n
  end.

(** A [cli.Command]: the name, which [newApp] reads, the flags, which
    [RegisterGatewayCommand] extends, and the usage line, which stands for
    the fields that are copied as they are. *)
Record Command : Type := mkCommand {
  Name : string;
  Usage : string;
  Flags : list Flag
}.

Section GlobalFlags.
(** [minio.GlobalMinioDefaultPort] and [minio.GlobalCertsDir.Get()], of
    github.com/minio/minio/cmd. *)
Variable GlobalMinioDefaultPort : string.
Variable GlobalCertsDir_Get : string.

(** [GlobalFlags], of [cmd/main.go]. *)
Definition GlobalFlags : list Flag :=
  [ StringFlag "address" (":" ++ GlobalMinioDefaultPort)%string
      "bind to a specific ADDRESS:PORT, ADDRESS can be an IP or hostname";
    StringFlag "certs-dir, S" GlobalCertsDir_Get "path to certs directory";
    BoolFlag "quiet" "disable startup information";
    BoolFlag "anonymous" "hide sensitive information from logging";
    BoolFlag "json" "output server logs and startup information in json format" ].

(** [RegisterGatewayCommand(cmd)], the package variable [Commands] passed
    in and out.  [cmd] is the callee's copy of the command. *)
Definition RegisterGatewayCommand (cmd : Command) (Commands : list Command)
  : list Command * option error :=
  let cmd := mkCommand (Name cmd) (Usage cmd) (Flags cmd ++ GlobalFlags) in
  let Commands := Commands ++ [cmd] in
  (Commands, None).

(** The command with the global flags behind its own. *)
Definition registered (cmd : Command) : Command :=
  mkCommand (Name cmd) (Usage cmd) (Flags cmd ++ GlobalFlags).

(** The calls [RegisterGatewayCommand(cmd)] of the gateway packages, one
    after the other; the result holds the first error, if any. *)
Fixpoint register_all (cmds : list Command) (Commands : list Command)
  : list Command * option error :=
  match cmds with
  | [] => (Commands, None)
  | cmd :: rest =>
      match RegisterGatewayCommand cmd Commands with
      | (Commands, None) => register_all rest Commands
      | (Commands, Some err) => (Commands, Some err)
      end
  end.
End GlobalFlags.

Section Validate.
(** [minio.CheckLocalServerAddr] and [minio.SameLocalAddrs], of
    github.com/minio/minio/cmd. *)
Variable CheckLocalServerAddr : string -> option error.
Variable SameLocalAddrs : string -> string -> bool * option error.

(** [ValidateGatewayArguments(serverAddr, endpointAddr)] *)
Definition ValidateGatewayArguments (serverAddr endpointAddr : string) : option error :=
  match CheckLocalServerAddr serverAddr with
  | Some err => Some err
  | None =>
      if negb (endpointAddr =? "")%string then
        (* Reject the endpoint if it points to the gateway handler itself. *)
        let (sameTarget, err) := SameLocalAddrs endpointAddr serverAddr in
        match err with
        | Some err => Some err
        | None =>
            if sameTarget then Some (Errorf "endpoint points to the local gateway")
            else None
        end
      else None
  end.
End Validate.

End Registry.

(* ===================================================================== *)
(** ** [cmd/gateway-main.go], second part: the startup message *)
(* ===================================================================== *)

Module StartupMessage.
Import GoStrings.
Local Open Scope list_scope.

(** [auth.Credentials], with the two fields that are printed. *)
Record Credentials : Type := mkCredentials {
  AccessKey : string;
  SecretKey : string
}.

(** What the two functions do, in order: the lines they hand to
    [minio.LogStartupMessage], and their calls of the printers of
    github.com/minio/minio/cmd. *)
Inductive Output : Type :=
| LogStartupMessage (msg : string)
| CallPrintCacheStorageInfo
| CallPrintEventNotifiers
| CallPrintCLIAccessMsg (endPoint alias : string)
| CallPrintObjectAPIMsg
| CallPrintCertificateMsg.

(** A run-time panic of Go. *)
Inductive panic : Type :=
| index_out_of_range (index length : nat).

Section Print.
(** [color.Blue] and [color.Bold], of github.com/minio/minio/pkg/color. *)
Variables Blue Bold : string -> string.
(** [fmt.Sprintf(minio.GetFormatStr(len(s), 3), s)] *)
Variable padded : string -> string.
(** [minio.StripStandardPorts] *)
Variable StripStandardPorts : list string -> list string.
(** [color.IsTerminal()], [minio.GlobalCLIContext.Anonymous],
    [minio.GlobalIsTLS], [minio.GlobalBrowserEnabled], and whether
    [minio.NewCachedObjectLayerFn()] is not nil. *)
Variables IsTerminal Anonymous GlobalIsTLS GlobalBrowserEnabled cacheAPI_set : bool.
(** [minio.GlobalActiveCred] *)
Variable GlobalActiveCred : Credentials.

(** [printGatewayCommonMsg(apiEndpoints)] *)
Definition printGatewayCommonMsg (apiEndpoints : list string) : list Output :=
  (* Get saved credentials. *)
  let cred := GlobalActiveCred in
  let apiEndpointStr := Join apiEndpoints "  " in
  (* Colorize the message and print. *)
  [LogStartupMessage (Blue "Endpoint: " ++ Bold (apiEndpointStr ++ " "))%string]
  ++ (if IsTerminal && negb Anonymous then
        [LogStartupMessage (Blue "RootUser: " ++ Bold (AccessKey cred ++ " "))%string;
         LogStartupMessage (Blue "RootPass: " ++ Bold (SecretKey cred ++ " "))%string]
      else [])
  ++ [CallPrintEventNotifiers]
  ++ (if GlobalBrowserEnabled then
        [LogStartupMessage (Blue (String "010" "Browser Access:"));
         LogStartupMessage (padded apiEndpointStr)]
      else []).

(** [printGatewayStartupMessage(apiEndPoints, backendType)]: what was
    done, and the panic that ended it, if any. *)
Definition printGatewayStartupMessage (apiEndPoints : list string) (backendType : string)
  : list Output * option panic :=
  let strippedAPIEndpoints := StripStandardPorts apiEndPoints in
  (* If cache layer is enabled, print cache capacity. *)
  let out := if cacheAPI_set then [CallPrintCacheStorageInfo] else [] in
  (* Prints credential. *)
  let out := out ++ printGatewayCommonMsg strippedAPIEndpoints in
  (* Prints `mc` cli configuration message chooses first endpoint as default. *)
  match strippedAPIEndpoints with
  | [] => (out, Some (index_out_of_range 0 0))
  | first :: _ =>
      let out := out ++ [CallPrintCLIAccessMsg first ("my" ++ backendType)%string] in
      (* Prints documentation message. *)
      let out := out ++ [CallPrintObjectAPIMsg] in
      (* SSL is configured reads certification chain, prints authority and expiry. *)
      let out :=
        out ++ (if IsTerminal && negb Anonymous then
                  if GlobalIsTLS then [CallPrintCertificateMsg] else []
                else []) in
      (out, None)
  end.
End Print.

End StartupMessage.

(* ===================================================================== *)
(** * Part II: the properties *)
(* ===================================================================== *)

(* ===================================================================== *)
(** ** Slicing, [Index] and [Split] *)
(* ===================================================================== *)

Module GoStringsFacts.
Import GoStrings.

Lemma slice_to_from (n : nat) (s : string) : slice_to n s ++ slice_from n s = s.
Proof.
  revert s; induction n as [|n IH]; intros [|c s]; simpl; auto.
  now rewrite IH.
Qed.

Lemma slice_from_length (n : nat) (s : string) :
  String.length (slice_from n s) = String.length s - n.
Proof.
  revert s; induction n as [|n IH]; intros [|c s]; simpl; auto.
Qed.

Lemma slice_from_app (a b : string) : slice_from (String.length a) (a ++ b) = b.
Proof. induction a as [|c a IH]; simpl; auto. Qed.

Lemma slice_to_app (a b : string) : slice_to (String.length a) (a ++ b) = a.
Proof. induction a as [|c a IH]; simpl; auto. now rewrite IH. Qed.

Lemma append_length (a b : string) :
  String.length (a ++ b) = String.length a + String.length b.
Proof. induction a as [|c a IH]; simpl; auto. Qed.

Lemma append_assoc (a b c : string) : (a ++ b) ++ c = a ++ b ++ c.
Proof. induction a as [|x a IH]; simpl; auto. now rewrite IH. Qed.

(** [prefix p s] holds exactly when [s] starts with [p]. *)
Lemma prefix_app (p s : string) :
  prefix p s = true <-> exists b, s = p ++ b.
Proof.
  revert s; induction p as [|c p IH]; intros s; simpl.
  - split; [intros _; now exists s|destruct s; auto].
  - destruct s as [|d s].
    + split; [discriminate|intros [b Hb]; discriminate].
    + simpl. destruct (ascii_dec c d) as [->|Hne].
      * split.
        -- intros H. apply IH in H. destruct H as [b Hb]. exists b. now rewrite Hb.
        -- intros [b Hb]. apply IH. exists b. now injection Hb.
      * split; [discriminate|intros [b Hb]; injection Hb; intros; congruence].
Qed.

Lemma Index_cons (c : ascii) (s sep : string) :
  Index (String c s) sep =
  if prefix sep (String c s) then Some 0
  else match Index s sep with Some n => Some (S n) | None => None end.
Proof. reflexivity. Qed.

Lemma Index_Some_split (s sep : string) (m : nat) :
  Index s sep = Some m ->
  s = slice_to m s ++ sep ++ slice_from (m + String.length sep) s.
Proof.
  revert m; induction s as [|c s IH]; intros m.
  - unfold Index; simpl. destruct sep; [|discriminate].
    intros [= <-]. reflexivity.
  - rewrite Index_cons. destruct (prefix sep (String c s)) eqn:Hp.
    + intros [= <-]. apply prefix_app in Hp. destruct Hp as [b Hb].
      simpl slice_to. simpl "++" at 1. rewrite Hb. now rewrite slice_from_app.
    + destruct (Index s sep) as [n|] eqn:Hi; [|discriminate].
      intros [= <-]. simpl. f_equal. now apply IH.
Qed.

Lemma Index_Some_bound (s sep : string) (m : nat) :
  Index s sep = Some m -> m + String.length sep <= String.length s.
Proof.
  intros H. pose proof (Index_Some_split _ _ _ H) as E.
  apply (f_equal String.length) in E. rewrite !append_length in E.
  assert (String.length (slice_to m s) = m \/ String.length s < m + 0) as [Hm|Hm].
  { clear. revert s; induction m as [|m IH]; intros [|c s]; simpl; auto.
    - right. lia.
    - destruct (IH s); [left; lia|right; lia]. }
  - lia.
  - exfalso. revert Hm H. clear. revert m. induction s as [|c s IH]; intros m.
    + unfold Index; simpl. destruct sep; [intros ? [= <-]; simpl in *; lia|discriminate].
    + rewrite Index_cons. destruct (prefix sep (String c s)).
      * intros ? [= <-]; simpl in *; lia.
      * destruct (Index s sep) eqn:E; [|discriminate]. intros ? [= <-].
        apply (IH n); auto. simpl in *. lia.
Qed.

Lemma Index_Some_Contains (s sep : string) (m : nat) :
  Index s sep = Some m -> Contains s sep.
Proof.
  intros H. exists (slice_to m s), (slice_from (m + String.length sep) s).
  now apply Index_Some_split.
Qed.

Lemma Index_None_not_Contains (s sep : string) :
  Index s sep = None -> ~ Contains s sep.
Proof.
  induction s as [|c s IH].
  - unfold Index; simpl. destruct sep; [discriminate|].
    intros _ [x [y Hab]]. destruct x; discriminate.
  - rewrite Index_cons. destruct (prefix sep (String c s)) eqn:Hp; [discriminate|].
    destruct (Index s sep) eqn:Hi; [discriminate|]. intros _ [a [b Hab]].
    destruct a as [|d a].
    + simpl in Hab. assert (prefix sep (String c s) = true); [|congruence].
      apply prefix_app. now exists b.
    + simpl in Hab. injection Hab as _ Hs. apply IH; auto. now exists a, b.
Qed.

(** [Index] finds [sep] exactly when [s] contains it. *)
Lemma Index_Contains (s sep : string) :
  (exists m, Index s sep = Some m) <-> Contains s sep.
Proof.
  split.
  - intros [m H]. eapply Index_Some_Contains; eauto.
  - intros H. destruct (Index s sep) eqn:E; [eauto|].
    now apply Index_None_not_Contains in E.
Qed.

Lemma genSplit_loop_nonempty (n : nat) (s sep : string) :
  genSplit_loop n s sep <> [].
Proof. destruct n; simpl; [discriminate|]. destruct (Index s sep); discriminate. Qed.

Lemma Join_cons (e : string) (rest : list string) (sep : string) :
  rest <> [] -> Join (e :: rest) sep = e ++ sep ++ Join rest sep.
Proof. destruct rest; [congruence|reflexivity]. Qed.

(** Joining the pieces with [sep] gives [s] back, whatever the bound. *)
Lemma Join_genSplit_loop (n : nat) (s sep : string) :
  Join (genSplit_loop n s sep) sep = s.
Proof.
  revert s; induction n as [|n IH]; intros s; simpl; auto.
  destruct (Index s sep) as [m|] eqn:Hi; auto.
  rewrite Join_cons by apply genSplit_loop_nonempty.
  rewrite IH. symmetry. now apply Index_Some_split.
Qed.

Lemma Join_Split (s sep : string) : Join (Split s sep) sep = s.
Proof. apply Join_genSplit_loop. Qed.

Lemma Split_not_found (s sep : string) :
  Index s sep = None -> Split s sep = [s].
Proof.
  intros H. unfold Split, Count.
  destruct (String.length s); simpl; rewrite ?H; reflexivity.
Qed.

Lemma Split_found (s sep : string) (m : nat) :
  sep <> EmptyString -> Index s sep = Some m ->
  exists n, Split s sep =
            slice_to m s :: genSplit_loop n (slice_from (m + String.length sep) s) sep.
Proof.
  intros Hsep H. unfold Split, Count.
  pose proof (Index_Some_bound _ _ _ H) as Hb.
  assert (1 <= String.length sep) by (destruct sep; simpl; [congruence|lia]).
  destruct (String.length s) as [|k] eqn:Hk; [lia|].
  simpl Count_loop. rewrite H.
  set (c := Count_loop _ _ _).
  replace (Nat.min (S c + 1) (S k + 1) - 1) with (S (Nat.min c k)) by lia.
  simpl. rewrite H. eauto.
Qed.

(** [len(strings.Split(s, sep)) > 1] says that [s] contains [sep]. *)
Lemma Split_length_Contains (s sep : string) :
  sep <> EmptyString ->
  (1 <? List.length (Split s sep))%nat = true <-> Contains s sep.
Proof.
  intros Hsep. rewrite <- Index_Contains. split.
  - intros H. destruct (Index s sep) eqn:E; [eauto|].
    rewrite (Split_not_found _ _ E) in H. discriminate.
  - intros [m H]. destruct (Split_found _ _ _ Hsep H) as [n ->].
    simpl. pose proof (genSplit_loop_nonempty n (slice_from (m + String.length sep) s) sep).
    destruct (genSplit_loop _ _ _); [congruence|reflexivity].
Qed.

Lemma Count_loop_le (f : nat) (s sep : string) : Count_loop f s sep <= f.
Proof.
  revert s; induction f as [|f IH]; intros s; simpl; auto.
  destruct (Index s sep); [|lia]. specialize (IH (slice_from (n + String.length sep) s)). lia.
Qed.

(** With the bound [Count] computes, the loop of [genSplit] stops on its
    [break], as it does with any larger bound. *)
Lemma genSplit_loop_Count (f : nat) (s sep : string) :
  sep <> EmptyString -> String.length s <= f ->
  genSplit_loop (Count_loop f s sep) s sep = genSplit_loop f s sep.
Proof.
  intros Hsep. revert s; induction f as [|f IH]; intros s Hf; simpl; auto.
  destruct (Index s sep) as [m|] eqn:Hi; simpl; rewrite ?Hi; auto.
  f_equal. apply IH. rewrite slice_from_length.
  pose proof (Index_Some_bound _ _ _ Hi).
  destruct sep; [congruence|simpl in *; lia].
Qed.

Lemma Split_unfold (s sep : string) :
  sep <> EmptyString -> Split s sep = genSplit_loop (String.length s) s sep.
Proof.
  intros Hsep. unfold Split, Count.
  pose proof (Count_loop_le (String.length s) s sep).
  replace (Nat.min _ _ - 1) with (Count_loop (String.length s) s sep) by lia.
  now apply genSplit_loop_Count.
Qed.

Lemma prefix_slice_to (p s : string) (k : nat) :
  prefix p (slice_to k s) = true -> prefix p s = true.
Proof.
  rewrite !prefix_app. intros [b Hb]. exists (b ++ slice_from k s).
  rewrite <- append_assoc, <- Hb. symmetry. apply slice_to_from.
Qed.

(** The text before the first occurrence of [sep] holds no [sep]. *)
Lemma Index_slice_to (s sep : string) (m : nat) :
  sep <> EmptyString -> Index s sep = Some m -> Index (slice_to m s) sep = None.
Proof.
  intros Hsep. revert m; induction s as [|c s IH]; intros m.
  - unfold Index; simpl. destruct sep; [congruence|discriminate].
  - rewrite Index_cons. destruct (prefix sep (String c s)) eqn:Hp.
    + intros [= <-]. unfold Index; simpl. destruct sep; congruence.
    + destruct (Index s sep) as [n|] eqn:Hi; [|discriminate]. intros [= <-].
      simpl slice_to. rewrite Index_cons.
      destruct (prefix sep (String c (slice_to n s))) eqn:Hq.
      * apply (prefix_slice_to sep (String c s) (S n)) in Hq. congruence.
      * now rewrite (IH n).
Qed.

(** No piece of [Split s sep] contains [sep]. *)
Lemma Split_pieces (s sep : string) :
  sep <> EmptyString -> Forall (fun p => ~ Contains p sep) (Split s sep).
Proof.
  intros Hsep. rewrite Split_unfold by assumption.
  assert (forall f s, String.length s <= f ->
            Forall (fun p => ~ Contains p sep) (genSplit_loop f s sep)) as H.
  { clear s. induction f as [|f IH]; intros s Hf; simpl.
    - constructor; [|constructor]. apply Index_None_not_Contains.
      destruct s; [|simpl in Hf; lia]. unfold Index; simpl. destruct sep; congruence.
    - destruct (Index s sep) as [m|] eqn:Hi.
      + constructor.
        * apply Index_None_not_Contains. now apply Index_slice_to.
        * apply IH. rewrite slice_from_length.
          pose proof (Index_Some_bound _ _ _ Hi).
          destruct sep; [congruence|simpl in *; lia].
      + constructor; [|constructor]. now apply Index_None_not_Contains. }
  now apply H.
Qed.

(** *** [Split] and [Join], byte maps, and [ToUpper] on ASCII text *)

(** With a bound of at least [len(s)], the loop of [genSplit] stops on
    its [break]: a larger bound changes nothing. *)
Lemma genSplit_loop_fuel (sep : string) :
  sep <> EmptyString ->
  forall f f' s, String.length s <= f -> String.length s <= f' ->
    genSplit_loop f s sep = genSplit_loop f' s sep.
Proof.
  intros Hsep. induction f as [|f IH]; intros f' s Hf Hf'.
  - destruct s; [|simpl in Hf; lia].
    destruct f'; simpl; auto. unfold Index; simpl. destruct sep; congruence.
  - destruct f' as [|f'].
    + destruct s; [|simpl in Hf'; lia]. simpl. unfold Index; simpl.
      destruct sep; congruence.
    + simpl. destruct (Index s sep) as [m|] eqn:Hi; auto. f_equal.
      pose proof (Index_Some_bound _ _ _ Hi).
      assert (1 <= String.length sep) by (destruct sep; simpl; [congruence|lia]).
      apply IH; rewrite slice_from_length; lia.
Qed.

Lemma prefix_byte (c d : ascii) (s : string) :
  prefix (String c EmptyString) (String d s) = (c =? d)%char.
Proof.
  simpl. destruct (ascii_dec c d) as [->|Hne].
  - rewrite Ascii.eqb_refl. now destruct s.
  - apply Ascii.eqb_neq in Hne. now rewrite Hne.
Qed.

(** The first [c] of [t ++ c ++ r] is the one after [t], when [t] holds
    none. *)
Lemma Index_byte_after (c : ascii) (t r : string) :
  lacks c t = true ->
  Index (t ++ String c r) (String c EmptyString) = Some (String.length t).
Proof.
  unfold lacks. induction t as [|d t IH]; intros H.
  - cbn [append]. rewrite Index_cons, prefix_byte, Ascii.eqb_refl. reflexivity.
  - cbn [append]. cbn [any_byte] in H. apply negb_true_iff, orb_false_elim in H.
    destruct H as [Hd Ht]. rewrite Index_cons, prefix_byte, Hd, IH; [reflexivity|].
    now rewrite Ht.
Qed.

Lemma Index_byte_none (c : ascii) (t : string) :
  lacks c t = true -> Index t (String c EmptyString) = None.
Proof.
  unfold lacks. induction t as [|d t IH]; intros H; [reflexivity|].
  cbn [any_byte] in H. apply negb_true_iff, orb_false_elim in H. destruct H as [Hd Ht].
  rewrite Index_cons, prefix_byte, Hd, IH; [reflexivity|]. now rewrite Ht.
Qed.

(** [strings.Split] undoes [strings.Join] for a one-byte separator that
    no element holds. *)
Lemma Split_Join_byte (c : ascii) (l : list string) :
  l <> [] -> forallb (lacks c) l = true ->
  Split (Join l (String c EmptyString)) (String c EmptyString) = l.
Proof.
  intros Hl Hall. rewrite Split_unfold by discriminate.
  induction l as [|t l IH]; [congruence|]. clear Hl.
  cbn [forallb] in Hall. apply andb_prop in Hall. destruct Hall as [Ht Hall].
  destruct l as [|u l].
  - cbn [Join]. destruct (String.length t) eqn:E; cbn [genSplit_loop];
      rewrite ?Index_byte_none by assumption; reflexivity.
  - rewrite Join_cons by discriminate.
    set (rest := Join (u :: l) (String c "")) in *.
    change (String c "" ++ rest) with (String c rest).
    rewrite append_length. cbn [String.length].
    replace (String.length t + S (String.length rest))
      with (S (String.length t + String.length rest)) by lia.
    cbn [genSplit_loop]. rewrite Index_byte_after by assumption.
    rewrite slice_to_app. cbn [String.length].
    replace (String.length t + 1) with (String.length (t ++ String c "")).
    2:{ rewrite append_length. reflexivity. }
    replace (t ++ String c rest) with ((t ++ String c "") ++ rest).
    2:{ rewrite append_assoc. reflexivity. }
    rewrite slice_from_app. f_equal.
    rewrite (genSplit_loop_fuel (String c "") ltac:(discriminate) _ (String.length rest))
      by lia.
    apply IH; [discriminate|assumption].
Qed.

(** *** Mapping the bytes of a string *)

Lemma map_bytes_length (f : ascii -> ascii) (s : string) :
  String.length (map_bytes f s) = String.length s.
Proof. induction s as [|c s IH]; simpl; auto. Qed.

Lemma map_bytes_slice_to (f : ascii -> ascii) (n : nat) (s : string) :
  map_bytes f (slice_to n s) = slice_to n (map_bytes f s).
Proof. revert s; induction n as [|n IH]; intros [|c s]; simpl; auto. now rewrite IH. Qed.

Lemma map_bytes_slice_from (f : ascii -> ascii) (n : nat) (s : string) :
  map_bytes f (slice_from n s) = slice_from n (map_bytes f s).
Proof. revert s; induction n as [|n IH]; intros [|c s]; simpl; auto. Qed.

Section MapSep.
Variable f : ascii -> ascii.
Variable c : ascii.
(** [f] keeps the separator apart: it maps [c], and nothing else, to [c]. *)
Hypothesis f_sep : forall d, (c =? f d)%char = (c =? d)%char.

Lemma Index_map_bytes (s : string) :
  Index (map_bytes f s) (String c EmptyString) = Index s (String c EmptyString).
Proof.
  induction s as [|d s IH]; [reflexivity|].
  cbn [map_bytes]. rewrite !Index_cons, !prefix_byte, f_sep, IH. reflexivity.
Qed.

Lemma genSplit_loop_map_bytes (n : nat) (s : string) :
  genSplit_loop n (map_bytes f s) (String c EmptyString) =
  map (map_bytes f) (genSplit_loop n s (String c EmptyString)).
Proof.
  revert s; induction n as [|n IH]; intros s; [reflexivity|].
  cbn [genSplit_loop]. rewrite Index_map_bytes.
  destruct (Index s (String c "")) as [m|]; [|reflexivity].
  cbn [map]. rewrite map_bytes_slice_to, <- map_bytes_slice_from, IH. reflexivity.
Qed.

(** Splitting commutes with a byte map that keeps the separator apart. *)
Lemma Split_map_bytes (s : string) :
  Split (map_bytes f s) (String c EmptyString) =
  map (map_bytes f) (Split s (String c EmptyString)).
Proof.
  rewrite !Split_unfold by discriminate.
  rewrite map_bytes_length. apply genSplit_loop_map_bytes.
Qed.
End MapSep.

Lemma all_bytes_slice_to (p : ascii -> bool) (n : nat) (s : string) :
  all_bytes p s = true -> all_bytes p (slice_to n s) = true.
Proof.
  revert s; induction n as [|n IH]; intros [|c s]; simpl; auto.
  intros H. apply andb_prop in H. destruct H as [-> H]. now apply IH.
Qed.

Lemma all_bytes_slice_from (p : ascii -> bool) (n : nat) (s : string) :
  all_bytes p s = true -> all_bytes p (slice_from n s) = true.
Proof.
  revert s; induction n as [|n IH]; intros [|c s]; simpl; auto.
  intros H. apply andb_prop in H. destruct H as [_ H]. now apply IH.
Qed.

(** The pieces of a string hold bytes of the string only. *)
Lemma all_bytes_Split (p : ascii -> bool) (s sep : string) :
  sep <> EmptyString -> all_bytes p s = true ->
  forallb (all_bytes p) (Split s sep) = true.
Proof.
  intros Hsep. rewrite Split_unfold by assumption.
  generalize (String.length s) as n. intros n. revert s.
  induction n as [|n IH]; intros s H; cbn [genSplit_loop].
  - cbn. now rewrite H.
  - destruct (Index s sep) as [m|]; cbn [forallb].
    + rewrite all_bytes_slice_to by assumption. cbn. apply IH.
      now apply all_bytes_slice_from.
    + now rewrite H.
Qed.

(** *** [strings.ToUpper] on ASCII text *)

Lemma upper_byte_ascii (c : ascii) :
  is_ascii_byte c = true -> is_ascii_byte (upper_byte c) = true.
Proof.
  unfold upper_byte, is_ascii_byte, is_lower_byte.
  destruct ((97 <=? nat_of_ascii c) && (nat_of_ascii c <=? 122))%nat eqn:E; auto.
  intros _. apply andb_prop in E. destruct E as [E1 E2].
  apply Nat.leb_le in E1, E2. apply Nat.ltb_lt.
  rewrite nat_ascii_embedding; lia.
Qed.

Lemma upper_byte_not_lower (c : ascii) : is_lower_byte (upper_byte c) = false.
Proof.
  unfold upper_byte. destruct (is_lower_byte c) eqn:E; auto.
  unfold is_lower_byte in *. apply andb_prop in E. destruct E as [E1 E2].
  apply Nat.leb_le in E1, E2. rewrite nat_ascii_embedding by lia.
  apply andb_false_iff. left. apply Nat.leb_gt. lia.
Qed.

Lemma upper_byte_fixed (c : ascii) : is_lower_byte c = false -> upper_byte c = c.
Proof. unfold upper_byte. now intros ->. Qed.

Lemma map_upper_fixed (s : string) :
  any_byte is_lower_byte s = false -> map_bytes upper_byte s = s.
Proof.
  induction s as [|c s IH]; simpl; auto. intros H. apply orb_false_elim in H.
  destruct H as [Hc Hs]. now rewrite upper_byte_fixed, IH.
Qed.

Lemma map_upper_ascii (s : string) :
  all_bytes is_ascii_byte s = true ->
  all_bytes is_ascii_byte (map_bytes upper_byte s) = true.
Proof.
  induction s as [|c s IH]; simpl; auto. intros H. apply andb_prop in H.
  destruct H as [Hc Hs]. now rewrite upper_byte_ascii, IH.
Qed.

Lemma map_upper_no_lower (s : string) :
  any_byte is_lower_byte (map_bytes upper_byte s) = false.
Proof. induction s as [|c s IH]; simpl; auto. now rewrite upper_byte_not_lower. Qed.

(** On ASCII text [strings.ToUpper] is the byte map, whatever the Unicode
    tables say. *)
Lemma ToUpper_ascii (U : string -> string) (s : string) :
  all_bytes is_ascii_byte s = true -> ToUpper U s = map_bytes upper_byte s.
Proof.
  intros H. unfold ToUpper. rewrite H.
  destruct (any_byte is_lower_byte s) eqn:E; auto. symmetry. now apply map_upper_fixed.
Qed.

Lemma ToUpper_upper (U : string -> string) (s : string) :
  all_bytes is_ascii_byte s = true ->
  ToUpper U (map_bytes upper_byte s) = ToUpper U s.
Proof.
  intros H. rewrite (ToUpper_ascii U s) by assumption.
  unfold ToUpper. now rewrite map_upper_ascii, map_upper_no_lower.
Qed.

(** The semicolon is no letter: upper-casing maps it, and nothing else, to
    itself. *)
Lemma upper_byte_semicolon (d : ascii) :
  (";" =? upper_byte d)%char = (";" =? d)%char.
Proof.
  unfold upper_byte. destruct (is_lower_byte d) eqn:E; auto.
  unfold is_lower_byte in E. apply andb_prop in E. destruct E as [E1 E2].
  apply Nat.leb_le in E1, E2.
  assert (";"%char <> d) as H1.
  { intros <-. cbn in E1. lia. }
  assert (";"%char <> ascii_of_nat (nat_of_ascii d - 32)) as H2.
  { intros H. apply (f_equal nat_of_ascii) in H.
    rewrite nat_ascii_embedding in H by lia. cbn in H. lia. }
  apply Ascii.eqb_neq in H1, H2. now rewrite H1, H2.
Qed.

End GoStringsFacts.

(* ===================================================================== *)
(** ** What [parseGatewaySSE] accepts *)
(* ===================================================================== *)

Module GatewaySSEFacts.
Import GoStrings GoStringsFacts GatewaySSE.

Section Facts.
Variable Map_unicode_ToUpper : string -> string.
Variables (sses3 ssec : string).

#[local] Abbreviation upper := (ToUpper Map_unicode_ToUpper).

Lemma fold_append_slice (l e : list string) :
  fold_left append l (slice_of e) = slice_of (e ++ l)%list.
Proof.
  revert e; induction l as [|v l IH]; intros e; simpl.
  - now rewrite app_nil_r.
  - rewrite IH. now rewrite <- app_assoc.
Qed.

Lemma fold_append_nil (l : list string) :
  fold_left append l nil_slice = of_list l.
Proof. destruct l as [|v l]; simpl; auto. apply fold_append_slice. Qed.

(** Every token passes: the loop runs to its end and has appended the
    non-empty upper-cased tokens in order. *)
Lemma range_all_pass (l : list string) (g : GatewaySSE) :
  forallb (fun t => passes sses3 ssec (upper t)) l = true ->
  parseGatewaySSE_range Map_unicode_ToUpper sses3 ssec l g =
  (fold_left append (filter nonempty (map upper l)) g, None).
Proof.
  revert g; induction l as [|t l IH]; intros g H; simpl in *; auto.
  apply andb_prop in H. destruct H as [Ht Hl]. unfold passes in Ht. unfold nonempty at 1.
  destruct (upper t =? "")%string eqn:E; simpl in *; auto.
  rewrite Ht. now rewrite IH.
Qed.

(** The first token that does not pass ends the loop with [nil] and the
    error that names it, upper-cased. *)
Lemma range_first_fail (pre post : list string) (t : string) (g : GatewaySSE) :
  forallb (fun t => passes sses3 ssec (upper t)) pre = true ->
  passes sses3 ssec (upper t) = false ->
  parseGatewaySSE_range Map_unicode_ToUpper sses3 ssec (pre ++ t :: post)%list g =
  (nil_slice, Some (invalid_value (upper t))).
Proof.
  revert g; induction pre as [|p pre IH]; intros g Hpre Ht; simpl in *.
  - unfold passes in Ht. destruct (upper t =? "")%string; simpl in *; [discriminate|].
    now rewrite Ht.
  - apply andb_prop in Hpre. destruct Hpre as [Hp Hpre]. unfold passes in Hp.
    destruct (upper p =? "")%string; simpl in *; auto.
    rewrite Hp. auto.
Qed.

(** A list with a token that does not pass splits at the first such one. *)
Lemma first_fail_split (l : list string) :
  forallb (fun t => passes sses3 ssec (upper t)) l = false ->
  exists pre t post,
    l = (pre ++ t :: post)%list /\
    forallb (fun t => passes sses3 ssec (upper t)) pre = true /\
    passes sses3 ssec (upper t) = false.
Proof.
  induction l as [|x l IH]; simpl; [discriminate|].
  destruct (passes sses3 ssec (upper x)) eqn:Hx; simpl.
  - intros H. destruct (IH H) as (pre & t & post & -> & Hpre & Ht).
    exists (x :: pre), t, post. simpl. now rewrite Hx, Hpre.
  - intros _. now exists [], x, l.
Qed.
End Facts.

#[local] Abbreviation passes_gw := (passes GatewaySSES3 GatewaySSEC).

(** C6. [parseGatewaySSE] splits its input on semicolons (the tokens
    joined by semicolons give the input back, and no token holds a
    semicolon) and matches each token, upper-cased, against the closed set
    of [GatewaySSES3] and [GatewaySSEC]:
    - the input s3;sse-c, in any letter case, gives the slice of the two
      tokens;
    - the input bogus fails with the error that names BOGUS;
    - the empty string gives [nil] and no error;
    - when every token is empty or in the set, the result is the slice of
      the non-empty tokens, upper-cased, in order ([nil] when there is
      none), and no error;
    - otherwise the call fails with [nil] and the error that names the
      first token outside the set, upper-cased. *)
Theorem parseGatewaySSE_closed_set (U : string -> string) :
  (forall s, Join (Split s ";") ";" = s /\
             Forall (fun t => ~ Contains t ";") (Split s ";")) /\
  parseGatewaySSE U "s3;sse-c" = (slice_of ["S3"; "SSE-C"], None) /\
  parseGatewaySSE U "S3;sSe-C" = (slice_of ["S3"; "SSE-C"], None) /\
  parseGatewaySSE U "bogus" =
    (nil_slice, Some (ErrInvalidGWSSEValue "gateway SSE cannot be (BOGUS) ")) /\
  parseGatewaySSE U "" = (nil_slice, None) /\
  (forall s,
      forallb (fun t => passes_gw (ToUpper U t)) (Split s ";") = true ->
      parseGatewaySSE U s =
      (of_list (filter nonempty (map (ToUpper U) (Split s ";"))), None)) /\
  (forall s t,
      In t (Split s ";") -> passes_gw (ToUpper U t) = false ->
      exists pre t' post,
        Split s ";" = (pre ++ t' :: post)%list /\
        forallb (fun t => passes_gw (ToUpper U t)) pre = true /\
        passes_gw (ToUpper U t') = false /\
        parseGatewaySSE U s = (nil_slice, Some (invalid_value (ToUpper U t')))).
Proof.
  split; [intros s; split; [apply Join_Split|apply Split_pieces; discriminate]|].
  repeat split; try reflexivity.
  - intros s H. unfold parseGatewaySSE, parseGatewaySSE_with.
    rewrite range_all_pass by assumption. now rewrite fold_append_nil.
  - intros s t Hin Ht.
    assert (forallb (fun t => passes_gw (ToUpper U t)) (Split s ";") = false) as Hall.
    { destruct (forallb _ _) eqn:E; auto. rewrite forallb_forall in E.
      specialize (E t Hin). simpl in E. congruence. }
    destruct (first_fail_split U _ _ _ Hall) as (pre & t' & post & Hs & Hpre & Ht').
    exists pre, t', post. repeat split; auto.
    unfold parseGatewaySSE, parseGatewaySSE_with. rewrite Hs.
    now apply range_first_fail.
Qed.

(** *** The closed set, the round trip and the letter case *)

Lemma in_set_inv (v : string) :
  in_set v = true -> v = GatewaySSES3 \/ v = GatewaySSEC.
Proof.
  unfold in_set. intros H. apply orb_prop in H.
  destruct H as [H|H]; apply String.eqb_eq in H; auto.
Qed.

Lemma passes_nonempty_in_set (v : string) :
  passes GatewaySSES3 GatewaySSEC v = true -> nonempty v = true -> in_set v = true.
Proof.
  unfold passes, nonempty, in_set. destruct (v =? "")%string; cbn; auto. discriminate.
Qed.

(** What a call that succeeds returns. *)
Lemma parseGatewaySSE_success (U : string -> string) (s : string) (g : GatewaySSE) :
  parseGatewaySSE U s = (g, None) ->
  forallb (fun t => passes GatewaySSES3 GatewaySSEC (ToUpper U t)) (Split s ";") = true /\
  g = of_list (filter nonempty (map (ToUpper U) (Split s ";"))).
Proof.
  unfold parseGatewaySSE, parseGatewaySSE_with.
  destruct (forallb (fun t => passes GatewaySSES3 GatewaySSEC (ToUpper U t)) (Split s ";"))
    eqn:Hall.
  - rewrite range_all_pass by assumption. rewrite fold_append_nil. now intros [= <-].
  - destruct (first_fail_split U _ _ _ Hall) as (pre & t & post & E & Hpre & Ht).
    rewrite E, range_first_fail by assumption. discriminate.
Qed.

Lemma parseGatewaySSE_failure (U : string -> string) (s : string) (g : GatewaySSE)
  (e : error) :
  parseGatewaySSE U s = (g, Some e) -> g = nil_slice.
Proof.
  unfold parseGatewaySSE, parseGatewaySSE_with.
  destruct (forallb (fun t => passes GatewaySSES3 GatewaySSEC (ToUpper U t)) (Split s ";"))
    eqn:Hall.
  - rewrite range_all_pass by assumption. discriminate.
  - destruct (first_fail_split U _ _ _ Hall) as (pre & t & post & E & Hpre & Ht).
    rewrite E, range_first_fail by assumption. now intros [= <- _].
Qed.

Lemma filter_passes_in_set (U : string -> string) (l : list string) :
  forallb (fun t => passes GatewaySSES3 GatewaySSEC (ToUpper U t)) l = true ->
  forallb in_set (filter nonempty (map (ToUpper U) l)) = true.
Proof.
  induction l as [|t l IH]; cbn; auto. intros H. apply andb_prop in H.
  destruct H as [Ht Hl]. destruct (nonempty (ToUpper U t)) eqn:E; cbn; auto.
  now rewrite passes_nonempty_in_set, IH.
Qed.

Lemma elements_of_list (l : list string) : elements (of_list l) = l.
Proof. now destruct l. Qed.

(** Whatever the call returns holds tokens of the closed set only. *)
Lemma parseGatewaySSE_elements (U : string -> string) (s : string) :
  forallb in_set (elements (fst (parseGatewaySSE U s))) = true.
Proof.
  destruct (parseGatewaySSE U s) as [g [e|]] eqn:E; cbn [fst].
  - apply parseGatewaySSE_failure in E. now subst g.
  - apply parseGatewaySSE_success in E. destruct E as [Hall ->].
    rewrite elements_of_list. now apply filter_passes_in_set.
Qed.

(** X5. Whatever [parseGatewaySSE] returns holds tokens of the closed set
    only: every element of the slice is [GatewaySSES3] or [GatewaySSEC];
    the slice is never empty without being [nil]; and beside an error the
    slice is [nil]. *)
Theorem parseGatewaySSE_returns_closed_set (U : string -> string) (s : string) :
  let (g, err) := parseGatewaySSE U s in
  forallb in_set (elements g) = true /\
  g <> slice_of [] /\
  (err <> None -> g = nil_slice).
Proof.
  destruct (parseGatewaySSE U s) as [g [e|]] eqn:E.
  - apply parseGatewaySSE_failure in E. subst g. repeat split; auto. discriminate.
  - apply parseGatewaySSE_success in E. destruct E as [Hall ->].
    rewrite elements_of_list. repeat split.
    + now apply filter_passes_in_set.
    + destruct (filter _ _); discriminate.
    + congruence.
Qed.

Lemma in_set_lacks (v : string) : in_set v = true -> lacks ";" v = true.
Proof. intros H. apply in_set_inv in H. destruct H as [->| ->]; reflexivity. Qed.

Lemma in_set_upper (U : string -> string) (v : string) :
  in_set v = true -> ToUpper U v = v.
Proof. intros H. apply in_set_inv in H. destruct H as [->| ->]; reflexivity. Qed.

Lemma in_set_passes (v : string) :
  in_set v = true -> passes GatewaySSES3 GatewaySSEC v = true /\ nonempty v = true.
Proof. intros H. apply in_set_inv in H. destruct H as [->| ->]; split; reflexivity. Qed.

(** X6. [parseGatewaySSE] undoes the joining by semicolons: for every
    list of tokens of the closed set, the call on the tokens joined by
    semicolons returns that list, in the same order and with its
    repetitions ([nil] for the empty list), and no error. *)
Theorem parseGatewaySSE_Join (U : string -> string) (tokens : list string) :
  forallb in_set tokens = true ->
  parseGatewaySSE U (Join tokens ";") = (of_list tokens, None).
Proof.
  intros H. destruct tokens as [|t l]; [reflexivity|].
  unfold parseGatewaySSE, parseGatewaySSE_with.
  rewrite (Split_Join_byte ";" (t :: l)).
  - rewrite range_all_pass.
    + rewrite fold_append_nil. f_equal. f_equal.
      revert H. generalize (t :: l). intros l'. induction l' as [|x l' IH]; auto.
      cbn [forallb map filter]. intros H. apply andb_prop in H. destruct H as [Hx Hl].
      rewrite in_set_upper by assumption.
      destruct (in_set_passes x Hx) as [_ ->]. now rewrite IH.
    + rewrite forallb_forall in *. intros x Hx. specialize (H x Hx).
      rewrite in_set_upper by assumption. now apply in_set_passes.
  - discriminate.
  - rewrite forallb_forall in *. intros x Hx. apply in_set_lacks. auto.
Qed.

Lemma map_ToUpper_upper (U : string -> string) (l : list string) :
  forallb (all_bytes is_ascii_byte) l = true ->
  map (ToUpper U) (map (map_bytes upper_byte) l) = map (ToUpper U) l.
Proof.
  induction l as [|t l IH]; cbn; auto. intros H. apply andb_prop in H.
  destruct H as [Ht Hl]. now rewrite ToUpper_upper, IH.
Qed.

Lemma parseGatewaySSE_range_map (U : string -> string) (a b : string)
  (l l' : list string) (g : GatewaySSE) :
  map (ToUpper U) l = map (ToUpper U) l' ->
  parseGatewaySSE_range U a b l g = parseGatewaySSE_range U a b l' g.
Proof.
  revert l' g; induction l as [|t l IH]; intros [|t' l'] g E; try discriminate; auto.
  cbn in E. injection E as Et El. cbn. rewrite Et.
  destruct (ToUpper U t' =? "")%string; auto.
  destruct ((ToUpper U t' =? a)%string || (ToUpper U t' =? b)%string); auto.
Qed.

(** X7. [parseGatewaySSE] does not tell the letter case of an ASCII
    value: the call on the value with its letters upper-cased returns what
    the call on the value returns, slice and error. *)
Theorem parseGatewaySSE_ignores_case (U : string -> string) (s : string) :
  all_bytes is_ascii_byte s = true ->
  parseGatewaySSE U (map_bytes upper_byte s) = parseGatewaySSE U s.
Proof.
  intros H. unfold parseGatewaySSE, parseGatewaySSE_with.
  rewrite (Split_map_bytes upper_byte ";" upper_byte_semicolon).
  apply parseGatewaySSE_range_map. apply map_ToUpper_upper.
  apply all_bytes_Split; [discriminate|assumption].
Qed.

(** Three tokens, one of them twice. *)
Lemma parseGatewaySSE_Join_witness :
  parseGatewaySSE (fun s => s) "SSE-C;S3;S3" = (slice_of ["SSE-C"; "S3"; "S3"], None).
Proof.
  exact (parseGatewaySSE_Join (fun s => s) ["SSE-C"; "S3"; "S3"] eq_refl).
Defined.

(** A value in lower case. *)
Lemma parseGatewaySSE_ignores_case_witness :
  parseGatewaySSE (fun s => s) "S3;SSE-C;BOGUS" =
  parseGatewaySSE (fun s => s) "s3;sse-c;bogus".
Proof.
  exact (parseGatewaySSE_ignores_case (fun s => s) "s3;sse-c;bogus" eq_refl).
Defined.

End GatewaySSEFacts.

(* ===================================================================== *)
(** ** What [ParseGatewayEndpoint] returns *)
(* ===================================================================== *)

Module EndpointFacts.
Import GoStrings GoStringsFacts Endpoint.

(** *** The scheme the reference parser reads behind the https prefix *)

Module NetURLFacts.
Import NetURL.

Lemma parse_https (b : string) (url : URL) :
  parse ("https://" ++ b) = inl url -> Scheme url = "https".
Proof.
  unfold parse.
  destruct (any_byte is_ctl ("https://" ++ b)); [discriminate|].
  change (("https://" ++ b =? "*")%string) with false. cbv iota.
  change (getScheme ("https://" ++ b)) with
    (@inl (string * string) error ("https", "//" ++ b)).
  cbv iota beta. change (map_bytes lower_byte "https") with "https".
  simpl cut_byte. destruct (cut_byte "?" b) as [r q].
  repeat match goal with
         | |- context [if ?c then _ else _] => destruct c
         | |- context [match ?x with Some _ => _ | None => _ end] => destruct x
         | |- context [let (_, _) := ?x in _] => destruct x
         end;
    intros [= <-]; reflexivity.
Qed.

(** The reference parser reads every text that starts with the https
    prefix as an https URL, when it accepts it. *)
Lemma Parse_https (x : string) (u : URL) :
  Parse ("https://" ++ x) = inl u -> Scheme u = "https".
Proof.
  unfold Parse.
  assert (cut_byte "#" ("https://" ++ x) =
          ("https://" ++ fst (cut_byte "#" x), snd (cut_byte "#" x))) as ->
    by (simpl; destruct (cut_byte "#" x); reflexivity).
  destruct (cut_byte "#" x) as [b frag]. cbn [fst snd].
  destruct (parse ("https://" ++ b)) as [url|err] eqn:E; [|intros H; discriminate H].
  apply parse_https in E.
  destruct frag; intros [= <-]; assumption.
Qed.

End NetURLFacts.

(** [schemeSpecified] holds exactly for an argument that contains the
    scheme separator. *)
Lemma schemeSpecified_Contains (arg : string) :
  schemeSpecified arg = true <-> Contains arg "://".
Proof. apply Split_length_Contains. discriminate. Qed.

Lemma schemeSpecified_false (arg : string) :
  schemeSpecified arg = false <-> ~ Contains arg "://".
Proof.
  rewrite <- schemeSpecified_Contains. destruct (schemeSpecified arg); split; congruence.
Qed.

Section Resolve.
Variable url_Parse : string -> URL + error.

Lemma ParseGatewayEndpoint_unfold (arg : string) :
  ParseGatewayEndpoint url_Parse arg =
  match url_Parse (parsed_text arg) with
  | inr err => ("", false, Some err)
  | inl u =>
      if (Scheme u =? "http")%string then (Host u, false, None)
      else if (Scheme u =? "https")%string then (Host u, true, None)
      else ("", false, Some (Errorf ("Unrecognized scheme " ++ Scheme u)))
  end.
Proof.
  unfold ParseGatewayEndpoint, parsed_text. now destruct (schemeSpecified arg).
Qed.

(** C5. For every argument of the endpoint resolver and every parser:
    the text that is parsed is the argument itself when it contains the
    scheme separator, and the argument behind the https prefix when it
    does not; in that second case a URL that is read as https resolves to
    its host with [secure = true].  A parsed URL of scheme http resolves to
    its host with [secure = false], one of scheme https to its host with
    [secure = true], one of any other scheme fails with the error that
    names the scheme, and a text that does not parse fails with the parse
    error.  With the reference parser, which reads every text behind the
    https prefix as an https URL, an argument without the separator
    resolves to its host with [secure = true] whenever it parses. *)
Theorem ParseGatewayEndpoint_resolves (arg : string) :
  (Contains arg "://" -> parsed_text arg = arg) /\
  (~ Contains arg "://" ->
   parsed_text arg = "https://" ++ arg /\
   forall u, url_Parse ("https://" ++ arg) = inl u -> Scheme u = "https" ->
             ParseGatewayEndpoint url_Parse arg = (Host u, true, None)) /\
  (forall u, url_Parse (parsed_text arg) = inl u -> Scheme u = "http" ->
             ParseGatewayEndpoint url_Parse arg = (Host u, false, None)) /\
  (forall u, url_Parse (parsed_text arg) = inl u -> Scheme u = "https" ->
             ParseGatewayEndpoint url_Parse arg = (Host u, true, None)) /\
  (forall u, url_Parse (parsed_text arg) = inl u ->
             Scheme u <> "http" -> Scheme u <> "https" ->
             ParseGatewayEndpoint url_Parse arg =
             ("", false, Some (Errorf ("Unrecognized scheme " ++ Scheme u)))) /\
  (forall err, url_Parse (parsed_text arg) = inr err ->
               ParseGatewayEndpoint url_Parse arg = ("", false, Some err)) /\
  (~ Contains arg "://" ->
   forall u, NetURL.Parse ("https://" ++ arg) = inl u ->
             ParseGatewayEndpoint NetURL.Parse arg = (Host u, true, None)).
Proof.
  assert (forall parser u, parser (parsed_text arg) = inl u -> Scheme u = "https" ->
                    ParseGatewayEndpoint parser arg = (Host u, true, None)) as Hany.
  { intros parser u Hu Hsch. unfold ParseGatewayEndpoint. fold (parsed_text arg).
    unfold parsed_text in *. destruct (schemeSpecified arg); cbn [negb];
      rewrite Hu, Hsch; reflexivity. }
  pose proof (Hany url_Parse) as Hs.
  repeat split.
  - intros H. apply schemeSpecified_Contains in H. unfold parsed_text. now rewrite H.
  - apply schemeSpecified_false in H. unfold parsed_text. now rewrite H.
  - intros u Hu Hsch. apply schemeSpecified_false in H. apply Hs; auto.
    unfold parsed_text. now rewrite H.
  - intros u Hu Hsch. rewrite ParseGatewayEndpoint_unfold, Hu, Hsch. reflexivity.
  - exact Hs.
  - intros u Hu H1 H2. rewrite ParseGatewayEndpoint_unfold, Hu.
    apply String.eqb_neq in H1, H2. now rewrite H1, H2.
  - intros err He. now rewrite ParseGatewayEndpoint_unfold, He.
  - intros H u Hu. apply schemeSpecified_false in H. apply Hany.
    + unfold parsed_text. now rewrite H.
    + eapply NetURLFacts.Parse_https; eauto.
Qed.

(** The empty argument holds no scheme separator, so the bare https prefix
    is what is parsed; when the parser returns for it the URL of scheme
    https and empty host, the resolver returns the empty host,
    [secure = true] and no error. *)
Lemma ParseGatewayEndpoint_empty_any :
  url_Parse "https://" = inl https_empty ->
  ParseGatewayEndpoint url_Parse "" = ("", true, None).
Proof.
  intros H. rewrite ParseGatewayEndpoint_unfold.
  change (parsed_text "") with "https://". now rewrite H.
Qed.
End Resolve.

(** C10. The endpoint resolver accepts the empty argument: no scheme
    separator is found in it, the text that is parsed is the bare https
    prefix, which parses to the URL of scheme https and empty host, and the
    result is the empty host, [secure = true] and no error.  This holds
    for every parser that reads the bare prefix so, and the reference
    parser does. *)
Theorem ParseGatewayEndpoint_empty :
  schemeSpecified "" = false /\
  parsed_text "" = "https://" /\
  (forall url_Parse : string -> URL + error,
      url_Parse "https://" = inl https_empty ->
      ParseGatewayEndpoint url_Parse "" = ("", true, None)) /\
  NetURL.Parse "https://" = inl https_empty /\
  ParseGatewayEndpoint NetURL.Parse "" = ("", true, None).
Proof.
  repeat split. apply ParseGatewayEndpoint_empty_any.
Qed.

(** Runs of the resolver with the reference parser. *)
Example ParseGatewayEndpoint_runs :
  ParseGatewayEndpoint NetURL.Parse "play.min.io:9000" =
    ("play.min.io:9000", true, None) /\
  ParseGatewayEndpoint NetURL.Parse "http://play.min.io:9000" =
    ("play.min.io:9000", false, None) /\
  ParseGatewayEndpoint NetURL.Parse "https://s3.amazonaws.com/bucket" =
    ("s3.amazonaws.com", true, None) /\
  ParseGatewayEndpoint NetURL.Parse "ftp://play.min.io" =
    ("", false, Some (Errorf "Unrecognized scheme ftp")) /\
  ParseGatewayEndpoint NetURL.Parse "://play.min.io" =
    ("", false, Some (url_Error "parse" "://play.min.io" "missing protocol scheme")).
Proof. repeat split. Qed.

(** *** The default scheme, and what a result holds *)

Section Results.
Variable url_Parse : string -> URL + error.

(** X8. For every parser: an argument without scheme separator resolves
    as the same argument behind the https prefix does: endpoint, [secure]
    and error are the same. *)
Theorem ParseGatewayEndpoint_default_https (arg : string) :
  ~ Contains arg "://" ->
  ParseGatewayEndpoint url_Parse arg = ParseGatewayEndpoint url_Parse ("https://" ++ arg).
Proof.
  intros H. rewrite !ParseGatewayEndpoint_unfold. unfold parsed_text.
  apply schemeSpecified_false in H. rewrite H.
  assert (schemeSpecified ("https://" ++ arg) = true) as ->; [|reflexivity].
  apply schemeSpecified_Contains. now exists "https", arg.
Qed.

(** X9. What [ParseGatewayEndpoint] returns, for every argument and
    parser: beside an error the endpoint is empty and [secure] is false,
    and the error is the parser's or names a scheme that is neither http nor
    https; without an error the endpoint is the host of the parsed URL, and
    [secure] is true for scheme https and false for scheme http. *)
Theorem ParseGatewayEndpoint_result (arg : string) :
  let '(endPoint, secure, err) := ParseGatewayEndpoint url_Parse arg in
  match err with
  | Some e =>
      endPoint = "" /\ secure = false /\
      (url_Parse (parsed_text arg) = inr e \/
       exists u, url_Parse (parsed_text arg) = inl u /\
                 Scheme u <> "http" /\ Scheme u <> "https" /\
                 e = Errorf ("Unrecognized scheme " ++ Scheme u))
  | None =>
      exists u, url_Parse (parsed_text arg) = inl u /\ endPoint = Host u /\
                (Scheme u = "https" /\ secure = true \/
                 Scheme u = "http" /\ secure = false)
  end.
Proof.
  rewrite ParseGatewayEndpoint_unfold.
  destruct (url_Parse (parsed_text arg)) as [u|e]; [|auto].
  destruct (Scheme u =? "http")%string eqn:E1.
  - apply String.eqb_eq in E1. eauto 6.
  - destruct (Scheme u =? "https")%string eqn:E2.
    + apply String.eqb_eq in E2. eauto 6.
    + apply String.eqb_neq in E1, E2. repeat split; auto. right. eauto 6.
Qed.
End Results.

(** A host and port without scheme. *)
Lemma ParseGatewayEndpoint_default_https_witness :
  ParseGatewayEndpoint NetURL.Parse "play.min.io:9000" =
  ParseGatewayEndpoint NetURL.Parse "https://play.min.io:9000".
Proof.
  apply (ParseGatewayEndpoint_default_https NetURL.Parse "play.min.io:9000").
  apply schemeSpecified_false. reflexivity.
Defined.

End EndpointFacts.

(* ===================================================================== *)
(** ** The decorated walk and its paginated fallback *)
(* ===================================================================== *)

Module WalkFacts.
Import WalkEngine.
Local Open Scope list_scope.

Section Walk.
Context {ObjectInfo ObjectOptions Backend : Type}.
Context {inner : ObjectLayer ObjectInfo ObjectOptions Backend}.

#[local] Abbreviation World' := (World ObjectInfo Backend).
#[local] Abbreviation Chan' := (Chan ObjectInfo).
#[local] Abbreviation Page := (ListObjectsInfo ObjectInfo).

Lemma push_objects_quiet (ctx : Context) (objs : list ObjectInfo) (k : nat) (ch : Chan') :
  quiet ctx k (length objs) ->
  push_objects ctx objs k ch = (sends ch objs, k + length objs, false).
Proof.
  revert k ch; induction objs as [|obj rest IH]; intros k ch Hq; simpl.
  - unfold sends. rewrite app_nil_r, Nat.add_0_r. now destruct ch.
  - rewrite (Hq k) by (simpl; lia). rewrite IH.
    + unfold sends, send; simpl. rewrite <- app_assoc. repeat f_equal. lia.
    + intros j Hj. apply Hq. simpl. lia.
Qed.

Lemma push_objects_fires (ctx : Context) (objs : list ObjectInfo) (k n : nat) (ch : Chan') :
  quiet ctx k n -> Done_fires ctx (k + n) = true -> n < length objs ->
  push_objects ctx objs k ch = (sends ch (firstn n objs), k + n, true).
Proof.
  revert k n ch; induction objs as [|obj rest IH]; intros k n ch Hq Hd Hn; simpl in *.
  - lia.
  - destruct n as [|n].
    + rewrite Nat.add_0_r in *. rewrite Hd. unfold sends; simpl.
      rewrite app_nil_r. now destruct ch.
    + rewrite (Hq k) by lia. rewrite (IH (S k) n).
      * unfold sends, send; simpl. rewrite <- app_assoc. repeat f_equal. lia.
      * intros j Hj. apply Hq. lia.
      * now replace (S k + n) with (k + S n) by lia.
      * lia.
Qed.

(** Whatever the context does, the push loop only sends objects and never
    closes the channel. *)
Lemma push_objects_sends (ctx : Context) (objs : list ObjectInfo) (k : nat) (ch : Chan') :
  exists n, n <= length objs /\
    fst (fst (push_objects ctx objs k ch)) = sends ch (firstn n objs).
Proof.
  revert k ch; induction objs as [|obj rest IH]; intros k ch; simpl.
  - exists 0. split; auto. unfold sends; simpl. rewrite app_nil_r. now destruct ch.
  - destruct (Done_fires ctx k).
    + exists 0. split; [lia|]. unfold sends; simpl. rewrite app_nil_r. now destruct ch.
    + destruct (IH (S k) (send ch obj)) as [n [Hn E]]. exists (S n). split; [lia|].
      rewrite E. unfold sends, send; simpl. now rewrite <- app_assoc.
Qed.

Lemma quiet_weaken (ctx : Context) (k n k' n' : nat) :
  quiet ctx k n -> k <= k' -> k' + n' <= k + n -> quiet ctx k' n'.
Proof. intros H ? ? j Hj. apply H. lia. Qed.

(** The loop runs through the truncated pages the backend serves, one
    round each, as long as the context does not fire. *)
Lemma walk_loop_through (ctx : Context) (bucket prefix : string)
  (pages : list Page) (final : Page * option error) :
  forall (marker : string) (k f : nat) (w : World'),
    serves (backend w) ctx bucket prefix marker pages final ->
    quiet ctx k (length (all_objects pages)) ->
    walk_loop (length pages + f) ctx bucket prefix marker k w =
    walk_loop f ctx bucket prefix (marker_after marker pages)
      (k + length (all_objects pages))
      (through_pages ctx bucket prefix marker pages w).
Proof.
  induction pages as [|p rest IH]; intros marker k f w Hs Hq.
  - simpl. rewrite Nat.add_0_r. unfold through_pages, sends; simpl.
    rewrite !app_nil_r. now destruct w as [b [s c] lg li g].
  - simpl in Hs. cbn [length Nat.add walk_loop].
    destruct (ObjectLayer_ListObjects (backend w) ctx bucket prefix marker "" 0)
      as [b' r] eqn:EL.
    destruct Hs as (-> & Htr & Hs).
    unfold all_objects in Hq. cbn [map concat] in Hq. rewrite length_app in Hq.
    rewrite push_objects_quiet by (eapply quiet_weaken; eauto; lia).
    rewrite Htr. cbn [negb].
    rewrite IH.
    + unfold through_pages, all_objects. cbn [map concat marker_after calls_for
        backend_through backend results logged listed goroutines set_results
        record_call set_backend]. rewrite EL. cbn [fst].
      rewrite length_app. unfold sends. cbn [sent closes].
      rewrite <- !app_assoc. cbn [app]. f_equal. lia.
    + exact Hs.
    + eapply quiet_weaken; eauto; [lia|]. fold (all_objects rest). lia.
Qed.

(** One round on a page that is not truncated, the context quiet: the
    objects are sent and the loop breaks. *)
Lemma walk_loop_last_page (ctx : Context) (bucket prefix marker : string)
  (last : Page) (k f : nat) (w : World') :
  snd (ObjectLayer_ListObjects (backend w) ctx bucket prefix marker "" 0) = (last, None) ->
  IsTruncated last = false ->
  quiet ctx k (length (Objects last)) ->
  walk_loop (S f) ctx bucket prefix marker k w =
  Some (LoopBreak,
        mkWorld (fst (ObjectLayer_ListObjects (backend w) ctx bucket prefix marker "" 0))
                (sends (results w) (Objects last))
                (logged w)
                (listed w ++ [mkListCall bucket prefix marker "" 0])
                (goroutines w)).
Proof.
  intros HL Htr Hq. cbn [walk_loop].
  destruct (ObjectLayer_ListObjects (backend w) ctx bucket prefix marker "" 0) as [b' r].
  simpl in HL. subst r. rewrite push_objects_quiet by assumption.
  rewrite Htr. reflexivity.
Qed.

(** One round on a failing [ListObjects]: the error is logged and the
    producer returns; nothing is sent. *)
Lemma walk_loop_error (ctx : Context) (bucket prefix marker : string)
  (loi : Page) (e : error) (k f : nat) (w : World') :
  snd (ObjectLayer_ListObjects (backend w) ctx bucket prefix marker "" 0) = (loi, Some e) ->
  walk_loop (S f) ctx bucket prefix marker k w =
  Some (ListError e,
        mkWorld (fst (ObjectLayer_ListObjects (backend w) ctx bucket prefix marker "" 0))
                (results w)
                (logged w ++ [e])
                (listed w ++ [mkListCall bucket prefix marker "" 0])
                (goroutines w)).
Proof.
  intros HL. cbn [walk_loop].
  destruct (ObjectLayer_ListObjects (backend w) ctx bucket prefix marker "" 0) as [b' r].
  simpl in HL. subst r. reflexivity.
Qed.

Lemma calls_for_app (bucket prefix marker : string) (pages more : list Page) :
  calls_for bucket prefix marker (pages ++ more) =
  calls_for bucket prefix marker pages ++
  calls_for bucket prefix (marker_after marker pages) more.
Proof.
  revert marker; induction pages as [|p rest IH]; intros marker; simpl; auto.
  now rewrite IH.
Qed.

Lemma all_objects_app (pages more : list Page) :
  all_objects (pages ++ more) = all_objects pages ++ all_objects more.
Proof. unfold all_objects. now rewrite map_app, concat_app. Qed.

Lemma all_objects_cons (p : Page) (pages : list Page) :
  all_objects (p :: pages) = Objects p ++ all_objects pages.
Proof. reflexivity. Qed.

(** The context fires at the [select] that follows [n] more sends, inside
    the pages the backend serves: the producer returns there, having sent
    those [n] objects and no other. *)
Lemma walk_loop_fires (ctx : Context) (bucket prefix : string)
  (pages : list Page) (last : Page) :
  forall (marker : string) (k n f : nat) (w : World'),
    serves (backend w) ctx bucket prefix marker pages (last, None) ->
    quiet ctx k n -> Done_fires ctx (k + n) = true ->
    n < length (all_objects (pages ++ [last])) ->
    exists w',
      walk_loop (S (length pages) + f) ctx bucket prefix marker k w = Some (CtxDone, w') /\
      results w' = sends (results w) (firstn n (all_objects (pages ++ [last]))) /\
      logged w' = logged w /\ goroutines w' = goroutines w /\
      exists m, m <= S (length pages) /\
        listed w' = listed w ++ firstn m (calls_for bucket prefix marker (pages ++ [last])).
Proof.
  induction pages as [|p rest IH]; intros marker k n f w Hs Hq Hd Hn.
  - simpl in Hs. cbn [app] in *. rewrite all_objects_cons in *.
    unfold all_objects in *. cbn [map concat] in *. rewrite app_nil_r in *.
    cbn [length Nat.add walk_loop].
    destruct (ObjectLayer_ListObjects (backend w) ctx bucket prefix marker "" 0) as [b' r].
    simpl in Hs. subst r. rewrite (push_objects_fires ctx (Objects last) k n) by assumption.
    eexists. split; [reflexivity|]. cbn. repeat split; auto.
    exists 1. split; auto.
  - simpl in Hs. cbn [length Nat.add walk_loop].
    destruct (ObjectLayer_ListObjects (backend w) ctx bucket prefix marker "" 0) as [b' r].
    destruct Hs as (-> & Htr & Hs).
    change ((p :: rest) ++ [last]) with (p :: (rest ++ [last])) in *.
    rewrite all_objects_cons in *. rewrite length_app in Hn.
    destruct (Nat.lt_ge_cases n (length (Objects p))) as [Hlt|Hge].
    + rewrite (push_objects_fires ctx (Objects p) k n) by assumption.
      eexists. split; [reflexivity|]. cbn. repeat split; auto.
      * f_equal. rewrite firstn_app. replace (n - length (Objects p)) with 0 by lia.
        cbn [firstn]. now rewrite app_nil_r.
      * exists 1. split; [lia|]. reflexivity.
    + rewrite push_objects_quiet by (eapply quiet_weaken; eauto; lia).
      rewrite Htr. cbn [negb].
      set (w1 := set_results _ _).
      destruct (IH (NextMarker p) (k + length (Objects p)) (n - length (Objects p)) f w1)
        as (w' & Hrun & Hres & Hlog & Hgo & m & Hm & Hli).
      * exact Hs.
      * eapply quiet_weaken; eauto; lia.
      * now replace (k + length (Objects p) + (n - length (Objects p))) with (k + n) by lia.
      * lia.
      * exists w'. split; [exact Hrun|]. rewrite Hres, Hlog, Hgo, Hli.
        subst w1. cbn. repeat split; auto.
        -- unfold sends. cbn. rewrite <- app_assoc. f_equal. f_equal.
           rewrite firstn_app. f_equal. symmetry. apply firstn_all2. lia.
        -- exists (S m). split; [lia|]. cbn. now rewrite <- app_assoc.
Qed.

(** Every run of the loop that ends only sends on the channel, never
    closes it, logs the error of a failing [ListObjects] and nothing
    else, and starts no goroutine. *)
Lemma walk_loop_exit (ctx : Context) (bucket prefix : string) :
  forall (fuel : nat) (marker : string) (k : nat) (w w' : World') (x : exit_path),
    walk_loop fuel ctx bucket prefix marker k w = Some (x, w') ->
    closes (results w') = closes (results w) /\
    (exists items, sent (results w') = sent (results w) ++ items) /\
    logged w' = logged w ++ match x with ListError e => [e] | _ => [] end /\
    goroutines w' = goroutines w.
Proof.
  induction fuel as [|fuel IH]; intros marker k w w' x; [discriminate|].
  cbn [walk_loop].
  destruct (ObjectLayer_ListObjects (backend w) ctx bucket prefix marker "" 0)
    as [b' [loi [e|]]].
  - intros [= <- <-]. cbn. repeat split; auto. exists []. now rewrite app_nil_r.
  - destruct (push_objects_sends ctx (Objects loi) k
                (results (record_call (mkListCall bucket prefix marker "" 0)
                                      (set_backend b' w)))) as [n [_ Hn]].
    destruct (push_objects _ _ _ _) as [[ch k'] cancelled]. cbn [fst] in Hn. subst ch.
    destruct cancelled; [|destruct (IsTruncated loi); cbn [negb]].
    + intros [= <- <-]. cbn. rewrite app_nil_r. repeat split; eauto.
    + intros Hrun. apply IH in Hrun. cbn in Hrun.
      destruct Hrun as (Hc & [items Hi] & Hl & Hg). repeat split; auto.
      exists (firstn n (Objects loi) ++ items). now rewrite Hi, <- app_assoc.
    + intros [= <- <-]. cbn. rewrite app_nil_r. repeat split; eauto.
Qed.

(** After the pages, the backend gives the final answer. *)
Lemma serves_final (ctx : Context) (bucket prefix : string)
  (pages : list Page) (final : Page * option error) :
  forall (marker : string) (b : Backend),
    serves b ctx bucket prefix marker pages final ->
    snd (ObjectLayer_ListObjects (backend_through b ctx bucket prefix marker pages)
           ctx bucket prefix (marker_after marker pages) "" 0) = final.
Proof.
  induction pages as [|p rest IH]; intros marker b Hs; [exact Hs|].
  cbn [serves] in Hs. cbn [backend_through marker_after].
  destruct (ObjectLayer_ListObjects b ctx bucket prefix marker "" 0) as [b' r].
  destruct Hs as (_ & _ & Hs). cbn [fst]. now apply IH.
Qed.

(** *** The decorated walk and its fallback *)

(** C1. For every call of the decorated [Walk]: the native [Walk] of the
    inner layer runs first, and what follows acts on the state it leaves.
    When it fails with [NotImplemented], the paginated producer is started
    as a goroutine and the caller gets [nil]; any other error is returned
    as it is, and nothing is started; when it succeeds, [nil] is returned
    and nothing is started.  So the producer is started exactly when the
    native walk fails with [NotImplemented], and the goroutine started is
    the paginated walk. *)
Theorem Walk_falls_back_on_NotImplemented
  (ctx : Context) (bucket prefix : string) (opts : ObjectOptions) (w : World') :
  let w1 := fst (ObjectLayer_Walk ctx bucket prefix opts w) in
  let err := snd (ObjectLayer_Walk ctx bucket prefix opts w) in
  (forall e, err = Some e -> is_NotImplemented e = true ->
             Walk ctx bucket prefix opts w =
             (spawn (WalkProducer ctx bucket prefix) w1, None)) /\
  (forall e, err = Some e -> is_NotImplemented e = false ->
             Walk ctx bucket prefix opts w = (w1, Some e)) /\
  (err = None -> Walk ctx bucket prefix opts w = (w1, None)) /\
  ((exists e, err = Some e /\ is_NotImplemented e = true) <->
   goroutines (fst (Walk ctx bucket prefix opts w)) =
   goroutines w1 ++ [WalkProducer ctx bucket prefix]) /\
  (forall fuel w2,
      run_goroutine fuel (WalkProducer ctx bucket prefix) w2 =
      walk_goroutine fuel ctx bucket prefix w2).
Proof.
  unfold Walk. destruct (ObjectLayer_Walk ctx bucket prefix opts w) as [w1 err].
  cbn [fst snd]. repeat split.
  - intros e -> He. now rewrite He.
  - intros e -> He. now rewrite He.
  - now intros ->.
  - intros (e & -> & He). now rewrite He.
  - assert (forall l : list Goroutine, l <> l ++ [WalkProducer ctx bucket prefix]) as Hne.
    { intros l E. apply (f_equal (@length _)) in E. rewrite length_app in E.
      simpl in E. lia. }
    destruct err as [e|]; [destruct (is_NotImplemented e) eqn:He|]; cbn.
    + eauto.
    + intros E. now apply Hne in E.
    + intros E. now apply Hne in E.
Qed.

(** C2. For every backend that answers the producer's calls (empty
    delimiter, [maxKeys] 0, first at the empty marker, then at the
    next-marker of the page before) with the truncated pages [pages] and
    then with the page [last] that is not truncated, none with an error,
    and for a context that is never cancelled: the producer, given a round
    per page, leaves its loop by the [break], has sent on the channel the
    objects of all the pages in page order and in the order within each
    page, and nothing else, has made exactly those calls, has logged
    nothing, and has closed the channel once. *)
Theorem walk_goroutine_delivers_all_pages
  (ctx : Context) (bucket prefix : string)
  (pages : list Page) (last : Page) (w : World') (fuel : nat) :
  serves (backend w) ctx bucket prefix "" pages (last, None) ->
  IsTruncated last = false ->
  (forall k, Done_fires ctx k = false) ->
  length (pages ++ [last]) <= fuel ->
  exists w',
    walk_goroutine fuel ctx bucket prefix w = Some (LoopBreak, w') /\
    results w' = mkChan (sent (results w) ++ all_objects (pages ++ [last]))
                        (S (closes (results w))) /\
    listed w' = listed w ++ calls_for bucket prefix "" (pages ++ [last]) /\
    logged w' = logged w /\
    goroutines w' = goroutines w.
Proof.
  intros Hs Htr Hq Hf. rewrite length_app in Hf. cbn [length] in Hf.
  replace fuel with (length pages + S (fuel - length pages - 1)) by lia.
  unfold walk_goroutine.
  rewrite (walk_loop_through ctx bucket prefix pages (last, None)) by
    (auto; intros j _; apply Hq).
  assert (snd (ObjectLayer_ListObjects (backend (through_pages ctx bucket prefix "" pages w))
                 ctx bucket prefix (marker_after "" pages) "" 0) = (last, None)) as HL.
  { now apply serves_final. }
  rewrite (walk_loop_last_page _ _ _ _ last) by (auto; intros j _; apply Hq).
  eexists. split; [reflexivity|]. cbn. repeat split.
  - unfold close, sends. cbn [sent closes]. f_equal.
    rewrite all_objects_app, all_objects_cons. unfold all_objects at 2. cbn.
    now rewrite app_nil_r, <- app_assoc.
  - rewrite calls_for_app. cbn. now rewrite <- app_assoc.
Qed.

(** C3. For every run of the producer over the pages a backend serves
    (as in C2) in which the context fires at the [select] that follows
    [K] sends, [K] below the number of objects of all the pages, and at
    none before: the producer returns from that [select], the channel
    holds the first [K] objects and none after them, nothing was logged,
    no call to [ListObjects] was made beyond a prefix of the calls of the
    full walk, and the channel was closed once. *)
Theorem walk_goroutine_stops_on_cancel
  (ctx : Context) (bucket prefix : string)
  (pages : list Page) (last : Page) (w : World') (fuel K : nat) :
  serves (backend w) ctx bucket prefix "" pages (last, None) ->
  K < length (all_objects (pages ++ [last])) ->
  (forall k, k < K -> Done_fires ctx k = false) ->
  Done_fires ctx K = true ->
  length (pages ++ [last]) <= fuel ->
  exists w',
    walk_goroutine fuel ctx bucket prefix w = Some (CtxDone, w') /\
    results w' = mkChan (sent (results w) ++ firstn K (all_objects (pages ++ [last])))
                        (S (closes (results w))) /\
    logged w' = logged w /\
    goroutines w' = goroutines w /\
    exists m, m <= length (pages ++ [last]) /\
      listed w' = listed w ++ firstn m (calls_for bucket prefix "" (pages ++ [last])).
Proof.
  intros Hs HK Hq Hd Hf. rewrite length_app in Hf. cbn [length] in Hf.
  destruct (walk_loop_fires ctx bucket prefix pages last "" 0 K
              (fuel - S (length pages)) w)
    as (w' & Hrun & Hres & Hlog & Hgo & m & Hm & Hli); auto.
  { intros j Hj. apply Hq. lia. }
  replace (S (length pages) + (fuel - S (length pages))) with fuel in Hrun by lia.
  unfold walk_goroutine. rewrite Hrun. eexists. split; [reflexivity|].
  cbn. rewrite Hres. repeat split; auto.
  exists m. split; auto. rewrite length_app. cbn. lia.
Qed.

(** C4. Every run of the producer that ends, by whichever exit (the
    [break], the [return] after a failing [ListObjects], the [return] on
    [ctx.Done()]), has closed the channel exactly once and has only
    appended objects to what the channel held; the error of a failing
    [ListObjects] is in the log and nowhere else, and the other exits log
    nothing.  And when the backend serves the truncated pages [pages] and
    then fails with [e], the context quiet meanwhile, the producer does
    end, by the error exit: the consumer finds the objects of [pages],
    then the channel closed, and [e] is the one error logged. *)
Theorem walk_goroutine_closes_once_on_every_exit
  (ctx : Context) (bucket prefix : string) :
  (forall (fuel : nat) (w w' : World') (x : exit_path),
      walk_goroutine fuel ctx bucket prefix w = Some (x, w') ->
      closes (results w') = S (closes (results w)) /\
      (exists items, sent (results w') = sent (results w) ++ items) /\
      logged w' = logged w ++ match x with ListError e => [e] | _ => [] end /\
      goroutines w' = goroutines w) /\
  (forall (pages : list Page) (loi : Page) (e : error)
          (fuel : nat) (w : World'),
      serves (backend w) ctx bucket prefix "" pages (loi, Some e) ->
      quiet ctx 0 (length (all_objects pages)) ->
      length pages < fuel ->
      exists w',
        walk_goroutine fuel ctx bucket prefix w = Some (ListError e, w') /\
        results w' = mkChan (sent (results w) ++ all_objects pages)
                            (S (closes (results w))) /\
        logged w' = logged w ++ [e] /\
        listed w' = listed w ++ calls_for bucket prefix "" pages ++
                    [mkListCall bucket prefix (marker_after "" pages) "" 0]).
Proof.
  split.
  - intros fuel w w' x. unfold walk_goroutine.
    destruct (walk_loop fuel ctx bucket prefix "" 0 w) as [[y w1]|] eqn:Hrun;
      [|discriminate].
    intros [= <- <-]. apply walk_loop_exit in Hrun.
    destruct Hrun as (Hc & Hi & Hl & Hg). cbn. rewrite Hc. auto.
  - intros pages loi e fuel w Hs Hq Hf.
    replace fuel with (length pages + S (fuel - length pages - 1)) by lia.
    unfold walk_goroutine.
    rewrite (walk_loop_through ctx bucket prefix pages (loi, Some e)) by auto.
    assert (snd (ObjectLayer_ListObjects (backend (through_pages ctx bucket prefix "" pages w))
                   ctx bucket prefix (marker_after "" pages) "" 0) = (loi, Some e)) as HL.
    { now apply serves_final. }
    rewrite (walk_loop_error _ _ _ _ loi e) by exact HL.
    eexists. split; [reflexivity|]. cbn. repeat split. now rewrite <- app_assoc.
Qed.

End Walk.

(** The walk over three pages, the context never cancelled. *)
Lemma walk_goroutine_delivers_all_pages_witness :
  exists w',
    walk_goroutine (inner := Paged.layer (Some NotImplemented)) 3
      Paged.background "bucket" "" (Paged.start Paged.three_pages)
    = Some (LoopBreak, w') /\
    results w' = mkChan ["a"; "b"; "c"; "d"; "e"]%string 1 /\
    listed w' = [mkListCall "bucket" "" "" "" 0; mkListCall "bucket" "" "b" "" 0;
                 mkListCall "bucket" "" "c" "" 0] /\
    logged w' = [] /\
    goroutines w' = [].
Proof.
  apply (walk_goroutine_delivers_all_pages (inner := Paged.layer (Some NotImplemented))
           Paged.background "bucket" ""
           [Paged.page1; Paged.page2] Paged.page3 (Paged.start Paged.three_pages) 3).
  - simpl. repeat split; reflexivity.
  - reflexivity.
  - reflexivity.
  - simpl. lia.
Defined.

(** The walk over the same pages, the context firing after three sends. *)
Lemma walk_goroutine_stops_on_cancel_witness :
  exists w',
    walk_goroutine (inner := Paged.layer (Some NotImplemented)) 3
      (Paged.cancelled_after 3) "bucket" "" (Paged.start Paged.three_pages)
    = Some (CtxDone, w') /\
    results w' = mkChan ["a"; "b"; "c"]%string 1 /\
    logged w' = [] /\
    goroutines w' = [] /\
    exists m, m <= 3 /\
      listed w' =
      firstn m [mkListCall "bucket" "" "" "" 0; mkListCall "bucket" "" "b" "" 0;
                mkListCall "bucket" "" "c" "" 0].
Proof.
  apply (walk_goroutine_stops_on_cancel (inner := Paged.layer (Some NotImplemented))
           (Paged.cancelled_after 3) "bucket" ""
           [Paged.page1; Paged.page2] Paged.page3 (Paged.start Paged.three_pages) 3 3).
  - simpl. repeat split; reflexivity.
  - simpl. lia.
  - intros k Hk. do 3 (destruct k as [|k]; [reflexivity|]). lia.
  - reflexivity.
  - simpl. lia.
Defined.

(** The three exits of the producer on the table backend, and a backend
    that truncates for ever, on which the loop does not end. *)
Example walk_goroutine_exits :
  walk_goroutine (inner := Paged.layer None) 3
    Paged.background "bucket" "" (Paged.start Paged.three_pages)
  = Some (LoopBreak,
          mkWorld Paged.three_pages (mkChan ["a"; "b"; "c"; "d"; "e"]%string 1) []
            [mkListCall "bucket" "" "" "" 0; mkListCall "bucket" "" "b" "" 0;
             mkListCall "bucket" "" "c" "" 0] []) /\
  walk_goroutine (inner := Paged.layer None) 3
    Paged.background "bucket" "" (Paged.start Paged.two_pages_then_error)
  = Some (ListError (ErrOther "connection reset"),
          mkWorld Paged.two_pages_then_error (mkChan ["a"; "b"; "c"]%string 1)
            [ErrOther "connection reset"]
            [mkListCall "bucket" "" "" "" 0; mkListCall "bucket" "" "b" "" 0;
             mkListCall "bucket" "" "c" "" 0] []) /\
  walk_goroutine (inner := Paged.layer None) 3
    (Paged.cancelled_after 1) "bucket" "" (Paged.start Paged.three_pages)
  = Some (CtxDone,
          mkWorld Paged.three_pages (mkChan ["a"]%string 1) []
            [mkListCall "bucket" "" "" "" 0] []) /\
  (forall fuel,
     walk_goroutine (inner := Paged.layer None) fuel
       Paged.background "bucket" "" (Paged.start Paged.endless)
     = None).
Proof.
  repeat split.
  intros fuel. unfold walk_goroutine.
  assert (forall k (w : World Paged.ObjectInfo Paged.Backend),
            backend w = Paged.endless ->
            walk_loop (inner := Paged.layer None) fuel
              Paged.background "bucket" "" "" k w = None) as H.
  { induction fuel as [|fuel IH]; intros k w Hw; [reflexivity|].
    destruct w as [b ch lg li g]. cbn in Hw. subst b. cbn. apply IH. reflexivity. }
  now rewrite H.
Qed.

(** The decorated walk over an inner layer with no native walk, over one
    whose native walk fails otherwise, and over one whose native walk
    succeeds. *)
Example Walk_runs :
  Walk (inner := Paged.layer (Some NotImplemented))
    Paged.background "bucket" "" tt (Paged.start Paged.three_pages)
  = (mkWorld Paged.three_pages (mkChan [] 0) [] []
       [WalkProducer Paged.background "bucket" ""], None) /\
  Walk (inner := Paged.layer (Some (ErrOther "timeout")))
    Paged.background "bucket" "" tt (Paged.start Paged.three_pages)
  = (Paged.start Paged.three_pages, Some (ErrOther "timeout")) /\
  Walk (inner := Paged.layer None)
    Paged.background "bucket" "" tt (Paged.start Paged.three_pages)
  = (Paged.start Paged.three_pages, None).
Proof. repeat split. Qed.

(** *** Every run of the producer, and the walk end to end *)

Section Runs.
Context {ObjectInfo ObjectOptions Backend : Type}.
Context {inner : ObjectLayer ObjectInfo ObjectOptions Backend}.

#[local] Abbreviation World' := (World ObjectInfo Backend).
#[local] Abbreviation Chan' := (Chan ObjectInfo).
#[local] Abbreviation Page := (ListObjectsInfo ObjectInfo).

(** What the push loop does, whatever the context: it sends the first [n]
    objects, and either reaches the end of the page or finds the context
    done at the [select] of object [n]. *)
Lemma push_objects_outcome (ctx : Context) (objs : list ObjectInfo) (k : nat) (ch : Chan') :
  exists n,
    push_objects ctx objs k ch =
      (sends ch (firstn n objs), k + n, (n <? length objs)%nat) /\
    n <= length objs /\
    quiet ctx k n /\
    (n < length objs -> Done_fires ctx (k + n) = true).
Proof.
  revert k ch; induction objs as [|obj rest IH]; intros k ch; cbn [push_objects].
  - exists 0. rewrite Nat.add_0_r. unfold sends; cbn. rewrite app_nil_r.
    repeat split; auto; try lia. + now destruct ch. + intros j Hj; lia.
  - destruct (Done_fires ctx k) eqn:Hd.
    + exists 0. rewrite Nat.add_0_r. unfold sends; cbn. rewrite app_nil_r.
      repeat split; auto; try lia. * now destruct ch. * intros j Hj; lia.
    + destruct (IH (S k) (send ch obj)) as (n & E & Hn & Hq & Hf). exists (S n).
      rewrite E. repeat split.
      * unfold sends, send; cbn. rewrite <- app_assoc. cbn.
        replace (k + S n) with (S (k + n)) by lia. reflexivity.
      * cbn; lia.
      * intros j Hj. destruct (Nat.eq_dec j k) as [->|]; auto. apply Hq. lia.
      * intros H. replace (k + S n) with (S k + n) by lia. apply Hf. cbn in H. lia.
Qed.

(** Every run of the loop that ends is explained by what the backend
    served. *)
Lemma walk_loop_sound (ctx : Context) (bucket prefix : string) :
  forall (fuel : nat) (marker : string) (k : nat) (w w' : World') (x : exit_path),
    walk_loop fuel ctx bucket prefix marker k w = Some (x, w') ->
    exists (pages : list Page) (final : Page * option error) (n : nat),
      serves (backend w) ctx bucket prefix marker pages final /\
      length pages < fuel /\
      listed w' = listed w ++ calls_for bucket prefix marker pages ++
                  [mkListCall bucket prefix (marker_after marker pages) "" 0] /\
      sent (results w') =
        sent (results w) ++ all_objects pages ++ firstn n (Objects (fst final)) /\
      quiet ctx k (length (all_objects pages) + n) /\
      match x with
      | ListError e => snd final = Some e /\ n = 0
      | LoopBreak =>
          snd final = None /\ IsTruncated (fst final) = false /\
          n = length (Objects (fst final))
      | CtxDone =>
          snd final = None /\ n < length (Objects (fst final)) /\
          Done_fires ctx (k + length (all_objects pages) + n) = true
      end.
Proof.
  induction fuel as [|fuel IH]; intros marker k w w' x; [discriminate|].
  cbn [walk_loop].
  destruct (ObjectLayer_ListObjects (backend w) ctx bucket prefix marker "" 0)
    as [b' [loi [e|]]] eqn:EL.
  - intros [= <- <-]. exists [], (loi, Some e), 0. cbn. rewrite EL. cbn.
    repeat split; auto; try lia. + now rewrite app_nil_r. + intros j Hj; lia.
  - destruct (push_objects_outcome ctx (Objects loi) k
                (results (record_call (mkListCall bucket prefix marker "" 0)
                                      (set_backend b' w)))) as (n & E & Hn & Hq & Hf).
    rewrite E. destruct (n <? length (Objects loi))%nat eqn:Hlt.
    + apply Nat.ltb_lt in Hlt.
      intros [= <- <-]. exists [], (loi, None), n. cbn. rewrite EL. cbn.
      repeat split; auto; try lia. rewrite Nat.add_0_r. auto.
    + apply Nat.ltb_ge in Hlt. assert (n = length (Objects loi)) as -> by lia.
      rewrite firstn_all in *.
      destruct (IsTruncated loi) eqn:Htr; cbn [negb].
      * intros Hrun. apply IH in Hrun.
        destruct Hrun as (pages & final & n & Hs & Hlen & Hli & Hse & Hq' & Hx).
        exists (loi :: pages), final, n. cbn [serves]. rewrite EL.
        repeat split; auto.
        -- cbn; lia.
        -- rewrite Hli. cbn. now rewrite <- app_assoc.
        -- rewrite Hse, all_objects_cons. cbn. now rewrite <- !app_assoc.
        -- rewrite all_objects_cons, length_app. intros j Hj.
           destruct (Nat.lt_ge_cases j (k + length (Objects loi))).
           ++ apply Hq. lia.
           ++ apply Hq'. lia.
        -- rewrite all_objects_cons, length_app.
           destruct x; auto. destruct Hx as (? & ? & Hd). repeat split; auto.
           now rewrite Nat.add_assoc.
      * intros [= <- <-]. exists [], (loi, None), (length (Objects loi)).
        cbn. rewrite EL. cbn. rewrite firstn_all. repeat split; auto; lia.
Qed.

(** X1. Every run of the producer that ends is explained by what the
    backend listed: there are truncated pages [pages] and a final answer
    [final] that the backend served along the markers, from the empty
    marker on; the calls made are the calls for these pages and the one
    that got [final], each with the empty delimiter and [maxKeys] 0; the
    channel holds, behind what it held, the objects of [pages] and then the
    first [n] objects of [final], in order, and was closed once.  On the
    error exit [final] carries the error and none of its objects was sent;
    on the [break] it is not truncated and all its objects were sent; on
    [ctx.Done()] the context fired at the [select] of its object [n]. *)
Theorem walk_goroutine_sends_what_was_listed
  (ctx : Context) (bucket prefix : string) (fuel : nat) (w w' : World') (x : exit_path) :
  walk_goroutine fuel ctx bucket prefix w = Some (x, w') ->
  exists (pages : list Page) (final : Page * option error) (n : nat),
    serves (backend w) ctx bucket prefix "" pages final /\
    listed w' = listed w ++ calls_for bucket prefix "" pages ++
                [mkListCall bucket prefix (marker_after "" pages) "" 0] /\
    sent (results w') =
      sent (results w) ++ all_objects pages ++ firstn n (Objects (fst final)) /\
    closes (results w') = S (closes (results w)) /\
    match x with
    | ListError e => snd final = Some e /\ n = 0
    | LoopBreak =>
        snd final = None /\ IsTruncated (fst final) = false /\
        n = length (Objects (fst final))
    | CtxDone =>
        snd final = None /\ n < length (Objects (fst final)) /\
        Done_fires ctx (length (all_objects pages) + n) = true
    end.
Proof.
  unfold walk_goroutine.
  destruct (walk_loop fuel ctx bucket prefix "" 0 w) as [[y w1]|] eqn:Hrun; [|discriminate].
  intros [= <- <-].
  pose proof (walk_loop_exit ctx bucket prefix _ _ _ _ _ _ Hrun) as (Hc & _).
  apply walk_loop_sound in Hrun.
  destruct Hrun as (pages & final & n & Hs & _ & Hli & Hse & _ & Hx).
  exists pages, final, n. cbn. rewrite Hc. repeat split; auto.
Qed.

(** The loop never ends on a backend that keeps answering with truncated
    pages. *)
Lemma walk_loop_endless (ctx : Context) (bucket prefix : string)
  (good : Backend -> string -> Prop) :
  (forall b marker,
      good b marker ->
      let '(b', (loi, err)) := ObjectLayer_ListObjects b ctx bucket prefix marker "" 0 in
      good b' (NextMarker loi) /\ err = None /\ IsTruncated loi = true) ->
  (forall k, Done_fires ctx k = false) ->
  forall fuel marker k (w : World'),
    good (backend w) marker -> walk_loop fuel ctx bucket prefix marker k w = None.
Proof.
  intros Hb Hq. induction fuel as [|fuel IH]; intros marker k w Hg; [reflexivity|].
  cbn [walk_loop]. specialize (Hb (backend w) marker Hg).
  destruct (ObjectLayer_ListObjects (backend w) ctx bucket prefix marker "" 0)
    as [b' [loi err]].
  destruct Hb as (Hg' & -> & Htr).
  rewrite push_objects_quiet by (intros j _; apply Hq).
  rewrite Htr. cbn [negb]. apply IH. exact Hg'.
Qed.

(** X2. The producer trusts the backend's [IsTruncated]: on a backend
    that answers every call of the walk with a truncated page and no error
    (an invariant [good] of the backend state and the marker is kept by
    every such call), under a context that is never cancelled, the loop
    does not end, whatever the number of rounds: the producer does not
    return, and the channel is never closed. *)
Theorem walk_goroutine_never_ends_on_endless_listing
  (ctx : Context) (bucket prefix : string) (good : Backend -> string -> Prop) (w : World') :
  (forall b marker,
      good b marker ->
      let '(b', (loi, err)) := ObjectLayer_ListObjects b ctx bucket prefix marker "" 0 in
      good b' (NextMarker loi) /\ err = None /\ IsTruncated loi = true) ->
  (forall k, Done_fires ctx k = false) ->
  good (backend w) "" ->
  forall fuel, walk_goroutine fuel ctx bucket prefix w = None.
Proof.
  intros Hb Hq Hg fuel. unfold walk_goroutine.
  now rewrite (walk_loop_endless ctx bucket prefix good Hb Hq).
Qed.

(** X3. Cancellation is only seen when an object is about to be sent:
    over pages that hold no object, the producer makes every call of the
    walk and leaves by the [break], whatever the context says, even one
    that is cancelled from the start; the channel is closed once and holds
    nothing new. *)
Theorem walk_goroutine_sees_no_cancel_on_empty_pages
  (ctx : Context) (bucket prefix : string)
  (pages : list Page) (last : Page) (w : World') (fuel : nat) :
  serves (backend w) ctx bucket prefix "" pages (last, None) ->
  IsTruncated last = false ->
  all_objects (pages ++ [last]) = [] ->
  length (pages ++ [last]) <= fuel ->
  exists w',
    walk_goroutine fuel ctx bucket prefix w = Some (LoopBreak, w') /\
    results w' = mkChan (sent (results w)) (S (closes (results w))) /\
    listed w' = listed w ++ calls_for bucket prefix "" (pages ++ [last]).
Proof.
  intros Hs Htr Hnil Hf. rewrite length_app in Hf. cbn [length] in Hf.
  rewrite all_objects_app in Hnil. apply app_eq_nil in Hnil. destruct Hnil as [Hp Hl].
  rewrite all_objects_cons in Hl. apply app_eq_nil in Hl. destruct Hl as [Hl _].
  replace fuel with (length pages + S (fuel - length pages - 1)) by lia.
  unfold walk_goroutine.
  rewrite (walk_loop_through ctx bucket prefix pages (last, None)) by
    (auto; rewrite Hp; intros j Hj; cbn in Hj; lia).
  assert (snd (ObjectLayer_ListObjects (backend (through_pages ctx bucket prefix "" pages w))
                 ctx bucket prefix (marker_after "" pages) "" 0) = (last, None)) as HL.
  { now apply serves_final. }
  rewrite (walk_loop_last_page _ _ _ _ last) by
    (auto; rewrite Hl; intros j Hj; cbn in Hj; lia).
  eexists. split; [reflexivity|]. cbn. rewrite Hp, Hl. split.
  - unfold close, sends. cbn. now rewrite !app_nil_r.
  - rewrite calls_for_app. cbn. now rewrite <- app_assoc.
Qed.

(** X4. The decorated [Walk] and the goroutine it starts, end to end:
    when the native walk fails with [NotImplemented] and the backend, in
    the state the native walk left, serves the truncated pages [pages] and
    then [last], not truncated, under a context that is never cancelled,
    [Walk] returns [nil] and has started one goroutine, and running that
    goroutine delivers the objects of all the pages in order, closes the
    channel once and logs nothing. *)
Theorem Walk_then_producer_delivers
  (ctx : Context) (bucket prefix : string) (opts : ObjectOptions) (w : World')
  (pages : list Page) (last : Page) (fuel : nat) :
  let w1 := fst (ObjectLayer_Walk ctx bucket prefix opts w) in
  snd (ObjectLayer_Walk ctx bucket prefix opts w) = Some NotImplemented ->
  serves (backend w1) ctx bucket prefix "" pages (last, None) ->
  IsTruncated last = false ->
  (forall k, Done_fires ctx k = false) ->
  length (pages ++ [last]) <= fuel ->
  exists g w2 w3,
    Walk ctx bucket prefix opts w = (w2, None) /\
    goroutines w2 = goroutines w1 ++ [g] /\
    run_goroutine fuel g w2 = Some (LoopBreak, w3) /\
    results w3 = mkChan (sent (results w1) ++ all_objects (pages ++ [last]))
                        (S (closes (results w1))) /\
    logged w3 = logged w1.
Proof.
  intros w1 Hn Hs Htr Hq Hf. subst w1. unfold Walk.
  destruct (ObjectLayer_Walk ctx bucket prefix opts w) as [w1 err]. cbn [fst snd] in *.
  subst err. cbn [is_NotImplemented]. unfold walk.
  exists (WalkProducer ctx bucket prefix), (spawn (WalkProducer ctx bucket prefix) w1).
  rewrite length_app in Hf. cbn [length] in Hf.
  set (w2 := spawn _ w1).
  assert (backend w2 = backend w1) as Hb by reflexivity.
  cbn [run_goroutine]. unfold walk_goroutine.
  replace fuel with (length pages + S (fuel - length pages - 1)) by lia.
  rewrite (walk_loop_through ctx bucket prefix pages (last, None)) by
    (auto; intros j _; apply Hq).
  assert (snd (ObjectLayer_ListObjects (backend (through_pages ctx bucket prefix "" pages w2))
                 ctx bucket prefix (marker_after "" pages) "" 0) = (last, None)) as HL.
  { apply serves_final. now rewrite Hb. }
  rewrite (walk_loop_last_page _ _ _ _ last) by (auto; intros j _; apply Hq).
  eexists. split; [reflexivity|]. split; [reflexivity|]. split; [reflexivity|].
  cbn. split; auto. unfold close, sends. cbn [sent closes]. f_equal.
  rewrite all_objects_app, all_objects_cons. unfold all_objects at 2. cbn.
  now rewrite app_nil_r, <- app_assoc.
Qed.

End Runs.

(** The walk over three pages explains itself. *)
Lemma walk_goroutine_sends_what_was_listed_witness :
  exists (pages : list Paged.Page) (final : Paged.Page * option error) (n : nat),
    serves (inner := Paged.layer None) Paged.three_pages Paged.background
      "bucket" "" "" pages final /\
    [mkListCall "bucket" "" "" "" 0; mkListCall "bucket" "" "b" "" 0;
     mkListCall "bucket" "" "c" "" 0] =
    [] ++ calls_for "bucket" "" "" pages ++
    [mkListCall "bucket" "" (marker_after "" pages) "" 0] /\
    ["a"; "b"; "c"; "d"; "e"]%string =
    [] ++ all_objects pages ++ firstn n (Objects (fst final)) /\
    1 = 1 /\
    snd final = None /\ IsTruncated (fst final) = false /\
    n = length (Objects (fst final)).
Proof.
  apply (walk_goroutine_sends_what_was_listed (inner := Paged.layer None)
           Paged.background "bucket" "" 3 (Paged.start Paged.three_pages)
           (mkWorld Paged.three_pages (mkChan ["a"; "b"; "c"; "d"; "e"]%string 1) []
              [mkListCall "bucket" "" "" "" 0; mkListCall "bucket" "" "b" "" 0;
               mkListCall "bucket" "" "c" "" 0] [])
           LoopBreak).
  reflexivity.
Defined.

(** The page that gives its own marker again. *)
Lemma walk_goroutine_never_ends_on_endless_listing_witness :
  walk_goroutine (inner := Paged.layer None) 1000 Paged.background "bucket" ""
    (Paged.start Paged.endless) = None.
Proof.
  apply (walk_goroutine_never_ends_on_endless_listing (inner := Paged.layer None)
           Paged.background "bucket" ""
           (fun b marker => b = Paged.endless /\ marker = ""%string)
           (Paged.start Paged.endless)).
  - intros b marker [-> ->]. cbn. auto.
  - reflexivity.
  - split; reflexivity.
Defined.

(** Two pages without objects, under a context cancelled from the start. *)
Lemma walk_goroutine_sees_no_cancel_on_empty_pages_witness :
  exists w',
    walk_goroutine (inner := Paged.layer None) 2 (Paged.cancelled_after 0) "bucket" ""
      (Paged.start Paged.empty_pages) = Some (LoopBreak, w') /\
    results w' = mkChan [] 1 /\
    listed w' = [mkListCall "bucket" "" "" "" 0; mkListCall "bucket" "" "m" "" 0].
Proof.
  apply (walk_goroutine_sees_no_cancel_on_empty_pages (inner := Paged.layer None)
           (Paged.cancelled_after 0) "bucket" ""
           [mkListObjectsInfo true "m" [] []] (mkListObjectsInfo false "" [] [])
           (Paged.start Paged.empty_pages) 2).
  - simpl. repeat split; reflexivity.
  - reflexivity.
  - reflexivity.
  - simpl. lia.
Defined.

(** The decorated walk over a layer without native walk, and its
    goroutine. *)
Lemma Walk_then_producer_delivers_witness :
  exists g w2 w3,
    Walk (inner := Paged.layer (Some NotImplemented)) Paged.background "bucket" "" tt
      (Paged.start Paged.three_pages) = (w2, None) /\
    goroutines w2 = [] ++ [g] /\
    run_goroutine (inner := Paged.layer (Some NotImplemented)) 3 g w2 =
      Some (LoopBreak, w3) /\
    results w3 = mkChan ["a"; "b"; "c"; "d"; "e"]%string 1 /\
    logged w3 = [].
Proof.
  apply (Walk_then_producer_delivers (inner := Paged.layer (Some NotImplemented))
           Paged.background "bucket" "" tt (Paged.start Paged.three_pages)
           [Paged.page1; Paged.page2] Paged.page3 3).
  - reflexivity.
  - simpl. repeat split; reflexivity.
  - reflexivity.
  - reflexivity.
  - simpl. lia.
Defined.

End WalkFacts.

(* ===================================================================== *)
(** ** What the command-not-found handler suggests *)
(* ===================================================================== *)

Module SuggestFacts.
Import Suggest.
Local Open Scope list_scope.

Lemma In_insert_sorted (v x : string) (l : list string) :
  In v (insert_sorted x l) <-> v = x \/ In v l.
Proof.
  induction l as [|y l IH]; cbn.
  - intuition auto.
  - destruct (x <=? y)%string; cbn; rewrite ?IH; intuition auto.
Qed.

(** The loop of [sort.Search] gives the same index with any bound that is
    at least [j - i]: the bound [n] of [sort_Search] does not cut it
    short. *)
Lemma Search_loop_fuel (f : nat -> bool) :
  forall fuel fuel' i j,
    j - i <= fuel -> j - i <= fuel' ->
    Search_loop fuel f i j = Search_loop fuel' f i j.
Proof.
  induction fuel as [|fuel IH]; intros [|fuel'] i j H H'; cbn [Search_loop]; auto.
  - destruct (i <? j)%nat eqn:E; auto. apply Nat.ltb_lt in E. lia.
  - destruct (i <? j)%nat eqn:E; auto. apply Nat.ltb_lt in E. lia.
  - destruct (i <? j)%nat eqn:E; auto. apply Nat.ltb_lt in E.
    assert (i <= (i + j) / 2 < j) as Hh.
    { split; [apply Nat.div_le_lower_bound|apply Nat.Div0.div_lt_upper_bound]; lia. }
    destruct (f ((i + j) / 2)); cbn [negb]; apply IH; lia.
Qed.

(** Sorting keeps the strings. *)
Lemma In_sort_Strings (v : string) (a : list string) :
  In v (sort_Strings a) <-> In v a.
Proof.
  induction a as [|x a IH]; cbn; [reflexivity|].
  rewrite In_insert_sorted, IH. intuition auto.
Qed.

Lemma insert_sorted_Sorted (x : string) (l : list string) :
  Sorted (fun x y => (x <=? y)%string = true) l ->
  Sorted (fun x y => (x <=? y)%string = true) (insert_sorted x l).
Proof.
  induction l as [|y l IHl]; intros Hs; cbn.
  - repeat constructor.
  - destruct (x <=? y)%string eqn:E.
    + constructor; auto.
    + inversion Hs as [|? ? Hs' Hhd]; subst. constructor; auto.
      destruct l as [|z l]; cbn in *.
      * constructor. destruct (String.leb_total x y); congruence.
      * destruct (x <=? z)%string; constructor.
        -- destruct (String.leb_total x y); congruence.
        -- now inversion Hhd.
Qed.

(** Sorting puts them in increasing order. *)
Lemma sort_Strings_Sorted (a : list string) :
  Sorted (fun x y => (x <=? y)%string = true) (sort_Strings a).
Proof.
  induction a as [|x a IH]; [constructor|].
  change (sort_Strings (x :: a)) with (insert_sorted x (sort_Strings a)).
  now apply insert_sorted_Sorted.
Qed.

Section Suggestions.
Variable Commands : list string.
Variable PrefixMatch : string -> list string.
Variable Walk_Root : list string.
Variable DamerauLevenshteinDistance : string -> string -> Z.

(** The loop only adds values of the walk that are within the distance. *)
Lemma closest_range_In (command s : string) (values closestCommands : list string) :
  In s (closest_range DamerauLevenshteinDistance command values closestCommands) ->
  In s closestCommands \/
  (In s values /\ (DamerauLevenshteinDistance command s < 2)%Z).
Proof.
  revert closestCommands; induction values as [|value rest IH]; intros acc;
    cbn [closest_range In]; auto.
  destruct (SearchStrings acc value <? length acc)%nat.
  - intros H. destruct (IH _ H) as [?|[? ?]]; auto.
  - destruct (DamerauLevenshteinDistance command value <? 2)%Z eqn:E.
    + intros H. destruct (IH _ H) as [Hin|[? ?]]; auto.
      apply in_app_or in Hin. destruct Hin as [?|[<-|[]]]; auto.
      right. split; auto. now apply Z.ltb_lt.
    + intros H. destruct (IH _ H) as [?|[? ?]]; auto.
Qed.

(** A suggestion is a prefix match or a value of the walk within the
    distance. *)
Lemma findClosestCommands_In (command s : string) :
  In s (findClosestCommands PrefixMatch Walk_Root DamerauLevenshteinDistance command) ->
  In s (PrefixMatch command) \/
  (In s Walk_Root /\ (DamerauLevenshteinDistance command s < 2)%Z).
Proof.
  unfold findClosestCommands. intros H. apply closest_range_In in H.
  destruct H as [H|H]; auto. left. apply (proj1 (In_sort_Strings _ _)) in H. exact H.
Qed.

(** What the trie holds: the walk from the root gives registered
    commands, and a prefix match gives registered commands that start with
    the key. *)
Hypothesis Walk_Root_registered : forall v, In v Walk_Root -> In v Commands.
Hypothesis PrefixMatch_registered :
  forall key v, In v (PrefixMatch key) -> In v Commands /\ prefix key v = true.

(** C8, as the code has it.  For every sub-command typed that is not
    known: each suggestion that the handler prints is a registered command
    that either starts with the typed command or is within distance 1 of
    it; and the handler exits with status 1. *)
Theorem CommandNotFound_suggestions (command s : string) :
  let (printed, status) :=
    CommandNotFound PrefixMatch Walk_Root DamerauLevenshteinDistance command in
  (In (Suggestion s) printed ->
   In s Commands /\
   (prefix command s = true \/ (DamerauLevenshteinDistance command s <= 1)%Z)) /\
  status = 1%Z /\ status <> 0%Z.
Proof.
  unfold CommandNotFound. split; [|split; [reflexivity|discriminate]].
  intros [H|H]; [discriminate|].
  destruct (0 <? length _)%nat; [|contradiction].
  destruct H as [H|[H|H]]; try discriminate.
  apply in_map_iff in H. destruct H as (x & [= ->] & Hx).
  apply findClosestCommands_In in Hx. destruct Hx as [Hx|[Hx Hd]].
  - apply PrefixMatch_registered in Hx. tauto.
  - split; [auto|right; lia].
Qed.
End Suggestions.

Lemma KeyList_Walk_Root (t : KeyList.Trie) :
  forall v, In v (KeyList.Walk_Root t) -> In v t.
Proof. auto. Qed.

Lemma KeyList_PrefixMatch (t : KeyList.Trie) :
  forall key v, In v (KeyList.PrefixMatch t key) -> In v t /\ prefix key v = true.
Proof. intros key v H. now apply filter_In in H. Qed.

(** The handler on a transposed name, over the registered gateways. *)
Lemma CommandNotFound_suggestions_witness :
  In (Suggestion "nas")
     (fst (CommandNotFound (KeyList.PrefixMatch gateways) (KeyList.Walk_Root gateways)
             Words.DamerauLevenshteinDistance "nsa")) /\
  let (printed, status) :=
    CommandNotFound (KeyList.PrefixMatch gateways) (KeyList.Walk_Root gateways)
      Words.DamerauLevenshteinDistance "nsa" in
  (In (Suggestion "nas") printed ->
   In "nas"%string gateways /\
   (prefix "nsa" "nas" = true \/
    (Words.DamerauLevenshteinDistance "nsa" "nas" <= 1)%Z)) /\
  status = 1%Z /\ status <> 0%Z.
Proof.
  split.
  - vm_compute. auto 10.
  - exact (CommandNotFound_suggestions gateways (KeyList.PrefixMatch gateways)
             (KeyList.Walk_Root gateways) Words.DamerauLevenshteinDistance
             (KeyList_Walk_Root gateways) (KeyList_PrefixMatch gateways) "nsa" "nas").
Defined.

(** C8, as the specification states it, fails: typing n gets the
    suggestion nas, which starts with n and is at distance 2 of it. *)
Lemma CommandNotFound_suggests_far_prefix_match :
  ~ (forall s,
       In (Suggestion s)
          (fst (CommandNotFound (KeyList.PrefixMatch gateways) (KeyList.Walk_Root gateways)
                  Words.DamerauLevenshteinDistance "n")) ->
       In s gateways /\ (Words.DamerauLevenshteinDistance "n" s <= 1)%Z).
Proof.
  intros H. destruct (H "nas"%string) as [_ Hd].
  - cbn. auto.
  - vm_compute in Hd. now apply Hd.
Qed.

(** *** The order of Go strings *)

Lemma ascii_compare_refl (a : ascii) : Ascii.compare a a = Eq.
Proof. unfold Ascii.compare. apply N.compare_refl. Qed.

Lemma ascii_compare_lt_trans (a b c : ascii) :
  Ascii.compare a b = Lt -> Ascii.compare b c = Lt -> Ascii.compare a c = Lt.
Proof. unfold Ascii.compare. rewrite !N.compare_lt_iff. apply N.lt_trans. Qed.

Lemma compare_refl (s : string) : String.compare s s = Eq.
Proof. induction s as [|a s IH]; cbn; auto. now rewrite ascii_compare_refl. Qed.

Lemma compare_lt_trans (a b c : string) :
  String.compare a b = Lt -> String.compare b c = Lt -> String.compare a c = Lt.
Proof.
  revert b c; induction a as [|x a IH]; intros [|y b] [|z c]; cbn; try discriminate; auto.
  destruct (Ascii.compare x y) eqn:Exy; try discriminate.
  - apply Ascii.compare_eq_iff in Exy. subst y.
    destruct (Ascii.compare x z); try discriminate; auto. apply IH.
  - intros _. destruct (Ascii.compare y z) eqn:Eyz; try discriminate.
    + apply Ascii.compare_eq_iff in Eyz. subst z. now rewrite Exy.
    + now rewrite (ascii_compare_lt_trans _ _ _ Exy Eyz).
Qed.

Lemma leb_refl (s : string) : (s <=? s)%string = true.
Proof. unfold String.leb. now rewrite compare_refl. Qed.

Lemma ltb_leb (a b : string) : (a <? b)%string = true -> (a <=? b)%string = true.
Proof. unfold String.ltb, String.leb. now destruct (String.compare a b). Qed.

Lemma ltb_irrefl (s : string) : (s <? s)%string = false.
Proof. unfold String.ltb. now rewrite compare_refl. Qed.

(** [!(a <= b)] is [b < a]. *)
Lemma leb_false_ltb (a b : string) : (a <=? b)%string = false -> (b <? a)%string = true.
Proof.
  unfold String.leb, String.ltb. rewrite (String.compare_antisym a b).
  now destruct (String.compare b a).
Qed.

Lemma leb_ltb_trans (a b c : string) :
  (a <=? b)%string = true -> (b <? c)%string = true -> (a <? c)%string = true.
Proof.
  unfold String.leb, String.ltb.
  destruct (String.compare a b) eqn:Eab; try discriminate; intros _.
  - apply String.compare_eq_iff in Eab. now subst.
  - destruct (String.compare b c) eqn:Ebc; try discriminate; intros _.
    now rewrite (compare_lt_trans _ _ _ Eab Ebc).
Qed.

Lemma leb_trans (a b c : string) :
  (a <=? b)%string = true -> (b <=? c)%string = true -> (a <=? c)%string = true.
Proof.
  intros Hab Hbc. unfold String.leb in Hbc.
  destruct (String.compare b c) eqn:Ebc; try discriminate.
  - apply String.compare_eq_iff in Ebc. now subst.
  - apply ltb_leb. apply (leb_ltb_trans a b c); auto.
    unfold String.ltb. now rewrite Ebc.
Qed.

#[local] Abbreviation increasing := (Sorted (fun x y => (x <=? y)%string = true)).

(** In a list in increasing order, the last element is the greatest. *)
Lemma increasing_last (l : list string) (a p : string) :
  increasing (l ++ [a]) -> In p (l ++ [a]) -> (p <=? a)%string = true.
Proof.
  revert p; induction l as [|x l IH]; cbn; intros p Hs Hin.
  - destruct Hin as [<-|[]]. apply leb_refl.
  - inversion Hs as [|? ? Hs' Hhd]; subst. destruct Hin as [<-|Hin]; [|auto].
    destruct l as [|y l].
    + now inversion Hhd.
    + inversion Hhd; subst. apply (leb_trans x y a); auto.
      apply IH; auto. now left.
Qed.

Lemma increasing_snoc (l : list string) (v : string) :
  increasing l -> (forall p, In p l -> (p <=? v)%string = true) -> increasing (l ++ [v]).
Proof.
  induction l as [|x l IH]; cbn; intros Hs Hv.
  - repeat constructor.
  - inversion Hs as [|? ? Hs' Hhd]; subst. constructor.
    + apply IH; auto.
    + destruct l as [|y l]; cbn; constructor; auto. now inversion Hhd.
Qed.

(** *** What [sort.Search] returns *)

(** The index [sort.Search] returns lies in the range, [f] is false just
    before it and true at it. *)
Lemma Search_loop_spec (f : nat -> bool) :
  forall fuel i j,
    i <= j -> j - i <= fuel ->
    i <= Search_loop fuel f i j <= j /\
    (i < Search_loop fuel f i j -> f (Search_loop fuel f i j - 1) = false) /\
    (Search_loop fuel f i j < j -> f (Search_loop fuel f i j) = true).
Proof.
  induction fuel as [|fuel IH]; intros i j Hij Hf; cbn [Search_loop].
  - repeat split; lia.
  - destruct (i <? j)%nat eqn:E; [|apply Nat.ltb_ge in E; repeat split; lia].
    apply Nat.ltb_lt in E.
    assert (i <= (i + j) / 2 < j) as Hh.
    { split; [apply Nat.div_le_lower_bound|apply Nat.Div0.div_lt_upper_bound]; lia. }
    set (h := (i + j) / 2) in *.
    destruct (f h) eqn:Efh; cbn [negb].
    + destruct (IH i h) as (Hr & Hlo & Hhi); try lia.
      repeat split; try lia; auto.
      intros Hlt. destruct (Nat.eq_dec (Search_loop fuel f i h) h) as [->|Hne]; auto.
      apply Hhi. lia.
    + destruct (IH (h + 1) j) as (Hr & Hlo & Hhi); try lia.
      repeat split; try lia; auto.
      intros Hlt. destruct (Nat.eq_dec (Search_loop fuel f (h + 1) j) (h + 1)) as [->|Hne].
      * now replace (h + 1 - 1) with h by lia.
      * apply Hlo. lia.
Qed.

(** The test [sort.SearchStrings(a, x) < len(a)] holds only when some
    element of [a] is at least [x]. *)
Lemma SearchStrings_below (a : list string) (x : string) :
  (SearchStrings a x <? length a)%nat = true ->
  exists u, In u a /\ (x <=? u)%string = true.
Proof.
  intros H. apply Nat.ltb_lt in H. unfold SearchStrings, sort_Search in *.
  destruct (Search_loop_spec (fun i => (x <=? nth i a EmptyString)%string)
              (length a) 0 (length a)) as (_ & _ & Hhi); try lia.
  exists (nth (Search_loop (length a) (fun i => (x <=? nth i a "")%string) 0 (length a))
            a EmptyString).
  split; [now apply nth_In|now apply Hhi].
Qed.

(** The test fails on a list in increasing order only when [x] is above
    every element. *)
Lemma SearchStrings_above (a : list string) (x : string) :
  increasing a ->
  (SearchStrings a x <? length a)%nat = false ->
  forall p, In p a -> (p <? x)%string = true.
Proof.
  intros Hs H p Hp. apply Nat.ltb_ge in H. unfold SearchStrings, sort_Search in *.
  destruct (Search_loop_spec (fun i => (x <=? nth i a EmptyString)%string)
              (length a) 0 (length a)) as (Hr & Hlo & _); try lia.
  destruct (exists_last (l := a)) as (l & z & ->); [intros ->; contradiction|].
  rewrite length_app in *. cbn [length] in *.
  assert (Search_loop (length l + 1) (fun i => (x <=? nth i (l ++ [z]) "")%string) 0
            (length l + 1) = length l + 1) as E by lia.
  rewrite E in Hlo. replace (length l + 1 - 1) with (length l) in Hlo by lia.
  rewrite app_nth2, Nat.sub_diag in Hlo by lia. cbn [nth] in Hlo.
  apply (leb_ltb_trans p z x).
  - now apply (increasing_last l).
  - apply leb_false_ltb. apply Hlo. lia.
Qed.

Section Order.
Variable PrefixMatch : string -> list string.
Variable Walk_Root : list string.
Variable DamerauLevenshteinDistance : string -> string -> Z.

#[local] Abbreviation range := (closest_range DamerauLevenshteinDistance).
#[local] Abbreviation find := (findClosestCommands PrefixMatch Walk_Root DamerauLevenshteinDistance).

(** The loop keeps what the list holds and appends behind it; on a list
    in increasing order every value it appends is a value of the walk
    within the distance and above everything the list held before, and
    the list stays in increasing order. *)
Lemma closest_range_shape (command : string) (values : list string) :
  forall closestCommands,
    increasing closestCommands ->
    exists added,
      range command values closestCommands = closestCommands ++ added /\
      increasing (closestCommands ++ added) /\
      Forall (fun v => In v values /\ (DamerauLevenshteinDistance command v < 2)%Z /\
                       forall p, In p closestCommands -> (p <? v)%string = true) added /\
      (NoDup closestCommands -> NoDup (closestCommands ++ added)).
Proof.
  induction values as [|value rest IH]; intros acc Hs; cbn [closest_range].
  - exists []. rewrite app_nil_r. auto.
  - assert (forall added acc',
              Forall (fun v => In v rest /\ (DamerauLevenshteinDistance command v < 2)%Z /\
                               forall p, In p acc' -> (p <? v)%string = true) added ->
              (forall p, In p acc -> In p acc') ->
              Forall (fun v => In v (value :: rest) /\
                               (DamerauLevenshteinDistance command v < 2)%Z /\
                               forall p, In p acc -> (p <? v)%string = true) added) as Hweak.
    { intros added acc' H Hsub. eapply Forall_impl; [|exact H].
      cbn. intros v (? & ? & Hv). repeat split; auto. }
    destruct (SearchStrings acc value <? length acc)%nat eqn:Eg.
    + destruct (IH acc Hs) as (added & E & Hs' & Hall & Hnd).
      exists added. repeat split; auto. eapply Hweak; eauto.
    + pose proof (SearchStrings_above acc value Hs Eg) as Habove.
      destruct (DamerauLevenshteinDistance command value <? 2)%Z eqn:Ed.
      * destruct (IH (acc ++ [value])) as (added & E & Hs' & Hall & Hnd).
        { apply increasing_snoc; auto. intros p Hp. apply ltb_leb. auto. }
        exists (value :: added). rewrite <- app_assoc in *. cbn [app] in *.
        repeat split; auto.
        -- constructor.
           ++ repeat split; cbn; auto. now apply Z.ltb_lt.
           ++ eapply Hweak; eauto. intros p Hp. apply in_or_app. now left.
        -- intros Ha. apply Hnd.
           apply NoDup_app; auto.
           ++ repeat constructor. intros [].
           ++ intros p Hp [<-|[]]. specialize (Habove _ Hp).
              now rewrite ltb_irrefl in Habove.
      * destruct (IH acc Hs) as (added & E & Hs' & Hall & Hnd).
        exists added. repeat split; auto. eapply Hweak; eauto.
Qed.

(** The loop drops nothing. *)
Lemma closest_range_keeps (command s : string) (values : list string) :
  forall closestCommands,
    In s closestCommands -> In s (range command values closestCommands).
Proof.
  induction values as [|value rest IH]; intros acc Hin; cbn [closest_range]; auto.
  destruct (SearchStrings acc value <? length acc)%nat; auto.
  destruct (DamerauLevenshteinDistance command value <? 2)%Z; auto.
  apply IH. apply in_or_app. now left.
Qed.

(** A value of the walk within the distance is in the list after the
    loop, unless the list held an element at least as great when the loop
    came to it. *)
Lemma closest_range_complete (command v : string) (values : list string) :
  forall closestCommands,
    In v values -> (DamerauLevenshteinDistance command v < 2)%Z ->
    In v (range command values closestCommands) \/
    exists u, In u (range command values closestCommands) /\ (v <=? u)%string = true.
Proof.
  induction values as [|value rest IH]; intros acc Hin Hd; [contradiction|].
  cbn [closest_range]. destruct Hin as [->|Hin].
  - destruct (SearchStrings acc v <? length acc)%nat eqn:Eg.
    + right. apply SearchStrings_below in Eg. destruct Eg as (u & Hu & Hle).
      exists u. split; auto. now apply closest_range_keeps.
    + apply Z.ltb_lt in Hd. rewrite Hd. left. apply closest_range_keeps.
      apply in_or_app. right. now left.
  - destruct (SearchStrings acc value <? length acc)%nat; auto.
    destruct (DamerauLevenshteinDistance command value <? 2)%Z; auto.
Qed.

Lemma insert_sorted_NoDup (x : string) (l : list string) :
  ~ In x l -> NoDup l -> NoDup (insert_sorted x l).
Proof.
  induction l as [|y l IH]; cbn; intros Hx Hnd.
  - repeat constructor. intros [].
  - destruct (x <=? y)%string; [constructor; auto|].
    inversion Hnd; subst. constructor.
    + rewrite In_insert_sorted. intros [->|?]; auto.
    + apply IH; auto.
Qed.

Lemma sort_Strings_NoDup (a : list string) : NoDup a -> NoDup (sort_Strings a).
Proof.
  induction a as [|x a IH]; cbn; intros H; [constructor|].
  inversion H; subst. apply insert_sorted_NoDup; auto. now rewrite In_sort_Strings.
Qed.

Lemma findClosestCommands_shape (command : string) :
  exists added,
    find command = sort_Strings (PrefixMatch command) ++ added /\
    increasing (find command) /\
    Forall (fun v => In v Walk_Root /\ (DamerauLevenshteinDistance command v < 2)%Z /\
                     forall p, In p (PrefixMatch command) -> (p <? v)%string = true) added /\
    (NoDup (PrefixMatch command) -> NoDup (find command)).
Proof.
  unfold findClosestCommands. cbn [app].
  destruct (closest_range_shape command Walk_Root (sort_Strings (PrefixMatch command))
              (sort_Strings_Sorted _)) as (added & E & Hs & Hall & Hnd).
  exists added. rewrite E. repeat split; auto.
  - eapply Forall_impl; [|exact Hall]. cbn. intros v (? & ? & Hv). repeat split; auto.
    intros p Hp. apply Hv. now apply In_sort_Strings.
  - intros H. apply Hnd. now apply sort_Strings_NoDup.
Qed.

(** X10. Every command that starts with what was typed is suggested:
    the list of [findClosestCommands] starts with the prefix matches, in
    increasing order, and the handler prints each of them; what follows
    them in the list are values of the walk within the distance. *)
Theorem CommandNotFound_prefix_matches_first (command : string) :
  exists others,
    find command = sort_Strings (PrefixMatch command) ++ others /\
    Forall (fun v => In v Walk_Root /\ (DamerauLevenshteinDistance command v < 2)%Z)
      others /\
    forall s,
      In s (PrefixMatch command) ->
      In (Suggestion s)
         (fst (CommandNotFound PrefixMatch Walk_Root DamerauLevenshteinDistance command)).
Proof.
  destruct (findClosestCommands_shape command) as (added & E & _ & Hall & _).
  exists added. split; [exact E|]. split.
  - eapply Forall_impl; [|exact Hall]. cbn. tauto.
  - intros s Hs. unfold CommandNotFound. cbn [fst]. right.
    assert (In s (find command)) as Hin.
    { rewrite E. apply in_or_app. left. now apply In_sort_Strings. }
    destruct (find command) as [|x l] eqn:Ef; [contradiction|].
    cbn [length Nat.ltb Nat.leb]. right. right. now apply in_map.
Qed.

(** X11. The suggestions are in increasing order, and no command is
    suggested twice when the prefix matches hold none twice. *)
Theorem findClosestCommands_increasing (command : string) :
  Sorted (fun x y => (x <=? y)%string = true) (find command) /\
  (NoDup (PrefixMatch command) -> NoDup (find command)).
Proof.
  destruct (findClosestCommands_shape command) as (added & _ & Hs & _ & Hnd). auto.
Qed.

(** X12. A command that sorts at or below a prefix match and is not a
    prefix match itself is not suggested, whatever its distance to what was
    typed: the test [sort.SearchStrings(closestCommands, value) <
    len(closestCommands)] skips every value that is not above all the
    suggestions so far. *)
Theorem findClosestCommands_skips_what_sorts_below (command v p : string) :
  In p (PrefixMatch command) ->
  (v <=? p)%string = true ->
  ~ In v (PrefixMatch command) ->
  ~ In v (find command).
Proof.
  intros Hp Hle Hv Hin.
  destruct (findClosestCommands_shape command) as (added & E & _ & Hall & _).
  rewrite E in Hin. apply in_app_or in Hin. destruct Hin as [Hin|Hin].
  - apply Hv. now apply In_sort_Strings.
  - rewrite Forall_forall in Hall. destruct (Hall _ Hin) as (_ & _ & Habove).
    specialize (Habove _ Hp).
    assert ((v <? v)%string = true) as H by (eapply leb_ltb_trans; eauto).
    now rewrite ltb_irrefl in H.
Qed.

(** X13. A value of the walk within the distance is suggested, unless a
    suggestion above it exists. *)
Theorem findClosestCommands_complete (command v : string) :
  In v Walk_Root ->
  (DamerauLevenshteinDistance command v < 2)%Z ->
  In v (find command) \/
  exists u, In u (find command) /\ (v <? u)%string = true.
Proof.
  intros Hin Hd. unfold findClosestCommands.
  destruct (closest_range_complete command v Walk_Root
              (sort_Strings ([] ++ PrefixMatch command)) Hin Hd) as [H|(u & Hu & Hle)]; auto.
  unfold String.leb in Hle. destruct (String.compare v u) eqn:Ec; try discriminate.
  - apply String.compare_eq_iff in Ec. subst u. now left.
  - right. exists u. split; auto. unfold String.ltb. now rewrite Ec.
Qed.

End Order.

(** With the commands ma and nas, typing na: ma is at distance 1 and
    sorts below the prefix match nas. *)
Lemma findClosestCommands_skips_what_sorts_below_witness :
  Words.DamerauLevenshteinDistance "na" "ma" = 1%Z /\
  ~ In "ma"%string
      (findClosestCommands (KeyList.PrefixMatch near_names) (KeyList.Walk_Root near_names)
         Words.DamerauLevenshteinDistance "na").
Proof.
  split; [reflexivity|].
  apply (findClosestCommands_skips_what_sorts_below (KeyList.PrefixMatch near_names)
           (KeyList.Walk_Root near_names) Words.DamerauLevenshteinDistance
           "na" "ma" "nas").
  - cbn. auto.
  - reflexivity.
  - cbn. intros [H|[]]. discriminate.
Defined.

(** With the gateways, typing nsa: nas is at distance 1. *)
Lemma findClosestCommands_complete_witness :
  In "nas"%string
     (findClosestCommands (KeyList.PrefixMatch gateways) (KeyList.Walk_Root gateways)
        Words.DamerauLevenshteinDistance "nsa") \/
  exists u,
    In u (findClosestCommands (KeyList.PrefixMatch gateways) (KeyList.Walk_Root gateways)
            Words.DamerauLevenshteinDistance "nsa") /\
    ("nas" <? u)%string = true.
Proof.
  apply (findClosestCommands_complete (KeyList.PrefixMatch gateways)
           (KeyList.Walk_Root gateways) Words.DamerauLevenshteinDistance "nsa" "nas").
  - cbn. auto.
  - vm_compute. reflexivity.
Defined.

End SuggestFacts.

(* ===================================================================== *)
(** ** The order of the events of [StartGateway] *)
(* ===================================================================== *)

Module BootstrapFacts.
Import Bootstrap.
Local Open Scope list_scope.

Ltac unfold_M :=
  unfold FatalIf, Fatal, when, bind, ret,
    exit, emit, get, set_GlobalEtcdClient, set_GlobalIsGateway, set_GlobalHTTPServer,
    set_GlobalObjectAPI, set_GlobalCacheObjectAPI, set_GlobalGatewaySSE.

Ltac run_cases :=
  repeat match goal with
         | |- context [if ?c then _ else _] => destruct c eqn:?; cbn
         | |- context [match ?x with Some _ => _ | None => _ end] => destruct x eqn:?; cbn
         | |- context [match ?x with inl _ => _ | inr _ => _ end] => destruct x eqn:?; cbn
         | |- context [let (_, _) := ?x in _] => destruct x eqn:?; cbn
         end.

Ltac give_events :=
  eexists; split; [first [reflexivity | symmetry; apply app_nil_r]|].

Section Phases.
Variable Map_unicode_ToUpper : string -> string.
Variable NASBackendGateway : string.
Variable env : Env.

(** [configure] only runs setup steps, assigns neither the object layer
    nor the HTTP server, hands the gateway on, and exits with status 1
    when it exits. *)
Lemma configure_spec (gw : option Gateway) (p : Process) :
  let (p', r) := configure Map_unicode_ToUpper env gw p in
  (exists evs, trace p' = trace p ++ evs /\ forallb is_setup evs = true) /\
  GlobalObjectAPI p' = GlobalObjectAPI p /\
  match r with
  | inl g => gw = Some g
  | inr code => code = 1%Z
  end.
Proof.
  destruct p as [etcd isgw http api cache sse tr].
  unfold configure, gatewayHandleEnvVars; unfold_M; cbn.
  destruct gw as [g|]; cbn.
  - run_cases; cbn [trace GlobalObjectAPI]; rewrite <- ?app_assoc; cbn [app].
    all: split; [give_events; reflexivity|split; reflexivity].
  - rewrite <- ?app_assoc; cbn [app].
    split; [give_events; reflexivity|split; reflexivity].
Qed.

(** [configure] leaves an etcd client when the configuration enables
    etcd, and otherwise the client it found. *)
Lemma configure_etcd (gw : option Gateway) (p : Process) :
  let (p', r) := configure Map_unicode_ToUpper env gw p in
  forall g, r = inl g ->
    GlobalEtcdClient p' = (etcd_enabled env || GlobalEtcdClient p)%bool.
Proof.
  destruct p as [etcd isgw http api cache sse tr].
  unfold configure, gatewayHandleEnvVars; unfold_M; cbn.
  destruct gw as [g|]; cbn; [|discriminate].
  run_cases; intros g' [=]; reflexivity.
Qed.

(** [route_and_listen] only runs setup steps, starts the HTTP server when
    it returns, and returns whether an etcd client is there. *)
Lemma route_and_listen_spec (p : Process) :
  let (p', r) := route_and_listen env p in
  (exists evs, trace p' = trace p ++ evs /\ forallb is_setup evs = true /\
               (forall b, r = inl b -> In GoHTTPServerStart evs)) /\
  GlobalObjectAPI p' = GlobalObjectAPI p /\
  GlobalEtcdClient p' = GlobalEtcdClient p /\
  match r with
  | inl enableIAMOps => enableIAMOps = GlobalEtcdClient p
  | inr code => code = 1%Z
  end.
Proof.
  destruct p as [etcd isgw http api cache sse tr].
  unfold route_and_listen; unfold_M; cbn.
  run_cases; cbn [trace GlobalObjectAPI GlobalEtcdClient]; rewrite <- ?app_assoc; cbn [app].
  all: split; [give_events; split; [reflexivity|]|repeat split; reflexivity].
  all: intros b [=]; cbn; auto 12.
Qed.

(** [construct_layer]: a failing constructor shuts the HTTP server down
    and exits; a layer that was constructed is decorated and installed,
    after [NewAllSubsystems]. *)
Lemma construct_layer_spec (gw : Gateway) (p : Process) :
  let (p', r) := construct_layer gw p in
  GlobalEtcdClient p' = GlobalEtcdClient p /\
  match NewGatewayLayer gw with
  | inr e =>
      r = inr 1%Z /\
      trace p' = trace p ++ [CallNewGatewayLayer; CallHTTPServerShutdown;
                             LogFatal e "Unable to initialize gateway backend"] /\
      GlobalObjectAPI p' = GlobalObjectAPI p
  | inl layer =>
      r = inl (NewGatewayLayerWithLocker layer) /\
      trace p' = trace p ++ [CallNewGatewayLayer; CallNewAllSubsystems;
                             SetGlobalObjectAPI (NewGatewayLayerWithLocker layer)] /\
      GlobalObjectAPI p' = Some (NewGatewayLayerWithLocker layer)
  end.
Proof.
  destruct p as [etcd isgw http api cache sse tr].
  unfold construct_layer; unfold_M; cbn.
  destruct (NewGatewayLayer gw) as [layer|e]; cbn; rewrite <- ?app_assoc; cbn [app];
    repeat split; reflexivity.
Qed.

(** [init_subsystems], entered with [enableIAMOps] equal to the presence
    of the etcd client: an IAM step only follows a migration that
    succeeded, and a run through the phase with an etcd client performs
    the migration, the store initialization and the start of the
    asynchronous [Init], in this order and with nothing in between. *)
Lemma init_subsystems_spec (gatewayName : string) (p : Process) :
  let (p', r) := init_subsystems NASBackendGateway env gatewayName (GlobalEtcdClient p) p in
  (exists evs,
      trace p' = trace p ++ evs /\
      migration_first false evs = true /\
      (existsb is_iam_init evs = true -> MigrateIAMConfigsEtcdToEncrypted env = None) /\
      (r = inl tt -> GlobalEtcdClient p = true ->
       exists pre post,
         evs = pre ++ [CallMigrateIAMConfigsEtcdToEncrypted; CallIAMSysInitStore;
                       GoIAMSysInit] ++ post)) /\
  GlobalObjectAPI p' = GlobalObjectAPI p /\
  match r with
  | inl _ => True
  | inr code => code = 1%Z
  end.
Proof.
  destruct p as [etcd isgw http api cache sse tr].
  unfold init_subsystems, list_buckets_or_die; unfold_M; cbn.
  destruct etcd; run_cases; cbn [trace GlobalObjectAPI]; rewrite <- ?app_assoc; cbn [app].
  all: split; [give_events; repeat split; try reflexivity; try discriminate
              |split; [reflexivity|exact I || reflexivity]].
  all: intros _ _.
  all: first
    [ now exists [], []
    | now exists [CallListBuckets; CallNotificationSysInit], []
    | eexists [], _; reflexivity
    | eexists [CallListBuckets; CallNotificationSysInit], _; reflexivity ].
Qed.

(** [announce] performs no IAM step, no migration, and returns. *)
Lemma announce_spec (gw : Gateway) (p : Process) :
  let (p', r) := announce env gw p in
  (exists evs, trace p' = trace p ++ evs /\
               forallb (fun ev => negb (is_iam_init ev || is_migration ev)) evs = true) /\
  GlobalObjectAPI p' = GlobalObjectAPI p /\
  r = inl tt.
Proof.
  destruct p as [etcd isgw http api cache sse tr].
  unfold announce; unfold_M; cbn.
  run_cases; cbn [trace GlobalObjectAPI]; rewrite <- ?app_assoc; cbn [app].
  all: split; [give_events; reflexivity|split; reflexivity].
Qed.
End Phases.

Lemma is_setup_neutral (evs : list Event) :
  forallb is_setup evs = true -> forallb is_neutral evs = true.
Proof.
  induction evs as [|ev evs IH]; cbn; auto. intros H. apply andb_prop in H.
  destruct H as [H1 H2]. rewrite IH by assumption. now destruct ev.
Qed.

Lemma is_setup_independent (evs : list Event) :
  forallb is_setup evs = true ->
  forallb (fun ev => negb (is_dependent_init ev)) evs = true.
Proof.
  induction evs as [|ev evs IH]; cbn; auto. intros H. apply andb_prop in H.
  destruct H as [H1 H2]. rewrite IH by assumption. now destruct ev.
Qed.

Lemma migration_first_neutral (m : bool) (evs : list Event) :
  forallb is_neutral evs = true -> migration_first m evs = true.
Proof.
  revert m; induction evs as [|ev evs IH]; intros m; cbn; auto. intros H.
  apply andb_prop in H. destruct H as [H1 H2]. rewrite IH by assumption.
  unfold is_neutral in H1. now destruct (is_iam_init ev).
Qed.

Lemma migration_first_app (m : bool) (evs more : list Event) :
  migration_first m (evs ++ more) =
  migration_first m evs && migration_first (m || existsb is_migration evs) more.
Proof.
  revert m; induction evs as [|ev evs IH]; intros m; cbn.
  - now rewrite orb_false_r.
  - rewrite IH. now rewrite <- andb_assoc, <- orb_assoc.
Qed.

Lemma existsb_neutral_migration (evs : list Event) :
  forallb is_neutral evs = true -> existsb is_migration evs = false.
Proof.
  induction evs as [|ev evs IH]; cbn; auto. intros H. apply andb_prop in H.
  destruct H as [H1 H2]. rewrite IH by assumption. unfold is_neutral in H1.
  destruct (is_migration ev); auto. now rewrite orb_true_r in H1.
Qed.

Lemma existsb_neutral_iam (evs : list Event) :
  forallb is_neutral evs = true -> existsb is_iam_init evs = false.
Proof.
  induction evs as [|ev evs IH]; cbn; auto. intros H. apply andb_prop in H.
  destruct H as [H1 H2]. rewrite IH by assumption. unfold is_neutral in H1.
  now destruct (is_iam_init ev).
Qed.

(** When no IAM step comes first, every IAM step in the list has a
    migration step before it. *)
Lemma migration_first_sound (evs : list Event) :
  forall m, migration_first m evs = true ->
  forall pre ev post, evs = pre ++ ev :: post -> is_iam_init ev = true ->
    m = true \/ In CallMigrateIAMConfigsEtcdToEncrypted pre.
Proof.
  induction evs as [|x evs IH]; intros m H pre ev post E Hev.
  - destruct pre; discriminate.
  - cbn in H. apply andb_prop in H. destruct H as [H1 H2].
    destruct pre as [|y pre]; cbn in E; injection E as -> ->.
    + rewrite Hev in H1. cbn in H1. now left.
    + destruct (IH _ H2 pre ev post eq_refl Hev) as [Hm|Hin].
      * apply orb_prop in Hm. destruct Hm as [Hm|Hm]; [now left|].
        right. left. now destruct y.
      * right. now right.
Qed.

Section Run.
Variable Map_unicode_ToUpper : string -> string.
Variable NASBackendGateway : string.
Variable env : Env.
Variable gw : option Gateway.

(** Every run is of one of the three kinds. *)
Lemma run_reached :
  reached env gw (run Map_unicode_ToUpper NASBackendGateway env gw).
Proof.
  unfold run, StartGateway, bind.
  pose proof (configure_spec Map_unicode_ToUpper env gw fresh) as Hc.
  pose proof (configure_etcd Map_unicode_ToUpper env gw fresh) as Hce.
  destruct (configure Map_unicode_ToUpper env gw fresh) as [p1 [g|c]].
  2:{ destruct Hc as ((evs & Ht & Hs) & Hapi & ->). cbn in Ht.
      apply exit_in_setup; [now rewrite Ht|now rewrite Hapi]. }
  destruct Hc as ((evs1 & Ht1 & Hs1) & Hapi1 & Hgw). cbn in Ht1, Hapi1.
  specialize (Hce g eq_refl). cbn in Hce. rewrite orb_false_r in Hce.
  pose proof (route_and_listen_spec env p1) as Hr.
  destruct (route_and_listen env p1) as [p2 [b|c]].
  2:{ destruct Hr as ((evs & Ht & Hs & _) & Hapi & _ & ->).
      apply exit_in_setup; [rewrite Ht, Ht1, forallb_app, Hs1, Hs; reflexivity|congruence]. }
  destruct Hr as ((evs2 & Ht2 & Hs2 & Hstart) & Hapi2 & Hetcd2 & ->).
  specialize (Hstart _ eq_refl).
  assert (forallb is_setup (evs1 ++ evs2) = true) as Hs12
    by (rewrite forallb_app, Hs1, Hs2; reflexivity).
  pose proof (construct_layer_spec g p2) as Hk.
  destruct (construct_layer g p2) as [p3 [layer'|c]];
    destruct Hk as (Hetcd3 & Hk); destruct (NewGatewayLayer g) as [layer|e] eqn:Hnew;
    destruct Hk as (Hr3 & Ht3 & Hapi3); try discriminate.
  2:{ injection Hr3 as ->.
      apply (exit_in_constructor env gw p3 g e (evs1 ++ evs2)); auto.
      - apply in_or_app. now right.
      - rewrite Ht3, Ht2, Ht1. reflexivity.
      - congruence. }
  pose proof (init_subsystems_spec NASBackendGateway env (Name g) p3) as Hi.
  rewrite Hetcd3, Hetcd2 in Hi.
  destruct (init_subsystems NASBackendGateway env (Name g) (GlobalEtcdClient p1) p3)
    as [p4 [[]|c]];
    destruct Hi as ((evs4 & Ht4 & Hmf & Hmig & Hseq) & Hapi4 & Hr4).
  2:{ subst c.
      apply (past_constructor env gw p4 (inr 1%Z) g layer (evs1 ++ evs2) evs4 []); auto.
      - rewrite Ht4, Ht3, Ht2, Ht1, app_nil_r, <- !app_assoc. reflexivity.
      - discriminate.
      - congruence. }
  pose proof (announce_spec env g p4) as Ha.
  destruct (announce env g p4) as [p5 r5].
  destruct Ha as ((evs5 & Ht5 & Hn5) & Hapi5 & ->).
  apply (past_constructor env gw p5 (inl tt) g layer (evs1 ++ evs2) evs4 evs5); auto.
  - rewrite Ht5, Ht4, Ht3, Ht2, Ht1, <- !app_assoc. reflexivity.
  - intros _ Het. apply Hseq; auto. rewrite Hce, Het. reflexivity.
  - congruence.
Qed.
End Run.

Lemma setup_has_no_constructor (evs : list Event) :
  forallb is_setup evs = true -> ~ In CallNewGatewayLayer evs.
Proof.
  intros H Hin. rewrite forallb_forall in H. specialize (H _ Hin). discriminate.
Qed.


(** C9. In every run of [StartGateway]: an IAM step (the initialization
    of the IAM store, or the start of the asynchronous [Init]) has the
    migration to the encrypted backend before it in the trace, and the
    migration returned no error.  And a run with etcd configured that comes
    to serve has performed the migration, then the store initialization,
    then the start of the asynchronous [Init], with nothing in between. *)
Theorem StartGateway_migrates_before_IAM
  (Map_unicode_ToUpper : string -> string) (NASBackendGateway : string)
  (env : Env) (gw : option Gateway) :
  let (p', r) := run Map_unicode_ToUpper NASBackendGateway env gw in
  (forall pre ev post,
      trace p' = pre ++ ev :: post -> is_iam_init ev = true ->
      In CallMigrateIAMConfigsEtcdToEncrypted pre /\
      MigrateIAMConfigsEtcdToEncrypted env = None) /\
  (etcd_enabled env = true -> r = inl tt ->
   exists pre post,
     trace p' = pre ++ [CallMigrateIAMConfigsEtcdToEncrypted; CallIAMSysInitStore;
                        GoIAMSysInit] ++ post).
Proof.
  pose proof (run_reached Map_unicode_ToUpper NASBackendGateway env gw) as H.
  destruct (run Map_unicode_ToUpper NASBackendGateway env gw) as [p' r].
  assert (forall evs : list Event, forallb is_neutral evs = true ->
            forall pre ev post, evs = pre ++ ev :: post -> is_iam_init ev = true -> False)
    as Hnone.
  { intros evs Hn pre ev post E Hev. apply existsb_neutral_iam in Hn.
    assert (existsb is_iam_init evs = true); [|congruence].
    apply existsb_exists. exists ev. split; auto. rewrite E. apply in_or_app. right. now left. }
  inversion H as [p Hs Hapi | p g0 e0 setup Hgw Hnew Hs Hstart Ht Hapi
                 | p r0 g0 layer0 setup subs rest Hgw Hnew Hs Ht Hmf Hmig Hseq Hrest Hapi Hr];
    subst.
  - split; [|discriminate].
    intros pre ev post E Hev. exfalso. eapply Hnone; eauto. now apply is_setup_neutral.
  - split; [|discriminate].
    intros pre ev post E Hev. exfalso. eapply (Hnone (trace p')); eauto.
    rewrite Ht, forallb_app, is_setup_neutral by assumption. reflexivity.
  - set (head := setup ++ [CallNewGatewayLayer; CallNewAllSubsystems;
                           SetGlobalObjectAPI (NewGatewayLayerWithLocker layer0)]) in *.
    assert (forallb is_neutral head = true) as Hhead.
    { unfold head. rewrite forallb_app, is_setup_neutral by assumption. reflexivity. }
    assert (trace p' = head ++ subs ++ rest) as Ht'
      by (rewrite Ht; unfold head; now rewrite <- app_assoc).
    split.
    + intros pre ev post E Hev. split.
      * assert (migration_first false (trace p') = true) as Hall.
        { rewrite Ht', !migration_first_app.
          rewrite (existsb_neutral_migration head) by assumption. cbn [orb].
          rewrite (migration_first_neutral _ head), Hmf by assumption.
          rewrite (migration_first_neutral _ rest) by assumption. reflexivity. }
        destruct (migration_first_sound _ _ Hall pre ev post E Hev); [discriminate|auto].
      * apply Hmig.
        assert (existsb is_iam_init (trace p') = true) as Hex.
        { apply existsb_exists. exists ev. split; auto. rewrite E.
          apply in_or_app. right. now left. }
        rewrite Ht', !existsb_app in Hex.
        rewrite (existsb_neutral_iam head), (existsb_neutral_iam rest) in Hex by assumption.
        now rewrite orb_false_r in Hex.
    + intros Het Hrun. destruct (Hseq Hrun Het) as (pre & post & ->).
      exists (head ++ pre), (post ++ rest).
      rewrite Ht'. now rewrite <- !app_assoc.
Qed.

(** Runs of [StartGateway] in that environment. *)
Example StartGateway_runs :
  run (fun s => s) "nas" etcd_env (Some failing_gateway) =
  (mkProcess true true true None false (GatewaySSE.slice_of ["S3"%string])
     [CallSetDeploymentID; CallHandleCommonCmdArgs; CallGetTLSConfig; CallGetRootCAs;
      CallInitHelp; CallCheckPortAvailability; CallHandleCommonEnvVars;
      SetGlobalGatewaySSE; CallSetMaxResources; CallLookupConfigs;
      CallRegisterSTSRouter; CallRegisterAdminRouter false true;
      CallRegisterHealthCheckRouter; CallRegisterMetricsRouter; CallRegisterAPIRouter;
      GoHTTPServerStart; SetGlobalHTTPServer; CallSignalNotify;
      CallNewGatewayLayer; CallHTTPServerShutdown;
      LogFatal (ErrOther "connection refused") "Unable to initialize gateway backend"],
   inr 1%Z) /\
  run (fun s => s) "nas" etcd_env (Some s3_gateway) =
  (mkProcess true true true (Some (GatewayLocker (BackendLayer "s3"))) false
     (GatewaySSE.slice_of ["S3"%string])
     [CallSetDeploymentID; CallHandleCommonCmdArgs; CallGetTLSConfig; CallGetRootCAs;
      CallInitHelp; CallCheckPortAvailability; CallHandleCommonEnvVars;
      SetGlobalGatewaySSE; CallSetMaxResources; CallLookupConfigs;
      CallRegisterSTSRouter; CallRegisterAdminRouter false true;
      CallRegisterHealthCheckRouter; CallRegisterMetricsRouter; CallRegisterAPIRouter;
      GoHTTPServerStart; SetGlobalHTTPServer; CallSignalNotify;
      CallNewGatewayLayer; CallNewAllSubsystems;
      SetGlobalObjectAPI (GatewayLocker (BackendLayer "s3"));
      CallMigrateIAMConfigsEtcdToEncrypted; CallIAMSysInitStore; GoIAMSysInit;
      CallVerifyObjectLayerFeatures; CallHandleSignals],
   inl tt).
Proof. split; reflexivity. Qed.

(** *** The stages of a run, and what they settle *)

Ltac run_cases' :=
  repeat match goal with
         | |- context [negb ?c] => destruct c eqn:?; cbn
         | |- context [if ?c then _ else _] => destruct c eqn:?; cbn
         | |- context [match ?x with Some _ => _ | None => _ end] => destruct x eqn:?; cbn
         | |- context [match ?x with inl _ => _ | inr _ => _ end] => destruct x eqn:?; cbn
         end.

Ltac facts :=
  repeat match goal with
         | |- _ /\ _ => split
         end;
  cbn [last forallb is_configure_step is_route_step is_subsystem_step is_exit_notice
       is_constructor_step is_announce_step
       andb orb negb is_None trace GlobalObjectAPI GlobalHTTPServer GlobalCacheObjectAPI
       GlobalGatewaySSE GlobalIsGateway GlobalEtcdClient In fst snd] in *;
  try reflexivity; try discriminate;
  try solve [intuition (try discriminate; try congruence; eauto)].

Section Stages_of_phases.
Variable Map_unicode_ToUpper : string -> string.
Variable NASBackendGateway : string.
Variable env : Env.

Lemma configure_facts (gw : option Gateway) (p : Process) :
  exists evs,
    configured Map_unicode_ToUpper env gw p
      (fst (configure Map_unicode_ToUpper env gw p))
      (snd (configure Map_unicode_ToUpper env gw p)) evs.
Proof.
  clear NASBackendGateway.
  destruct p as [etcd isgw http api cache sse tr].
  unfold configured, configure_ok, configure, gatewayHandleEnvVars; unfold_M; cbn.
  destruct gw as [g|]; cbn.
  - run_cases'; cbn [fst snd trace]; rewrite <- ?app_assoc; cbn [app].
    all: eexists; split; [first [reflexivity | symmetry; apply app_nil_r]|].
    all: facts.
  - rewrite <- ?app_assoc; cbn [app]. eexists; split; [reflexivity|]. facts.
Qed.

Lemma route_facts (p : Process) :
  exists evs,
    routed env p (fst (route_and_listen env p)) (snd (route_and_listen env p)) evs.
Proof.
  clear Map_unicode_ToUpper NASBackendGateway.
  destruct p as [etcd isgw http api cache sse tr].
  unfold routed, route_ok, route_and_listen; unfold_M; cbn.
  run_cases'; cbn [fst snd trace]; rewrite <- ?app_assoc; cbn [app].
  all: eexists; split; [first [reflexivity | symmetry; apply app_nil_r]|].
  all: facts.
Qed.

Lemma construct_facts (g : Gateway) (p : Process) :
  exists evs,
    constructed g p (fst (construct_layer g p)) (snd (construct_layer g p)) evs.
Proof.
  clear Map_unicode_ToUpper NASBackendGateway env.
  destruct p as [etcd isgw http api cache sse tr].
  unfold constructed, construct_layer; unfold_M; cbn.
  destruct (NewGatewayLayer g) as [layer|e]; cbn; rewrite <- ?app_assoc; cbn [app].
  all: eexists; split; [first [reflexivity | symmetry; apply app_nil_r]|].
  all: facts.
Qed.

Lemma init_facts (gatewayName : string) (p : Process) :
  exists evs,
    initialized NASBackendGateway env gatewayName p
      (fst (init_subsystems NASBackendGateway env gatewayName (GlobalEtcdClient p) p))
      (snd (init_subsystems NASBackendGateway env gatewayName (GlobalEtcdClient p) p)) evs.
Proof.
  clear Map_unicode_ToUpper.
  destruct p as [etcd isgw http api cache sse tr].
  unfold initialized, subsystems_ok, init_subsystems, list_buckets_or_die; unfold_M; cbn.
  destruct etcd; run_cases'; cbn [fst snd trace]; rewrite <- ?app_assoc; cbn [app].
  all: eexists; split; [first [reflexivity | symmetry; apply app_nil_r]|].
  all: facts.
Qed.

Lemma announce_facts (g : Gateway) (p : Process) :
  exists evs,
    announced env g p (fst (announce env g p)) (snd (announce env g p)) evs.
Proof.
  clear Map_unicode_ToUpper NASBackendGateway.
  destruct p as [etcd isgw http api cache sse tr].
  unfold announced, banner, announce; unfold_M; cbn.
  run_cases'; cbn [fst snd trace]; rewrite <- ?app_assoc; cbn [app].
  all: eexists; split; [first [reflexivity | symmetry; apply app_nil_r]|].
  all: facts.
Qed.

End Stages_of_phases.

Section Staged_run.
Variable Map_unicode_ToUpper : string -> string.
Variable NASBackendGateway : string.
Variable env : Env.
Variable gw : option Gateway.

(** Every run goes through the stages, up to the one it exits in. *)
Lemma run_staged :
  staged Map_unicode_ToUpper NASBackendGateway env gw
    (run Map_unicode_ToUpper NASBackendGateway env gw).
Proof.
  unfold run, StartGateway, bind.
  destruct (configure_facts Map_unicode_ToUpper env gw fresh) as [e1 H1].
  destruct (configure Map_unicode_ToUpper env gw fresh) as [p1 [g|c]]; cbn [fst snd] in H1.
  2:{ eapply stop_in_configure; eauto. }
  destruct (route_facts env p1) as [e2 H2].
  destruct (route_and_listen env p1) as [p2 [b|c]]; cbn [fst snd] in H2.
  2:{ eapply stop_in_route; eauto. }
  assert (b = GlobalEtcdClient p2) as Hb.
  { destruct H2 as (_ & _ & Hr & _ & _ & _ & _ & He & _).
    destruct (route_ok env); [|discriminate]. injection Hr as ->. now rewrite He. }
  destruct (construct_facts g p2) as [e3 H3].
  destruct (construct_layer g p2) as [p3 [layer|c]]; cbn [fst snd] in H3.
  2:{ eapply stop_in_constructor; eauto. }
  assert (exists inner, layer = NewGatewayLayerWithLocker inner /\
                        NewGatewayLayer g = inl inner) as (inner & -> & Hnew).
  { destruct H3 as (_ & _ & _ & _ & _ & _ & _ & H3).
    destruct (NewGatewayLayer g) as [inner|e]; destruct H3 as (Hr & _); [|discriminate].
    injection Hr as ->. eauto. }
  assert (b = GlobalEtcdClient p3) as Hb3.
  { destruct H3 as (_ & _ & _ & _ & _ & He & _). now rewrite He. }
  destruct (init_facts NASBackendGateway env (Name g) p3) as [e4 H4].
  rewrite <- Hb3 in H4.
  destruct (init_subsystems NASBackendGateway env (Name g) b p3) as [p4 [[]|c]];
    cbn [fst snd] in H4.
  2:{ eapply stop_in_subsystems; eauto. }
  destruct (announce_facts env g p4) as [e5 H5].
  destruct (announce env g p4) as [p5 r5]; cbn [fst snd] in H5.
  eapply serving; eauto.
Qed.
End Staged_run.

Ltac open_stages :=
  repeat match goal with
         | H : configured _ _ _ _ _ _ _ |- _ =>
             destruct H as (Ht1 & Hc1 & Hr1 & Hx1 & Hapi1 & Hhttp1 & Hcache1 & Hsse1 &
                            Hmax1 & Hok1)
         | H : routed _ _ _ _ _ |- _ =>
             destruct H as (Ht2 & Hc2 & Hr2 & Hx2 & Hapi2 & Hcache2 & Hsse2 & Hetcd2 &
                            Hgw2 & Hadm2 & Hsts2 & Hweb2 & Hstart2 & Hhttp2 & Hok2)
         | H : constructed _ _ _ _ _ |- _ =>
             destruct H as (Ht3 & Hc3 & Hhttp3 & Hcache3 & Hsse3 & Hetcd3 & Hgw3 & Hk3)
         | H : initialized _ _ _ _ _ _ _ |- _ =>
             destruct H as (Ht4 & Hc4 & Hr4 & Hx4 & Hapi4 & Hhttp4 & Hsse4 & Hetcd4 &
                            Hgw4 & Hnot4 & Hfed4 & Hmig4 & Hiam4 & Hstore4 & Hsetc4 &
                            Hcache4 & Hok4)
         | H : announced _ _ _ _ _ _ |- _ =>
             destruct H as (Ht5 & Hc5 & He5 & Hr5 & Hapi5 & Hhttp5 & Hcache5 & Hsse5 &
                            Hetcd5 & Hgw5)
         end.

(** An event that the steps of a stage do not count is not in the
    stage. *)
Lemma not_a_step (c : Event -> bool) (ev : Event) (evs : list Event) :
  forallb c evs = true -> c ev = false -> ~ In ev evs.
Proof.
  intros H Hc Hin. rewrite forallb_forall in H. specialize (H _ Hin). congruence.
Qed.

Lemma last_app_nonempty (a b : list Event) (d : Event) :
  b <> [] -> last (a ++ b) d = last b d.
Proof.
  intros Hb. induction a as [|x a IH]; [reflexivity|].
  cbn [app]. destruct (a ++ b) eqn:E; [|exact IH].
  apply app_eq_nil in E. destruct E. congruence.
Qed.

Lemma notice_nonempty (evs : list Event) :
  is_exit_notice (last evs CallHandleSignals) = true -> evs <> [].
Proof. intros H ->. discriminate. Qed.

Section Stages.
Variable Map_unicode_ToUpper : string -> string.
Variable NASBackendGateway : string.
Variable env : Env.
Variable gw : option Gateway.

#[local] Abbreviation the_run := (run Map_unicode_ToUpper NASBackendGateway env gw).

(** A [configure] that returns was handed a gateway and found all it
    needs; it leaves an etcd client exactly when etcd is configured. *)
Lemma configured_returns (p1 : Process) (g : Gateway) (e1 : list Event) :
  configured Map_unicode_ToUpper env gw fresh p1 (inl g) e1 ->
  gw = Some g /\ configure_ok Map_unicode_ToUpper env = true /\
  GlobalEtcdClient p1 = etcd_enabled env /\ trace p1 = e1.
Proof.
  intros H. open_stages. destruct (Hok1 g eq_refl) as (_ & _ & He).
  cbn in He. rewrite orb_false_r in He.
  destruct gw as [g'|]; [|discriminate].
  destruct (configure_ok Map_unicode_ToUpper env); [|discriminate].
  injection Hr1 as ->. auto.
Qed.

Lemma configured_exits (p1 : Process) (c : Z) (e1 : list Event) :
  configured Map_unicode_ToUpper env gw fresh p1 (inr c) e1 ->
  c = 1%Z /\ comes_up Map_unicode_ToUpper NASBackendGateway env gw = false /\
  trace p1 = e1.
Proof.
  intros H. open_stages. unfold comes_up. destruct gw as [g'|].
  - destruct (configure_ok Map_unicode_ToUpper env); [discriminate|].
    injection Hr1 as ->. auto.
  - injection Hr1 as ->. auto.
Qed.

Lemma routed_returns (p1 p2 : Process) (b : bool) (e2 : list Event) :
  routed env p1 p2 (inl b) e2 ->
  route_ok env = true /\ b = GlobalEtcdClient p1.
Proof.
  intros H. open_stages. destruct (route_ok env); [|discriminate].
  injection Hr2 as ->. auto.
Qed.

Lemma routed_exits (p1 p2 : Process) (c : Z) (e2 : list Event) :
  routed env p1 p2 (inr c) e2 -> c = 1%Z /\ route_ok env = false.
Proof.
  intros H. open_stages. destruct (route_ok env); [discriminate|].
  injection Hr2 as ->. auto.
Qed.

Lemma constructed_fails (g : Gateway) (p2 p3 : Process) (c : Z) (e3 : list Event) :
  constructed g p2 p3 (inr c) e3 ->
  c = 1%Z /\ exists e,
    NewGatewayLayer g = inr e /\
    e3 = [CallNewGatewayLayer; CallHTTPServerShutdown;
          LogFatal e "Unable to initialize gateway backend"].
Proof.
  intros H. open_stages. destruct (NewGatewayLayer g) as [layer|e].
  - destruct Hk3 as (Hr & _). discriminate.
  - destruct Hk3 as (Hr & He & _). injection Hr as ->. eauto.
Qed.

Lemma constructed_returns (g : Gateway) (p2 p3 : Process) (layer : ObjectLayer)
  (e3 : list Event) :
  constructed g p2 p3 (inl layer) e3 ->
  exists inner,
    NewGatewayLayer g = inl inner /\ layer = NewGatewayLayerWithLocker inner /\
    e3 = [CallNewGatewayLayer; CallNewAllSubsystems; SetGlobalObjectAPI layer].
Proof.
  intros H. open_stages. destruct (NewGatewayLayer g) as [inner|e].
  - destruct Hk3 as (Hr & He & _). injection Hr as ->. eauto.
  - destruct Hk3 as (Hr & _). discriminate.
Qed.

Lemma initialized_exits (name : string) (p3 p4 : Process) (c : Z) (e4 : list Event) :
  initialized NASBackendGateway env name p3 p4 (inr c) e4 -> c = 1%Z.
Proof.
  intros H. open_stages. destruct (subsystems_ok _ _ _ _); [discriminate|].
  now injection Hr4.
Qed.

(** X14. A run of [StartGateway] comes to return exactly when [comes_up]
    holds: a gateway was given, help was not asked for, the certificates,
    the root CAs, the port and the credentials are in order,
    [MINIO_GATEWAY_SSE] is unset or parses, the web router registers when
    the browser is enabled, the backend's constructor succeeds, and the
    subsystems that are configured (notification for NAS, the IAM migration
    with etcd, the disk cache, the federation) initialize.  Every other run
    exits with status 1. *)
Theorem StartGateway_comes_up :
  snd (run Map_unicode_ToUpper NASBackendGateway env gw) =
  if comes_up Map_unicode_ToUpper NASBackendGateway env gw then inl tt else inr 1%Z.
Proof.
  pose proof (run_staged Map_unicode_ToUpper NASBackendGateway env gw) as H.
  destruct the_run as [p' r]. cbn [snd].
  inversion H as [p1 c e1 H1 | g p1 p2 c e1 e2 H1 H2
                 | g p1 p2 p3 b c e1 e2 e3 H1 H2 H3
                 | g p1 p2 p3 p4 b layer c e1 e2 e3 e4 H1 H2 H3 H4
                 | g p1 p2 p3 p4 p5 b layer r5 e1 e2 e3 e4 e5 H1 H2 H3 H4 H5]; subst.
  - apply configured_exits in H1. destruct H1 as (-> & -> & _). reflexivity.
  - apply configured_returns in H1. destruct H1 as (-> & Hok & _).
    apply routed_exits in H2. destruct H2 as (-> & Hno).
    unfold comes_up. now rewrite Hok, Hno.
  - apply configured_returns in H1. destruct H1 as (-> & Hok & _).
    apply routed_returns in H2. destruct H2 as (Hrok & _).
    apply constructed_fails in H3. destruct H3 as (-> & e & Hnew & _).
    unfold comes_up. now rewrite Hok, Hrok, Hnew.
  - apply configured_returns in H1. destruct H1 as (-> & Hok & He1 & _).
    pose proof (routed_returns _ _ _ _ H2) as (Hrok & _).
    pose proof (constructed_returns _ _ _ _ _ H3) as (inner & Hnew & _).
    open_stages. unfold comes_up. rewrite Hok, Hrok, Hnew. cbn [andb].
    rewrite Hetcd3, Hetcd2, He1 in Hr4.
    destruct (subsystems_ok NASBackendGateway env (Name g) (etcd_enabled env));
      [discriminate|auto].
  - apply configured_returns in H1. destruct H1 as (-> & Hok & He1 & _).
    pose proof (routed_returns _ _ _ _ H2) as (Hrok & _).
    pose proof (constructed_returns _ _ _ _ _ H3) as (inner & Hnew & _).
    open_stages. unfold comes_up. rewrite Hok, Hrok, Hnew. cbn [andb].
    rewrite Hetcd3, Hetcd2, He1 in Hr4.
    destruct (subsystems_ok NASBackendGateway env (Name g) (etcd_enabled env));
      [auto|discriminate].
Qed.

Ltac stages H :=
  inversion H as [p1 c e1 H1 | g p1 p2 c e1 e2 H1 H2
                 | g p1 p2 p3 b c e1 e2 e3 H1 H2 H3
                 | g p1 p2 p3 p4 b layer c e1 e2 e3 e4 H1 H2 H3 H4
                 | g p1 p2 p3 p4 p5 b layer r5 e1 e2 e3 e4 e5 H1 H2 H3 H4 H5]; subst;
  try (pose proof (configured_returns _ _ _ H1) as (Hgw & Hcok & Hetcd1 & _));
  try (pose proof (configured_exits _ _ _ H1) as (Hc & Hdown & _));
  try (pose proof (routed_returns _ _ _ _ H2) as (Hrok & Hb));
  try (pose proof (routed_exits _ _ _ _ H2) as (Hc & Hrno));
  try (pose proof (constructed_returns _ _ _ _ _ H3) as (inner & Hnew & Hlayer & He3));
  try (pose proof (constructed_fails _ _ _ _ _ H3) as (Hc & e & Hnew & He3));
  try (pose proof (initialized_exits _ _ _ _ _ H4) as Hc);
  open_stages;
  cbn [trace fresh app] in *;
  try subst c.

(** The events of the stages that do not hold [ev]. *)
Ltac absent ev :=
  repeat match goal with
         | H : forallb ?c ?evs = true |- _ =>
             lazymatch goal with
             | _ : ~ In ev evs |- _ => fail
             | _ => assert (~ In ev evs) by (apply (not_a_step c); [exact H|reflexivity])
             end
         end.

Ltac whole_trace :=
  repeat match goal with
         | H : trace _ = _ |- _ => rewrite H
         end;
  rewrite ?in_app_iff.

(** X15. [HTTPServer.Shutdown] is called exactly in the runs whose
    constructor was called and failed.  Whenever the constructor is called
    the HTTP server has been started, and the global server handle is set
    exactly when the server was started: so a run that exits after the
    constructor succeeded (on [ListBuckets], the notification system, the
    IAM migration or the disk cache) exits with the server started and
    without a shutdown. *)
Theorem StartGateway_shuts_down_on_constructor_failure_only :
  let (p', r) := run Map_unicode_ToUpper NASBackendGateway env gw in
  (In CallHTTPServerShutdown (trace p') <->
   In CallNewGatewayLayer (trace p') /\
   exists g e, gw = Some g /\ NewGatewayLayer g = inr e) /\
  (In CallNewGatewayLayer (trace p') -> In GoHTTPServerStart (trace p')) /\
  (In GoHTTPServerStart (trace p') <-> GlobalHTTPServer p' = true).
Proof.
  pose proof (run_staged Map_unicode_ToUpper NASBackendGateway env gw) as H.
  destruct the_run as [p' r]. stages H.
  all: absent CallHTTPServerShutdown; absent CallNewGatewayLayer; absent GoHTTPServerStart.
  all: whole_trace.
  - rewrite Hhttp1. cbn. intuition (try discriminate; try congruence; eauto).
  - rewrite (Hhttp2 _ eq_refl), Hhttp1. cbn.
    assert (~ In GoHTTPServerStart e2) by (intros Hin; destruct (Hstart2 Hin); discriminate).
    intuition (try discriminate; try congruence; eauto).
  - destruct (Hok2 _ eq_refl) as (Hin & Hsrv & _). rewrite Hhttp3, Hsrv. subst e3. cbn.
    intuition (try discriminate; try congruence; eauto).
  - destruct (Hok2 _ eq_refl) as (Hin & Hsrv & _). rewrite Hhttp4, Hhttp3, Hsrv.
    subst e3. cbn.
    assert (~ exists g' e, gw = Some g' /\ NewGatewayLayer g' = inr e) as Hno.
    { intros (g' & e & Hg & He). rewrite Hgw in Hg. injection Hg as <-. congruence. }
    intuition (try discriminate; try congruence; eauto).
  - destruct (Hok2 _ eq_refl) as (Hin & Hsrv & _).
    rewrite Hhttp5, Hhttp4, Hhttp3, Hsrv. subst e3 e5. cbn.
    assert (~ exists g' e, gw = Some g' /\ NewGatewayLayer g' = inr e) as Hno.
    { intros (g' & e & Hg & He). rewrite Hgw in Hg. injection Hg as <-. congruence. }
    assert (~ In CallHTTPServerShutdown (banner env g ++ [CallHandleSignals])) as Hb5.
    { unfold banner. destruct (Quiet env), (Production g); cbn; intuition (try discriminate; try congruence; eauto). }
    intuition (try discriminate; try congruence; eauto).
Qed.

Lemma bad_SSE_stops_configure :
  snd (GatewaySSE.parseGatewaySSE Map_unicode_ToUpper (MINIO_GATEWAY_SSE env)) <> None ->
  configure_ok Map_unicode_ToUpper env = false.
Proof.
  intros Hbad. unfold configure_ok.
  destruct (MINIO_GATEWAY_SSE env =? "")%string eqn:E.
  - apply String.eqb_eq in E. rewrite E in Hbad. now contradiction Hbad.
  - destruct (snd _); [|congruence]. cbn. now rewrite andb_false_r.
Qed.

(** X16. [GlobalGatewaySSE] holds tokens of the closed set only, in every
    run; once [SetMaxResources] was reached it is what [parseGatewaySSE]
    returns on [MINIO_GATEWAY_SSE], which returned no error; and a value
    that does not parse ends the run with status 1 before the HTTP server
    is started. *)
Theorem StartGateway_GlobalGatewaySSE :
  let (p', r) := run Map_unicode_ToUpper NASBackendGateway env gw in
  forallb GatewaySSE.in_set (GatewaySSE.elements (GlobalGatewaySSE p')) = true /\
  (In CallSetMaxResources (trace p') ->
   GatewaySSE.parseGatewaySSE Map_unicode_ToUpper (MINIO_GATEWAY_SSE env) =
   (GlobalGatewaySSE p', None)) /\
  (snd (GatewaySSE.parseGatewaySSE Map_unicode_ToUpper (MINIO_GATEWAY_SSE env)) <> None ->
   r = inr 1%Z /\ ~ In GoHTTPServerStart (trace p')).
Proof.
  pose proof (run_staged Map_unicode_ToUpper NASBackendGateway env gw) as H.
  pose proof bad_SSE_stops_configure as Hbad.
  destruct the_run as [p' r]. stages H.
  all: absent CallSetMaxResources; absent GoHTTPServerStart.
  2-5: assert (GlobalGatewaySSE p' = GlobalGatewaySSE p1) as Hq by congruence.
  2-5: rewrite Hq.
  all: split; [destruct Hsse1 as [->| ->]; [reflexivity|apply GatewaySSEFacts.parseGatewaySSE_elements]|].
  all: split;
    [ whole_trace; intros Hin;
      assert (In CallSetMaxResources e1) as Hin1 by tauto;
      destruct (Hmax1 Hin1) as (Hp & ->);
      destruct (MINIO_GATEWAY_SSE env =? "")%string eqn:E;
      [ apply String.eqb_eq in E; rewrite E; reflexivity
      | destruct Hp as [?|Hp]; [discriminate|];
        rewrite <- Hp; apply surjective_pairing ]
    | intros Hbad'; specialize (Hbad Hbad'); try congruence ].
  rewrite Ht1. split; [reflexivity|assumption].
Qed.

(** X17. No run of [StartGateway] exits silently: a run that exits has
    status 1 and its last step is a fatal log or the display of the help;
    a run that returns ended with [HandleSignals]. *)
Theorem StartGateway_exit_is_announced :
  let (p', r) := run Map_unicode_ToUpper NASBackendGateway env gw in
  match r with
  | inl _ => last (trace p') CallSetDeploymentID = CallHandleSignals
  | inr code =>
      code = 1%Z /\ is_exit_notice (last (trace p') CallHandleSignals) = true
  end.
Proof.
  pose proof (run_staged Map_unicode_ToUpper NASBackendGateway env gw) as H.
  destruct the_run as [p' r]. stages H.
  - split; [reflexivity|]. rewrite Ht1. now apply Hx1 with (c := 1%Z).
  - split; [reflexivity|]. rewrite Ht2.
    pose proof (Hx2 _ eq_refl) as Hn. rewrite last_app_nonempty; auto.
    now apply notice_nonempty.
  - split; [reflexivity|]. rewrite Ht3. subst e3.
    rewrite last_app_nonempty by discriminate. reflexivity.
  - split; [reflexivity|]. rewrite Ht4.
    pose proof (Hx4 _ eq_refl) as Hn. rewrite last_app_nonempty; auto.
    now apply notice_nonempty.
  - subst r. rewrite Ht5. subst e5. rewrite app_comm_cons, app_assoc. apply last_last.
Qed.

Lemma banner_events (g : Gateway) :
  (In CallPrintGatewayStartupMessage (banner env g) <-> Quiet env = false) /\
  (In CallCheckUpdate (banner env g) <-> Quiet env = false) /\
  (In LogNotReadyForProduction (banner env g) <->
   Quiet env = false /\ Production g = false) /\
  ~ In CallHandleSignals (banner env g).
Proof.
  unfold banner. destruct (Quiet env), (Production g); cbn;
    intuition (try discriminate; try congruence).
Qed.

(** X18. The banner: [HandleSignals] is reached exactly in the runs that
    return; the startup message is printed and the update check made
    exactly in the runs that return with [Quiet] unset; the warning that
    the gateway is not ready for production is logged exactly when,
    moreover, the gateway says so. *)
Theorem StartGateway_banner :
  let (p', r) := run Map_unicode_ToUpper NASBackendGateway env gw in
  (In CallHandleSignals (trace p') <-> r = inl tt) /\
  (In CallPrintGatewayStartupMessage (trace p') <-> r = inl tt /\ Quiet env = false) /\
  (In CallCheckUpdate (trace p') <-> r = inl tt /\ Quiet env = false) /\
  (In LogNotReadyForProduction (trace p') <->
   r = inl tt /\ Quiet env = false /\ exists g, gw = Some g /\ Production g = false).
Proof.
  pose proof (run_staged Map_unicode_ToUpper NASBackendGateway env gw) as H.
  destruct the_run as [p' r]. stages H.
  5:{ clear Hc5. subst r.
      absent CallHandleSignals; absent CallPrintGatewayStartupMessage;
        absent CallCheckUpdate; absent LogNotReadyForProduction.
      whole_trace. subst e5. cbn [In]. rewrite !in_app_iff. cbn [In].
      destruct (banner_events g) as (Hp & Hu & Hw & Hs).
      assert ((exists g', gw = Some g' /\ Production g' = false) <-> Production g = false)
        as Hex.
      { split; [intros (g' & Hg & ?); rewrite Hgw in Hg; now injection Hg as <-|eauto]. }
      rewrite Hex.
      intuition (try discriminate; try congruence). }
  all: absent CallHandleSignals; absent CallPrintGatewayStartupMessage;
    absent CallCheckUpdate; absent LogNotReadyForProduction.
  all: whole_trace.
  all: intuition (try discriminate; try congruence).
Qed.

(** X19. The optional subsystems: the notification system is initialized
    only for the NAS gateway and only after its [ListBuckets] succeeded;
    the federation backend only with a DNS configuration and after its
    [ListBuckets] succeeded; the cache layer is installed only when the
    cache is enabled and its construction succeeded.  In a run that
    returns, each of them was done when its condition holds, and the cache
    handle is set exactly when the cache is enabled. *)
Theorem StartGateway_optional_subsystems :
  let (p', r) := run Map_unicode_ToUpper NASBackendGateway env gw in
  (In CallNotificationSysInit (trace p') ->
   ListBuckets_for_notification env = None /\
   exists g, gw = Some g /\ Name g = NASBackendGateway) /\
  (In CallInitFederatorBackend (trace p') ->
   GlobalDNSConfig_set env = true /\ ListBuckets_for_federation env = None) /\
  (GlobalCacheObjectAPI p' = true ->
   GlobalCacheConfig_Enabled env = true /\ NewServerCacheObjects env = None) /\
  (r = inl tt ->
   (forall g, gw = Some g -> Name g = NASBackendGateway ->
              In CallNotificationSysInit (trace p')) /\
   (GlobalDNSConfig_set env = true -> In CallInitFederatorBackend (trace p')) /\
   GlobalCacheObjectAPI p' = GlobalCacheConfig_Enabled env).
Proof.
  pose proof (run_staged Map_unicode_ToUpper NASBackendGateway env gw) as H.
  destruct the_run as [p' r]. stages H.
  all: absent CallNotificationSysInit; absent CallInitFederatorBackend;
    absent SetGlobalCacheObjectAPI.
  1-3: assert (GlobalCacheObjectAPI p' = false) as Hno
    by (rewrite ?Hcache3, ?Hcache2, ?Hcache1; reflexivity).
  4-5: assert (GlobalCacheObjectAPI p3 = false) as Hno
    by (rewrite ?Hcache3, ?Hcache2, ?Hcache1; reflexivity).
  all: whole_trace.
  1-3: repeat split; try discriminate; try tauto; try congruence.
  - split; [|split; [|split]]; [| tauto | | discriminate].
    + intros [[[?|?]|?]|Hin]; try tauto. destruct (Hnot4 Hin) as (Hn & Hl).
      apply String.eqb_eq in Hn. eauto.
    + intros Hc'. destruct (Hcache4 Hc') as [Hold|Hin]; [congruence|tauto].
  - subst r. destruct (Hok4 eq_refl) as (Hn & Hd & Hce & Hcd).
    split; [|split; [|split]]; [| tauto | |].
    + intros [[[[?|?]|?]|Hin]|?]; try tauto. destruct (Hnot4 Hin) as (Hn' & Hl).
      apply String.eqb_eq in Hn'. eauto.
    + intros Hc'. rewrite Hcache5 in Hc'.
      destruct (Hcache4 Hc') as [Hold|Hin]; [congruence|tauto].
    + intros _. split; [|split; [tauto|]].
      * intros g' Hg Hname. rewrite Hgw in Hg. injection Hg as <-.
        rewrite Hname, String.eqb_refl in Hn. specialize (Hn eq_refl).
        rewrite ?in_app_iff. tauto.
      * rewrite Hcache5. destruct (GlobalCacheConfig_Enabled env).
        -- now destruct (Hce eq_refl).
        -- rewrite Hcd by reflexivity. exact Hno.
Qed.

(** X20. What etcd turns on: the admin router is registered with the
    config operations off, always, and with the IAM operations on exactly
    when etcd is configured; the STS router, the IAM migration, the IAM store
    and the asynchronous IAM [Init] occur only with etcd configured; and
    once the HTTP server is started, the admin router has been registered,
    and the STS router too when etcd is configured. *)
Theorem StartGateway_etcd_features :
  let (p', r) := run Map_unicode_ToUpper NASBackendGateway env gw in
  (forall c i, In (CallRegisterAdminRouter c i) (trace p') ->
               c = false /\ i = etcd_enabled env) /\
  (In CallRegisterSTSRouter (trace p') -> etcd_enabled env = true) /\
  (In CallMigrateIAMConfigsEtcdToEncrypted (trace p') -> etcd_enabled env = true) /\
  (In CallIAMSysInitStore (trace p') -> etcd_enabled env = true) /\
  (In GoIAMSysInit (trace p') -> etcd_enabled env = true) /\
  (In GoHTTPServerStart (trace p') ->
   In (CallRegisterAdminRouter false (etcd_enabled env)) (trace p') /\
   (etcd_enabled env = true -> In CallRegisterSTSRouter (trace p'))).
Proof.
  pose proof (run_staged Map_unicode_ToUpper NASBackendGateway env gw) as H.
  destruct the_run as [p' r]. stages H.
  all: absent CallRegisterSTSRouter; absent CallMigrateIAMConfigsEtcdToEncrypted;
    absent CallIAMSysInitStore; absent GoIAMSysInit; absent GoHTTPServerStart.
  all: assert (forall c i evs, forallb is_configure_step evs = true ->
                 ~ In (CallRegisterAdminRouter c i) evs) as Ha1
         by (intros; now apply (not_a_step is_configure_step)).
  all: assert (forall c i evs, forallb is_constructor_step evs = true ->
                 ~ In (CallRegisterAdminRouter c i) evs) as Ha3
         by (intros; now apply (not_a_step is_constructor_step)).
  all: assert (forall c i evs, forallb is_subsystem_step evs = true ->
                 ~ In (CallRegisterAdminRouter c i) evs) as Ha4
         by (intros; now apply (not_a_step is_subsystem_step)).
  all: assert (forall c i evs, forallb is_announce_step evs = true ->
                 ~ In (CallRegisterAdminRouter c i) evs) as Ha5
         by (intros; now apply (not_a_step is_announce_step)).
  all: whole_trace.
  all: split;
    [ intros c0 i0 Hin; rewrite ?in_app_iff in Hin;
      repeat (destruct Hin as [Hin|Hin]);
      first [ now apply Ha1 in Hin | now apply Ha3 in Hin | now apply Ha4 in Hin
            | now apply Ha5 in Hin | idtac ] |].
  - repeat split; tauto.
  - rewrite Hetcd1 in *. now apply Hadm2 in Hin.
  - assert (~ In GoHTTPServerStart e2)
      by (intros Hin; destruct (Hstart2 Hin); discriminate).
    rewrite Hetcd1 in *. repeat split; tauto.
  - rewrite Hetcd1 in *. now apply Hadm2 in Hin.
  - destruct (Hok2 _ eq_refl) as (_ & _ & Hsts & Hadm).
    rewrite Hetcd1 in *. repeat split; tauto.
  - rewrite Hetcd1 in *. now apply Hadm2 in Hin.
  - destruct (Hok2 _ eq_refl) as (_ & _ & Hsts & Hadm).
    rewrite Hetcd3, Hetcd2 in *. rewrite Hetcd1 in *. repeat split; tauto.
  - rewrite Hetcd1 in *. now apply Hadm2 in Hin.
  - destruct (Hok2 _ eq_refl) as (_ & _ & Hsts & Hadm).
    rewrite Hetcd3, Hetcd2 in *. rewrite Hetcd1 in *. repeat split; tauto.
Qed.

End Stages.

End BootstrapFacts.

(* ===================================================================== *)
(** ** The registry of commands and the validation of the arguments *)
(* ===================================================================== *)

Module RegistryFacts.
Import Registry.
Local Open Scope list_scope.

Section Register.
Variable GlobalMinioDefaultPort : string.
Variable GlobalCertsDir_Get : string.

#[local] Abbreviation global := (GlobalFlags GlobalMinioDefaultPort GlobalCertsDir_Get).
#[local] Abbreviation register := (register_all GlobalMinioDefaultPort GlobalCertsDir_Get).
#[local] Abbreviation registered := (Registry.registered GlobalMinioDefaultPort GlobalCertsDir_Get).

Lemma register_all_spec (cmds : list Command) :
  forall Commands, register cmds Commands = (Commands ++ map registered cmds, None).
Proof.
  induction cmds as [|cmd rest IH]; intros Commands; cbn [register_all map].
  - now rewrite app_nil_r.
  - unfold RegisterGatewayCommand. rewrite IH, <- app_assoc. reflexivity.
Qed.

End Register.

Section Validate.
Variable CheckLocalServerAddr : string -> option error.

(** X22. [ValidateGatewayArguments] returns [nil] exactly when the
    server address is valid and the endpoint is empty or does not point to
    the server itself ([SameLocalAddrs] answers false, without error); an
    invalid server address is returned as the error, whatever the endpoint;
    and [SameLocalAddrs] has no say when the server address is invalid or
    the endpoint is empty. *)
Theorem ValidateGatewayArguments_accepts
  (SameLocalAddrs : string -> string -> bool * option error)
  (serverAddr endpointAddr : string) :
  (ValidateGatewayArguments CheckLocalServerAddr SameLocalAddrs serverAddr endpointAddr
   = None <->
   CheckLocalServerAddr serverAddr = None /\
   (endpointAddr = "" \/ SameLocalAddrs endpointAddr serverAddr = (false, None))) /\
  (forall e, CheckLocalServerAddr serverAddr = Some e ->
     ValidateGatewayArguments CheckLocalServerAddr SameLocalAddrs serverAddr endpointAddr
     = Some e) /\
  (forall SameLocalAddrs' : string -> string -> bool * option error,
     CheckLocalServerAddr serverAddr <> None \/ endpointAddr = "" ->
     ValidateGatewayArguments CheckLocalServerAddr SameLocalAddrs' serverAddr endpointAddr =
     ValidateGatewayArguments CheckLocalServerAddr SameLocalAddrs serverAddr endpointAddr).
Proof.
  unfold ValidateGatewayArguments. split; [split|split].
  - destruct (CheckLocalServerAddr serverAddr); [discriminate|]. intros H.
    split; [reflexivity|].
    destruct (endpointAddr =? "")%string eqn:E; cbn [negb] in H.
    + apply String.eqb_eq in E. auto.
    + right. destruct (SameLocalAddrs endpointAddr serverAddr) as [[|] [e|]];
        try discriminate; reflexivity.
  - intros (-> & [->| ->]); [reflexivity|].
    destruct (negb (endpointAddr =? "")%string); reflexivity.
  - now intros e ->.
  - intros S' [H| ->].
    + destruct (CheckLocalServerAddr serverAddr); [reflexivity|congruence].
    + reflexivity.
Qed.
End Validate.

End RegistryFacts.

(* ===================================================================== *)
(** ** What the startup message shows *)
(* ===================================================================== *)

Module StartupMessageFacts.
Import GoStrings StartupMessage.
Local Open Scope list_scope.

Section Print.
Variables Blue Bold padded : string -> string.
Variable StripStandardPorts : list string -> list string.
Variables IsTerminal Anonymous GlobalIsTLS GlobalBrowserEnabled cacheAPI_set : bool.

#[local] Abbreviation print :=
  (printGatewayStartupMessage Blue Bold padded StripStandardPorts
     IsTerminal Anonymous GlobalIsTLS GlobalBrowserEnabled cacheAPI_set).

(** X23. With [--anonymous], or when the output is no terminal, what
    [printGatewayStartupMessage] does on its own does not depend on the
    credentials, so that no line it logs holds the access key or the secret
    key; and the certificate message is not printed. *)
Theorem printGatewayStartupMessage_hides_credentials
  (cred cred' : Credentials) (apiEndPoints : list string) (backendType : string) :
  Anonymous = true \/ IsTerminal = false ->
  print cred apiEndPoints backendType = print cred' apiEndPoints backendType /\
  ~ In CallPrintCertificateMsg (fst (print cred apiEndPoints backendType)).
Proof.
  intros H. assert (IsTerminal && negb Anonymous = false) as E.
  { destruct H as [->| ->]; [apply andb_false_r|reflexivity]. }
  unfold printGatewayStartupMessage, printGatewayCommonMsg. rewrite E. split; [reflexivity|].
  destruct (StripStandardPorts apiEndPoints) as [|first rest]; cbn [fst];
    rewrite ?in_app_iff; destruct cacheAPI_set, GlobalBrowserEnabled; cbn;
    intuition discriminate.
Qed.

(** X24. The startup message needs an endpoint:
    [printGatewayStartupMessage] panics on [strippedAPIEndpoints[0]]
    exactly when the stripped list is empty, and has logged the endpoint
    line by then; when [PrintCLIAccessMsg] is called, it is with the first
    stripped endpoint and the alias my followed by the backend type, and
    there is no panic. *)
Theorem printGatewayStartupMessage_needs_an_endpoint
  (cred : Credentials) (apiEndPoints : list string) (backendType : string) :
  let (out, failure) := print cred apiEndPoints backendType in
  (failure <> None <-> StripStandardPorts apiEndPoints = []) /\
  In (LogStartupMessage (Blue "Endpoint: " ++
        Bold (Join (StripStandardPorts apiEndPoints) "  " ++ " "))%string) out /\
  (forall endPoint alias, In (CallPrintCLIAccessMsg endPoint alias) out ->
     failure = None /\
     alias = ("my" ++ backendType)%string /\
     exists rest, StripStandardPorts apiEndPoints = endPoint :: rest).
Proof.
  unfold printGatewayStartupMessage, printGatewayCommonMsg.
  destruct (StripStandardPorts apiEndPoints) as [|first rest] eqn:E.
  - repeat split; try congruence.
    + rewrite !in_app_iff. right. left. now left.
    + exfalso. rewrite !in_app_iff in H.
      destruct cacheAPI_set, (IsTerminal && negb Anonymous), GlobalBrowserEnabled;
        cbn in H; intuition discriminate.
    + exfalso. rewrite !in_app_iff in H.
      destruct cacheAPI_set, (IsTerminal && negb Anonymous), GlobalBrowserEnabled;
        cbn in H; intuition discriminate.
    + exfalso. rewrite !in_app_iff in H.
      destruct cacheAPI_set, (IsTerminal && negb Anonymous), GlobalBrowserEnabled;
        cbn in H; intuition discriminate.
  - split; [split; [congruence|discriminate]|]. split.
    + rewrite !in_app_iff. left. left. left. right. left. now left.
    + intros endPoint alias H. rewrite !in_app_iff in H.
      assert (CallPrintCLIAccessMsg endPoint alias =
              CallPrintCLIAccessMsg first ("my" ++ backendType)%string) as [= -> ->].
      { destruct cacheAPI_set, (IsTerminal && negb Anonymous), GlobalBrowserEnabled,
          GlobalIsTLS; cbn in H; intuition (try discriminate; auto). }
      eauto.
Qed.
End Print.

(** The message of an anonymous run, under two credentials. *)
Lemma printGatewayStartupMessage_hides_credentials_witness :
  printGatewayStartupMessage (fun s => s) (fun s => s) (fun s => s) (fun l => l)
    true true true true false (mkCredentials "minioadmin" "minioadmin")
    ["https://play.min.io:9000"]%string "s3" =
  printGatewayStartupMessage (fun s => s) (fun s => s) (fun s => s) (fun l => l)
    true true true true false (mkCredentials "another-user" "another-secret")
    ["https://play.min.io:9000"]%string "s3" /\
  ~ In CallPrintCertificateMsg
      (fst (printGatewayStartupMessage (fun s => s) (fun s => s) (fun s => s) (fun l => l)
              true true true true false (mkCredentials "minioadmin" "minioadmin")
              ["https://play.min.io:9000"]%string "s3")).
Proof.
  apply (printGatewayStartupMessage_hides_credentials (fun s => s) (fun s => s)
           (fun s => s) (fun l => l) true true true true false
           (mkCredentials "minioadmin" "minioadmin")
           (mkCredentials "another-user" "another-secret")
           ["https://play.min.io:9000"]%string "s3").
  left. reflexivity.
Defined.

End StartupMessageFacts.
